(** * PyP-BEAGLE photometry diagnostics: marginal and replicated-data plots

    A shallow embedding of [bangs_photometry.py] (the [ObservedCatalogue] and
    [Photometry] classes) and of the plot-saving helper of [bangs_utils.py].

    Numbers.  The source computes with IEEE floats (numpy [float32] and
    [float64]).  Here every float is an exact rational ([Q]): rounding, [inf]
    and [nan] are not represented.  Results are therefore compared with
    [==] where arithmetic is involved, and the array divisions whose
    denominator is derived from the observed flux errors are logged, so
    that a zero denominator (numpy yields [inf]/[nan] with a warning there,
    Rocq's [Q] yields 0) can be told from a regular one.

    Arrays.  A 1-D numpy array is a [list Q]; a 2-D array is the list of its
    rows.  Index-wise assignment [a[i] = x] is stdpp's [<[i:=x]> a]. *)

From Stdlib Require Import QArith Qminmax Qround Lqa Lia Ascii String.
From stdpp Require Import gmap strings list fin_maps.

(** ** Floats as rationals *)

(** [x > y] on floats. *)
Definition Qgtb (x y : Q) : bool := negb (Qle_bool x y).

(** [p_value_lim = 0.05] *)
Definition p_value_lim : Q := 5 # 100.

(** [np.count_nonzero] of a boolean array. *)
Definition count_nonzero (bs : list bool) : nat := length (List.filter id bs).

(** [np.where(a > 0.)[0]]: the indices of the positive entries. *)
Fixpoint where_positive_from (i : nat) (a : list Q) : list nat :=
  match a with
  | [] => []
  | x :: a' =>
      if Qgtb x 0 then i :: where_positive_from (S i) a'
      else where_positive_from (S i) a'
  end.

Definition where_positive (a : list Q) : list nat := where_positive_from 0 a.

(** [np.where(a <= lim)[0]] *)
Fixpoint where_le_from (i : nat) (lim : Q) (a : list Q) : list nat :=
  match a with
  | [] => []
  | x :: a' =>
      if Qle_bool x lim then i :: where_le_from (S i) lim a'
      else where_le_from (S i) lim a'
  end.

Definition where_le (lim : Q) (a : list Q) : list nat := where_le_from 0 lim a.

(** [np.sum] of a 1-D array and [np.sum(..., axis=0)] of a 2-D array with
    [n] columns (the sum of the rows; [zeros(n)] when there is no row). *)
Definition Qsum (a : list Q) : Q := foldl Qplus 0%Q a.

Definition sum_axis0 (n : nat) (rows : list (list Q)) : list Q :=
  foldl (zip_with Qplus) (replicate n 0%Q) rows.

(** ** Computations that may raise, with a log of the error-derived denominators

    [log] lists, in evaluation order, the denominator of every elementwise
    division by an array computed from [obs_flux_err]; [result] is [None]
    when a Python exception was raised ([IndexError], [ValueError],
    [ZeroDivisionError]). *)

Record M (A : Type) : Type := MkM { log : list Q; result : option A }.
Arguments MkM {A} _ _.
Arguments log {A} _.
Arguments result {A} _.

Definition ret {A} (a : A) : M A := MkM [] (Some a).
Definition raise {A} : M A := MkM [] None.
Definition bind {A B} (m : M A) (f : A -> M B) : M B :=
  match result m with
  | None => MkM (log m) None
  | Some a => MkM (log m ++ log (f a)) (result (f a))
  end.

#[global] Instance M_ret : MRet M := @ret.
#[global] Instance M_bind : MBind M := fun A B f m => bind m f.

(** [a[i]] for reading: [IndexError] out of range. *)
Definition get {A} (a : list A) (i : nat) : M A := MkM [] (a !! i).

(** Elementwise [num / den] where [den] derives from [obs_flux_err]; numpy
    raises [ValueError] when the shapes differ. *)
Definition divide_by_err (num den : list Q) : M (list Q) :=
  if Nat.eqb (length num) (length den)
  then MkM den (Some (zip_with Qdiv num den))
  else raise.

(** The same on 2-D arrays, row by row. *)
Fixpoint divide_by_err2 (num den : list (list Q)) : M (list (list Q)) :=
  match num, den with
  | [], [] => ret []
  | r :: num', e :: den' =>
      q ← divide_by_err r e;
      qs ← divide_by_err2 num' den';
      ret (q :: qs)
  | _, _ => raise
  end.

(** [1. * count / n] with Python numbers: [ZeroDivisionError] when [n = 0]. *)
Definition fraction (count n : nat) : M Q :=
  if Nat.eqb n 0 then raise
  else ret (1 * inject_Z (Z.of_nat count) / inject_Z (Z.of_nat n))%Q.

(** [for i in idx: st = body(st, i)] *)
Fixpoint for_each {S} (body : S -> nat -> M S) (idx : list nat) (st : S) : M S :=
  match idx with
  | [] => ret st
  | i :: idx' => st' ← body st i; for_each body idx' st'
  end.

(** [a[idx, :]]: the rows of [a] at the indices [idx]. *)
Fixpoint take_rows {A} (a : list A) (idx : list nat) : M (list A) :=
  match idx with
  | [] => ret []
  | i :: idx' => r ← get a i; rs ← take_rows a idx'; ret (r :: rs)
  end.

(** [a.reshape(n_bands, 1).repeat(n, 1)]: [ValueError] when [a] does not
    hold [n_bands] values. *)
Definition reshape_repeat (n_bands n : nat) (a : list Q) : M (list (list Q)) :=
  if Nat.eqb (length a) n_bands then ret (map (replicate n) a) else raise.

(** [a[loc] = x] *)
Definition assign_at {A} (a : list A) (loc : list nat) (x : A) : list A :=
  foldl (fun a i => <[i:=x]> a) a loc.

(** ** The posterior-predictive checks of [Photometry.plot_replicated_data]

    The state of the method at line 451: the observed fluxes and errors
    (already multiplied by [1.E+09]), the table of replicated data
    ([replic_data.data.field(i+1)] is [replic_data !! i]), its number of
    rows, and [noiseless_flux], built at lines 447-449 with shape
    [(n_bands, n_replicated)]. *)

Record ppc_input : Type := {
  obs_flux : list Q;
  obs_flux_err : list Q;
  replic_data : list (list Q);
  n_replicated : nat;
  noiseless_flux : list (list Q)
}.

(** [n_bands = len(replic_data.columns.names)-1] *)
Definition n_bands (d : ppc_input) : nat := length (replic_data d).

(** [replic_data.data.field(i+1)/1.E-09] *)
Definition to_nano (field : list Q) : list Q :=
  map (fun x => x / (1 # 1000000000))%Q field.

Definition square (a : list Q) : list Q := map (fun x => x ^ 2)%Q a.

(** Lines 460-461: the observed and the replicated discrepancy of one
    band, one value per replicated draw. *)
Definition band_discrepancies (n : nat) (obs err : Q) (noiseless field : list Q)
  : M (list Q * list Q) :=
  obs_discr ← divide_by_err (square (zip_with Qminus (replicate n obs) noiseless))
                            (square (replicate n err));
  repl_discr ← divide_by_err (square (zip_with Qminus (to_nano field) noiseless))
                             (square (replicate n err));
  ret (obs_discr, repl_discr).

(** Lines 459-465: the body of the band loop, on the pair
    [(p_value_bands, replic_fluxes)]. *)
Definition band_step (d : ppc_input) (st : list Q * list (list Q)) (i : nat)
  : M (list Q * list (list Q)) :=
  err ← get (obs_flux_err d) i;
  if Qgtb err 0 then
    obs ← get (obs_flux d) i;
    noiseless ← get (noiseless_flux d) i;
    field ← get (replic_data d) i;
    discr ← band_discrepancies (n_replicated d) obs err noiseless field;
    p ← fraction (count_nonzero (zip_with Qgtb discr.2 discr.1)) (n_replicated d);
    ret (<[i:=p]> st.1, <[i:=to_nano field]> st.2)
  else ret st.

(** Lines 455-465: the p-value band by band. *)
Definition band_loop (d : ppc_input) : M (list Q * list (list Q)) :=
  for_each (band_step d) (seq 0 (n_bands d))
    (replicate (n_bands d) 0%Q,
     replicate (n_bands d) (replicate (n_replicated d) 0%Q)).

Definition p_value_bands (d : ppc_input) : M (list Q) :=
  st ← band_loop d; ret st.1.

(** Lines 467-469: the marker of each band. *)
Definition band_markers (n : nat) (p_values : list Q) : list string :=
  let markers := replicate n "o"%string in
  let loc := where_le p_value_lim p_values in
  assign_at markers loc "o"%string.

(** Lines 472-476: the joint discrepancies, one value per replicated draw. *)
Definition joint_discrepancies (d : ppc_input) (replic_fluxes : list (list Q))
  : M (list Q * list Q) :=
  let ok_bands := where_positive (obs_flux_err d) in
  let n := n_replicated d in
  ext_obs_flux ← reshape_repeat (n_bands d) n (obs_flux d);
  ext_obs_flux_err ← reshape_repeat (n_bands d) n (obs_flux_err d);
  obs_rows ← take_rows ext_obs_flux ok_bands;
  noiseless_rows ← take_rows (noiseless_flux d) ok_bands;
  err_rows ← take_rows ext_obs_flux_err ok_bands;
  obs_terms ← divide_by_err2 (map square (zip_with (zip_with Qminus) obs_rows noiseless_rows))
                             (map square err_rows);
  replic_rows ← take_rows replic_fluxes ok_bands;
  repl_terms ← divide_by_err2 (map square (zip_with (zip_with Qminus) replic_rows noiseless_rows))
                              (map square err_rows);
  ret (sum_axis0 n obs_terms, sum_axis0 n repl_terms).

(** Lines 478-479: the joint p-value, from the joint discrepancies. *)
Definition joint_p_value (n : nat) (discr : list Q * list Q) : M Q :=
  fraction (count_nonzero (zip_with Qgtb discr.2 discr.1)) n.

(** [np.mean] of a 1-D array. *)
Definition np_mean (a : list Q) : Q := (Qsum a / inject_Z (Z.of_nat (length a)))%Q.

(** [np.cov] of a 2-D array whose rows are the variables (two or more
    of them): the products of the centred rows, over [n - 1]. *)
Definition np_cov (rows : list (list Q)) : list (list Q) :=
  let centred := map (fun r => map (fun x => x - np_mean r)%Q r) rows in
  map (fun ri => map (fun rj =>
         (Qsum (zip_with Qmult ri rj) / (inject_Z (Z.of_nat (length ri)) - 1))%Q)
       centred) centred.

(** Lines 489-495: the mean residual of each band. *)
Definition mean_residual (d : ppc_input) : M (list Q) :=
  let mean_replic_fluxes :=
    map (fun field => np_mean field / (1 # 1000000000))%Q (replic_data d) in
  divide_by_err (zip_with Qminus mean_replic_fluxes (obs_flux d)) (obs_flux_err d).

(** Lines 489-500: the residual of every band and draw. *)
Definition residual_fluxes (d : ppc_input) : M (list (list Q)) :=
  let replic_fluxes := map to_nano (replic_data d) in
  ext_obs_flux ← reshape_repeat (n_bands d) (n_replicated d) (obs_flux d);
  ext_obs_flux_err ← reshape_repeat (n_bands d) (n_replicated d) (obs_flux_err d);
  divide_by_err2 (zip_with (zip_with Qminus) replic_fluxes ext_obs_flux) ext_obs_flux_err.

(** What the method has computed at line 502; [stat_obs_discr] and
    [stat_repl_discr] are the joint discrepancies of lines 475-476. *)
Record ppc_statistics : Type := {
  stat_p_value_bands : list Q;
  stat_markers : list string;
  stat_obs_discr : list Q;
  stat_repl_discr : list Q;
  stat_p_value : Q;
  stat_mean_residual : list Q;
  stat_residual_covar : list (list Q)
}.

(** Lines 451-502 in sequence. *)
Definition posterior_predictive_checks (d : ppc_input) : M ppc_statistics :=
  st ← band_loop d;
  let markers := band_markers (n_bands d) st.1 in
  discr ← joint_discrepancies d st.2;
  p_value ← joint_p_value (n_replicated d) discr;
  mean_res ← mean_residual d;
  residuals ← residual_fluxes d;
  ret {| stat_p_value_bands := st.1;
         stat_markers := markers;
         stat_obs_discr := discr.1;
         stat_repl_discr := discr.2;
         stat_p_value := p_value;
         stat_mean_residual := mean_res;
         stat_residual_covar := np_cov residuals |}.

(** ** The observed catalogue ([ObservedCatalogue])

    A catalogue is a table: [columns] are its column names
    ([data.dtype.names]) and [records] its rows, keyed by the object ID.
    A row maps a column name to the value stored there; reading a name the
    row does not hold raises ([None]). *)

Record catalogue : Type := {
  columns : list string;
  records : gmap string (gmap string Q)
}.

(** Modelled from the spec: [extract_row] of [bangs_utils] is not among the
    sources.  Section 6 of the specification: the input catalogue record
    is keyed by object ID and exposes named fields. *)
Definition extract_row (data : catalogue) (ID : string) : option (gmap string Q) :=
  records data !! ID.

(** [PhotometricFilters], as far as the two plotters read it. *)
Record filters : Type := {
  filters_n_bands : nat;
  flux_colName : list string;
  flux_errcolName : list string;
  min_rel_err : list Q;
  units : Q;
  wl_eff : list Q
}.

(** [Jy = 1.E-23], [nanoJy = 1.E-23 * 1.E-09] *)
Definition Jy : Q := 1 # (10 ^ 23).
Definition nanoJy : Q := 1 # (10 ^ 32).

Section Catalogue.

(** [np.sqrt] and [10.**x] have no rational counterpart; the model is
    parametrised by them. *)
Variable sqrt : Q -> Q.
Variable pow10 : Q -> Q.

(** Lines 90-101: the body of the loop of [extract_fluxes], on the pair
    [(flux, flux_err)]. *)
Definition extract_band (f : filters) (row : gmap string Q) (aper_corr : Q)
    (st : list Q * list Q) (j : nat) : option (list Q * list Q) :=
  name ← flux_colName f !! j;
  v ← row !! name;
  let flux_j := (v * aper_corr * units f / Jy)%Q in
  name ← flux_errcolName f !! j;
  e ← row !! name;
  let err_j := (e * aper_corr * units f / Jy)%Q in
  if Qgtb err_j 0 then
    m ← min_rel_err f !! j;
    Some (<[j:=flux_j]> st.1,
          <[j:=(sqrt ((err_j / flux_j) ^ 2 + m ^ 2) * flux_j)%Q]> st.2)
  else Some (<[j:=flux_j]> st.1, <[j:=err_j]> st.2).

Fixpoint extract_loop (f : filters) (row : gmap string Q) (aper_corr : Q)
    (idx : list nat) (st : list Q * list Q) : option (list Q * list Q) :=
  match idx with
  | [] => Some st
  | j :: idx' =>
      st' ← extract_band f row aper_corr st j;
      extract_loop f row aper_corr idx' st'
  end.

(** [ObservedCatalogue.extract_fluxes(filters, ID, aper_corr)] *)
Definition extract_fluxes (data : catalogue) (f : filters) (ID : string)
    (aper_corr : Q) : option (list Q * list Q) :=
  let flux := replicate (filters_n_bands f) 0%Q in
  let flux_err := replicate (filters_n_bands f) 0%Q in
  row ← extract_row data ID;
  extract_loop f row aper_corr (seq 0 (filters_n_bands f)) (flux, flux_err).

(** Lines 159-172 (and 409-422): the observed fluxes and errors of the
    plotters, in nanoJy.  The local [aper_corr] is computed and then
    left unused: [extract_fluxes] is called with two arguments, so its
    third one takes the default [1.]. *)
Definition observed_photometry (data : catalogue) (f : filters) (ID : string)
  : option (list Q * list Q) :=
  observation ← extract_row data ID;
  aper_corr ← (if bool_decide ("aper_corr"%string ∈ columns data)
               then c ← observation !! "aper_corr"%string;
                    Some (pow10 (- (4 # 10) * c)%Q)
               else Some 1%Q);
  obs ← extract_fluxes data f ID 1;
  Some (map (fun x => x * inject_Z (10 ^ 9))%Q obs.1,
        map (fun x => x * inject_Z (10 ^ 9))%Q obs.2).

End Catalogue.

(** ** The marginal photometry plot ([Photometry.plot_marginal]) *)

(** [np.min] and [np.max] of a 1-D array: [ValueError] on an empty one. *)
Definition np_min (a : list Q) : option Q :=
  match a with
  | [] => None
  | x :: a' => Some (foldl Qmin x a')
  end.

Definition np_max (a : list Q) : option Q :=
  match a with
  | [] => None
  | x :: a' => Some (foldl Qmax x a')
  end.

(** [a[1:] - a[0:-1]] *)
Definition np_diff (a : list Q) : list Q :=
  zip_with Qminus (drop 1 a) (take (length a - 1) a).

(** What [prepare_violin_plot] returns: the density, its value at the
    median, the median, the support grid and the density on the grid. *)
Record violin : Type := {
  violin_pdf : Q -> Q;
  violin_norm : Q;
  violin_median : Q;
  violin_x : list Q;
  violin_y : list Q
}.

(** What the plotters hand to matplotlib. *)
Inductive artist : Type :=
| FillBetweenx (y x1 x2 : list Q)
| Line (x y : list Q)
| Point (x y : Q)
| ErrorBar (x y yerr : list Q).

(** The arrays filled by the first loop of [plot_marginal]. *)
Record marginal_state : Type := {
  median_flux : list Q;
  pdf_norm : list Q;
  max_y : list Q;
  min_flux : list Q;
  max_flux : list Q;
  x_plot : list (list Q);
  y_plot : list (list Q);
  has_pdf : list bool;
  kde_pdf : list (Q -> Q)
}.

(** Lines 187-198.  [has_pdf], [kde_pdf], [x_plot] and [y_plot] start as
    [list(range(n_bands))]: as a condition the integer [i] is true unless
    it is 0; the other three hold placeholders until the loop writes them. *)
Definition marginal_init (n : nat) : marginal_state := {|
  median_flux := replicate n 0%Q;
  pdf_norm := replicate n 0%Q;
  max_y := replicate n 0%Q;
  min_flux := replicate n 0%Q;
  max_flux := replicate n 0%Q;
  x_plot := replicate n [];
  y_plot := replicate n [];
  has_pdf := map (fun i => negb (Nat.eqb i 0)) (seq 0 n);
  kde_pdf := replicate n (fun _ => 0%Q)
|}.

Section Marginal.

(** [prepare_violin_plot(data, weights)] of [bangs_utils] is not among
    the sources: the weighted density estimate is a parameter, which may
    raise ([None]). *)
Variable prepare_violin_plot : list Q -> option (list Q) -> option violin.

(** Lines 206-229: the body of the first loop, for band [i] whose
    column of the marginal photometry table is [field]. *)
Definition marginal_band (probability : list Q) (st : marginal_state)
    (i : nat) (field : list Q) : option marginal_state :=
  let xdata := map (fun x => x / nanoJy)%Q field in
  min_x ← np_min xdata;
  max_x ← np_max xdata;
  if Qeq_bool min_x max_x then
    Some {| median_flux := <[i:=min_x]> (median_flux st);
            pdf_norm := pdf_norm st;
            max_y := max_y st;
            min_flux := <[i:=min_x]> (min_flux st);
            max_flux := <[i:=max_x]> (max_flux st);
            x_plot := x_plot st;
            y_plot := y_plot st;
            has_pdf := <[i:=false]> (has_pdf st);
            kde_pdf := kde_pdf st |}
  else
    v ← prepare_violin_plot xdata (Some probability);
    m ← np_max (violin_y v);
    Some {| median_flux := <[i:=violin_median v]> (median_flux st);
            pdf_norm := <[i:=violin_norm v]> (pdf_norm st);
            max_y := <[i:=m]> (max_y st);
            min_flux := <[i:=min_x]> (min_flux st);
            max_flux := <[i:=max_x]> (max_flux st);
            x_plot := <[i:=violin_x v]> (x_plot st);
            y_plot := <[i:=violin_y v]> (y_plot st);
            has_pdf := <[i:=true]> (has_pdf st);
            kde_pdf := <[i:=violin_pdf v]> (kde_pdf st) |}.

(** Lines 205-229: [for i in range(n_bands)], over the columns
    [model_sed.data.field(i)] from band [i] on. *)
Fixpoint marginal_loop (probability : list Q) (i : nat)
    (fields : list (list Q)) (st : marginal_state) : option marginal_state :=
  match fields with
  | [] => Some st
  | field :: fields' =>
      st' ← marginal_band probability st i field;
      marginal_loop probability (S i) fields' st'
  end.

(** Lines 231-232: [delta_wl], the spacing of the effective wavelengths
    with its first entry repeated in front. *)
Definition delta_wl (wl : list Q) : option (list Q) :=
  d0 ← np_diff wl !! 0%nat;
  Some (d0 :: np_diff wl).

(** Lines 236-238: the spacing used for band [i]. *)
Definition band_dwl (delta : list Q) (i : nat) : option Q :=
  dwl ← delta !! i;
  if Nat.ltb 1 i then np_min (take 1 (drop (i - 1) delta)) else Some dwl.

(** Lines 236-265: what the second loop draws for band [i]; the two
    borders of the filled shape must have the shape of [y_grid]
    ([ValueError] otherwise). *)
Definition band_artists (wl : list Q) (delta : list Q) (st : marginal_state)
    (i : nat) : option (list artist) :=
  dwl ← band_dwl delta i;
  has ← has_pdf st !! i;
  if (has : bool) then
    my ← max_y st !! i;
    let w := ((4 # 10) * dwl / my)%Q in
    xs ← x_plot st !! i;
    wl_i ← wl !! i;
    let y_grid := replicate (length xs) wl_i in
    pdf ← kde_pdf st !! i;
    med ← median_flux st !! i;
    norm ← pdf_norm st !! i;
    let lim_y := (pdf med / norm * w)%Q in
    ys ← y_plot st !! i;
    let half := map (fun y => y * w)%Q ys in
    if Nat.eqb (length y_grid) (length half) then
      Some [FillBetweenx xs (zip_with Qminus y_grid half) (zip_with Qplus y_grid half);
            Line [wl_i - lim_y; wl_i + lim_y]%Q [med; med];
            Point wl_i med]
    else None
  else
    wl_i ← wl !! i;
    med ← median_flux st !! i;
    Some [Point wl_i med].

(** Lines 234-265: [for i in range(n_bands)]. *)
Fixpoint artists_loop (wl delta : list Q) (st : marginal_state)
    (idx : list nat) : option (list artist) :=
  match idx with
  | [] => Some []
  | i :: idx' =>
      a ← band_artists wl delta st i;
      rest ← artists_loop wl delta st idx';
      Some (a ++ rest)
  end.

(** Lines 174 and 268-277: the limits of the y-axis. *)
Definition y_limits (obs_flux obs_flux_err : list Q) (st : marginal_state)
  : option (Q * Q) :=
  let ok := where_positive obs_flux_err in
  obs_ok ← mapM (fun i => obs_flux !! i) ok;
  err_ok ← mapM (fun i => obs_flux_err !! i) ok;
  yMax ← np_max (max_flux st);
  yMin ← np_min (zip_with Qminus obs_ok err_ok ++ min_flux st);
  let dY := (yMax - yMin)%Q in
  Some (yMin - dY * (1 # 10), yMax + dY * (1 # 10))%Q.

Record figure : Type := {
  fig_artists : list artist;
  fig_ylim : Q * Q
}.

(** Lines 174-306: the figure drawn from the observed photometry
    [(obs_flux, obs_flux_err)] (in nanoJy), the columns [model_sed] of the
    marginal photometry table and the posterior [probability]. *)
Definition marginal_figure (f : filters) (obs_flux obs_flux_err : list Q)
    (model_sed : list (list Q)) (probability : list Q) : option figure :=
  let n_bands := length model_sed in
  width ← np_min (np_diff (wl_eff f));
  st ← marginal_loop probability 0 model_sed (marginal_init n_bands);
  delta ← delta_wl (wl_eff f);
  violins ← artists_loop (wl_eff f) delta st (seq 0 n_bands);
  ylim ← y_limits obs_flux obs_flux_err st;
  Some {| fig_artists := violins ++ [ErrorBar (wl_eff f) obs_flux obs_flux_err];
          fig_ylim := ylim |}.

End Marginal.

(** ** Saving the plots ([bangs_utils] and the two entry points)

    The part of the outside world the plotters touch: whether the plot
    directory [results_dir/pybangs/plot] exists, the files it holds (by
    base name), the lines sent to [logging], and the figures shown on screen
    by [plt.show()]. *)

Record world : Type := {
  plot_dir_exists : bool;
  plot_files : gmap string figure;
  logged : list string;
  shown : list figure
}.

Definition log_line (msg : string) (w : world) : world :=
  {| plot_dir_exists := plot_dir_exists w;
     plot_files := plot_files w;
     logged := logged w ++ [msg];
     shown := shown w |}.

(** Modelled from the spec: [plot_exists] of [bangs_utils] is not among the
    sources.  Section 6 of the specification: the existing-artifact check
    is a presence test keyed by the artifact name, under the plot
    subdirectory of the results. *)
Definition plot_exists (plot_name : string) (w : world) : bool :=
  bool_decide (is_Some (plot_files w !! plot_name)).

(** [os.path.splitext] on a base name: the extension starts at the last
    dot, unless nothing precedes that dot. *)
Fixpoint split_last_dot (s : string) : option (string * string) :=
  match s with
  | EmptyString => None
  | String c s' =>
      match split_last_dot s' with
      | Some (root, ext) => Some (String c root, ext)
      | None => if Ascii.eqb c "."%char then Some (EmptyString, s) else None
      end
  end.

Definition splitext (s : string) : string * string :=
  match split_last_dot s with
  | Some (String c root, ext) => (String c root, ext)
  | _ => (s, EmptyString)
  end.

Section Saving.

(** [datetime.now().strftime("-%Y%m%d-%H%M%S")] at the time of the call. *)
Variable stamp : string.

(** [prepare_plot_saving(file_name, overwrite=...)] for a base name:
    creates the plot directory if needed and, unless [overwrite], moves
    an existing file of that name out of the way. *)
Definition prepare_plot_saving (file_name : string) (overwrite : bool)
    (w : world) : world :=
  let w1 :=
    if plot_dir_exists w then w
    else {| plot_dir_exists := true;
            plot_files := plot_files w;
            logged := logged w ++ ["Creating the directory"%string];
            shown := shown w |} in
  match plot_files w1 !! file_name with
  | Some old =>
      if overwrite then w1
      else
        let new_name := ((splitext file_name).1 +:+ stamp +:+ (splitext file_name).2)%string in
        {| plot_dir_exists := plot_dir_exists w1;
           plot_files := <[new_name:=old]> (delete file_name (plot_files w1));
           logged := logged w1 ++ ["The file already exists, and it will be renamed"%string];
           shown := shown w1 |}
  | None => w1
  end.

(** [fig.savefig(name, ...)] *)
Definition savefig (name : string) (fig : figure) (w : world) : world :=
  {| plot_dir_exists := plot_dir_exists w;
     plot_files := <[name:=fig]> (plot_files w);
     logged := logged w;
     shown := shown w |}.

Definition marginal_plot_name (ID : string) : string :=
  (ID +:+ "_BANGS_marginal_SED_phot.pdf")%string.

Definition replicated_plot_name (ID : string) : string :=
  (ID +:+ "_BANGS_replic_data_phot.pdf")%string.

Variable sqrt : Q -> Q.
Variable pow10 : Q -> Q.
Variable prepare_violin_plot : list Q -> option (list Q) -> option violin.

(** The results of the fit, [<ID>_BANGS.fits.gz]: for each object the
    columns of the marginal photometry table and the [probability]
    column of the posterior pdf table. *)
Variable results : gmap string (list (list Q) * list Q).

(** [Photometry.plot_marginal(ID, replot=..., show=...)]; [None] when an
    exception is raised.  Titles, texts, ticks and the zero line of the
    figure are not represented, and the warning is logged without the
    name of the plot. *)
Definition plot_marginal (data : catalogue) (f : filters) (ID : string)
    (replot show : bool) (w : world) : option world :=
  let plot_name := marginal_plot_name ID in
  if plot_exists plot_name w && negb replot && negb show then
    Some (log_line "The plot already exists. Exiting the function." w)
  else
    obs ← observed_photometry sqrt pow10 data f ID;
    fit ← results !! ID;
    fig ← marginal_figure prepare_violin_plot f obs.1 obs.2 fit.1 fit.2;
    if show then
      Some {| plot_dir_exists := plot_dir_exists w;
              plot_files := plot_files w;
              logged := logged w;
              shown := shown w ++ [fig] |}
    else
      Some (savefig plot_name fig (prepare_plot_saving plot_name false w)).

(** Lines 401-732 of [plot_replicated_data]: the figure with the grid of
    residuals of one object, whose statistics are
    [posterior_predictive_checks]; [None] when an exception is raised. *)
Variable replicated_figure : string -> option figure.

(** [Photometry.plot_replicated_data(ID, replot=...)] *)
Definition plot_replicated_data (ID : string) (replot : bool) (w : world)
  : option world :=
  let plot_name := replicated_plot_name ID in
  if plot_exists plot_name w && negb replot then
    Some (log_line "The plot already exists. Exiting the function." w)
  else
    fig ← replicated_figure ID;
    Some (savefig plot_name fig (prepare_plot_saving plot_name false w)).

End Saving.

(** ** Vocabulary of the statements *)

(** The shapes the method relies on: every per-band array has [n_bands]
    entries, every per-draw row has [n_replicated] entries, and there is
    at least one replicated draw. *)
Record wf_input (d : ppc_input) : Prop := {
  wf_obs : length (obs_flux d) = n_bands d;
  wf_err : length (obs_flux_err d) = n_bands d;
  wf_noiseless : length (noiseless_flux d) = n_bands d;
  wf_noiseless_rows : Forall (fun r => length r = n_replicated d) (noiseless_flux d);
  wf_replic_rows : Forall (fun r => length r = n_replicated d) (replic_data d);
  wf_draws : (0 < n_replicated d)%nat
}.

(** The discrepancies of section 4.3 of the specification, for one band
    and one draw. *)
Definition obs_discrepancy (obs err noiseless : Q) : Q :=
  ((obs - noiseless) ^ 2 / err ^ 2)%Q.

Definition repl_discrepancy (replicated err noiseless : Q) : Q :=
  ((replicated - noiseless) ^ 2 / err ^ 2)%Q.

(** The number of draws whose replicated discrepancy strictly exceeds
    the observed one; the draws are given by their replicated and their
    noiseless flux. *)
Fixpoint n_exceeding (obs err : Q) (replicated noiseless : list Q) : nat :=
  match replicated, noiseless with
  | r :: rs, m :: ms =>
      (if Qlt_le_dec (obs_discrepancy obs err m) (repl_discrepancy r err m)
       then 1 else 0) + n_exceeding obs err rs ms
  | _, _ => 0
  end.

#[global] Instance Qlt_decision (x y : Q) : Decision (x < y)%Q.
Proof.
  destruct (Qlt_le_dec x y) as [H|H]; [by left|right].
  by apply Qle_not_lt.
Defined.

(** One photometric band of the input: its observed flux and error and,
    for every draw, its noiseless and its replicated flux (in nanoJy). *)
Record band : Type := {
  band_obs : Q;
  band_err : Q;
  band_noiseless : list Q;
  band_replicated : list Q
}.

Definition bands (d : ppc_input) : list band :=
  zip_with (fun oe mr => {| band_obs := oe.1; band_err := oe.2;
                            band_noiseless := mr.1; band_replicated := mr.2 |})
    (zip (obs_flux d) (obs_flux_err d))
    (zip (noiseless_flux d) (map to_nano (replic_data d))).

(** The bands that enter the joint discrepancy: a positive error. *)
Definition included_bands (d : ppc_input) : list band :=
  filter (fun b => 0 < band_err b)%Q (bands d).

(** The joint discrepancies of draw [k], as section 4.3 of the
    specification defines them. *)
Definition joint_obs_discrepancy (d : ppc_input) (k : nat) : Q :=
  Qsum (map (fun b => obs_discrepancy (band_obs b) (band_err b)
                        (nth k (band_noiseless b) 0%Q))
            (included_bands d)).

Definition joint_repl_discrepancy (d : ppc_input) (k : nat) : Q :=
  Qsum (map (fun b => repl_discrepancy (nth k (band_replicated b) 0%Q) (band_err b)
                        (nth k (band_noiseless b) 0%Q))
            (included_bands d)).

(** The number of positions where [ys] strictly exceeds [xs]. *)
Definition count_exceeding_pairs (xs ys : list Q) : nat :=
  length (filter (fun p => p.1 < p.2)%Q (zip xs ys)).

(** The input with one more band, put at position [pos]. *)
Definition insert_at {A} (pos : nat) (x : A) (a : list A) : list A :=
  take pos a ++ x :: drop pos a.

Definition add_band (pos : nat) (obs err : Q) (noiseless field : list Q)
    (d : ppc_input) : ppc_input := {|
  obs_flux := insert_at pos obs (obs_flux d);
  obs_flux_err := insert_at pos err (obs_flux_err d);
  replic_data := insert_at pos field (replic_data d);
  n_replicated := n_replicated d;
  noiseless_flux := insert_at pos noiseless (noiseless_flux d)
|}.

(** Two catalogues that differ at most in the values of the [aper_corr]
    column: the same columns, the same objects, and for every object the
    same value in every other column. *)
Definition same_but_aper_corr (c1 c2 : catalogue) : Prop :=
  columns c1 = columns c2 /\
  forall ID,
    match records c1 !! ID, records c2 !! ID with
    | Some r1, Some r2 =>
        (forall k, k <> "aper_corr"%string -> r1 !! k = r2 !! k) /\
        (is_Some (r1 !! "aper_corr"%string) <-> is_Some (r2 !! "aper_corr"%string))
    | None, None => True
    | _, _ => False
    end.

(** The largest half-width of a filled shape drawn around [centre]. *)
Definition max_half_width (centre : Q) (a : artist) : option Q :=
  match a with
  | FillBetweenx _ _ x2 => np_max (map (fun x => x - centre)%Q x2)
  | _ => None
  end.

(** ** Example inputs *)

(** A crude density estimate, standing in for [prepare_violin_plot] in
    the examples: the uniform density between the smallest and the largest
    value of the sample, on a grid of two points. *)
Definition uniform_violin (xdata : list Q) (weights : option (list Q))
  : option violin :=
  lo ← np_min xdata;
  hi ← np_max xdata;
  let density := (1 / (hi - lo))%Q in
  Some {| violin_pdf := fun _ => density;
          violin_norm := density;
          violin_median := ((lo + hi) / 2)%Q;
          violin_x := [lo; hi];
          violin_y := [density; density] |}.

(** Three bands at 1000, 2000 and 2100 Angstrom. *)
Definition three_filters : filters := {|
  filters_n_bands := 3;
  flux_colName := ["F1"; "F2"; "F3"]%string;
  flux_errcolName := ["E1"; "E2"; "E3"]%string;
  min_rel_err := [0; 0; 0]%Q;
  units := Jy;
  wl_eff := [1000; 2000; 2100]%Q
|}.

(** Two posterior samples per band, in erg/s/cm2/Hz: 1 and 3 nanoJy in
    the first band, 2 and 4 in the second, 5 and 5 in the third. *)
Definition three_band_fit : list (list Q) :=
  [[1 # (10 ^ 32); 3 # (10 ^ 32)];
   [2 # (10 ^ 32); 4 # (10 ^ 32)];
   [5 # (10 ^ 32); 5 # (10 ^ 32)]]%Q.

(** An observation far above the model in the first band; the third
    band is not observed. *)
Definition bright_obs_flux : list Q := [100; 3; 5]%Q.
Definition bright_obs_flux_err : list Q := [1; 1; 0]%Q.

(** Two bands, four draws; the second band is not observed (error 0). *)
Definition two_bands_one_masked : ppc_input := {|
  obs_flux := [10; 3]%Q;
  obs_flux_err := [1; 0]%Q;
  replic_data := [[(11 # 1000000000); (9 # 1000000000); (13 # 1000000000); (10 # 1000000000)];
                  [(3 # 1000000000); (4 # 1000000000); (2 # 1000000000); (5 # 1000000000)]]%Q;
  n_replicated := 4;
  noiseless_flux := [[10; 11; 10; 12]; [3; 3; 3; 3]]%Q
|}.

(** One band, three draws, and every replicated flux equal to the observed
    and to the noiseless flux: the scenario of section 8 of the
    specification. *)
Definition one_band_ties : ppc_input := {|
  obs_flux := [10]%Q;
  obs_flux_err := [1]%Q;
  replic_data := [[(10 # 1000000000); (10 # 1000000000); (10 # 1000000000)]]%Q;
  n_replicated := 3;
  noiseless_flux := [[10; 10; 10]]%Q
|}.

(** Stand-ins for [np.sqrt] and [10.**x] in the examples: four steps of
    Newton's iteration from 1, and ten to the integer part of the
    exponent. *)
Definition approx_sqrt (x : Q) : Q :=
  let step := fun y => Qred ((y + x / y) / 2)%Q in
  step (step (step (step 1%Q))).

Definition approx_pow10 (x : Q) : Q := (10 ^ Qfloor x)%Q.

(** Two catalogues with the object ["42"], which differ in the value of
    the [aper_corr] column only. *)
Definition row_42 : gmap string Q :=
  <["F1"%string := 100%Q]> (<["E1"%string := 1%Q]>
  (<["F2"%string := 3%Q]> (<["E2"%string := 1%Q]>
  (<["F3"%string := 5%Q]> (<["E3"%string := 0%Q]> ∅))))).

Definition catalogue_columns : list string :=
  ["ID"; "F1"; "E1"; "F2"; "E2"; "F3"; "E3"; "aper_corr"]%string.

Definition catalogue_a : catalogue := {|
  columns := catalogue_columns;
  records := {[ "42"%string := <["aper_corr"%string := 0%Q]> row_42 ]}
|}.

Definition catalogue_b : catalogue := {|
  columns := catalogue_columns;
  records := {[ "42"%string := <["aper_corr"%string := (1 # 2)%Q]> row_42 ]}
|}.

(** The results of the fit of the object ["42"]. *)
Definition results_42 : gmap string (list (list Q) * list Q) :=
  {[ "42"%string := (three_band_fit, [1; 1]%Q) ]}.

(** A plot directory that already holds both plots of the object ["42"],
    drawn earlier with empty figures. *)
Definition old_figure : figure := {| fig_artists := []; fig_ylim := (0, 1)%Q |}.

Definition world_with_plots : world := {|
  plot_dir_exists := true;
  plot_files := <["42_BANGS_marginal_SED_phot.pdf"%string := old_figure]>
                (<["42_BANGS_replic_data_phot.pdf"%string := old_figure]> ∅);
  logged := [];
  shown := []
|}.

(** ** Auxiliary definitions of the proofs *)

(** The discrepancy arrays of one band, as the loop body computes them. *)
Definition obs_discr_array (n : nat) (obs err : Q) (noiseless : list Q) : list Q :=
  zip_with Qdiv (square (zip_with Qminus (replicate n obs) noiseless))
                (square (replicate n err)).

Definition repl_discr_array (n : nat) (err : Q) (noiseless field : list Q) : list Q :=
  zip_with Qdiv (square (zip_with Qminus (to_nano field) noiseless))
                (square (replicate n err)).

(** The p-value the loop body stores for an observed band. *)
Definition band_p_value (n : nat) (obs err : Q) (noiseless field : list Q) : Q :=
  (1 * inject_Z (Z.of_nat (count_nonzero
         (zip_with Qgtb (repl_discr_array n err noiseless field)
                        (obs_discr_array n obs err noiseless))))
   / inject_Z (Z.of_nat n))%Q.

(** What the loop body writes at band [i]: nothing for a masked band. *)
Definition band_entry (d : ppc_input) (i : nat) : option (Q * list Q) :=
  match obs_flux d !! i, obs_flux_err d !! i, noiseless_flux d !! i, replic_data d !! i with
  | Some obs, Some err, Some noiseless, Some field =>
      if Qgtb err 0
      then Some (band_p_value (n_replicated d) obs err noiseless field, to_nano field)
      else None
  | _, _, _, _ => None
  end.

Definition band_update (d : ppc_input) (st : list Q * list (list Q)) (i : nat)
  : list Q * list (list Q) :=
  match band_entry d i with
  | Some (p, row) => (<[i:=p]> st.1, <[i:=row]> st.2)
  | None => st
  end.

(** The rows of [a] at the observed bands, those with a positive error. *)
Fixpoint observed_rows {A} (errs : list Q) (a : list A) : list A :=
  match errs, a with
  | e :: errs', x :: a' =>
      if Qgtb e 0 then x :: observed_rows errs' a' else observed_rows errs' a'
  | _, _ => []
  end.

(** Rows of a given length. *)
Definition rows_of (n : nat) (a : list (list Q)) : Prop :=
  Forall (fun r => length r = n) a.

(** The terms summed by the joint discrepancies: one row per observed
    band, one column per draw. *)
Definition joint_terms (errs : list Q) (n : nat) (a noiseless : list (list Q))
  : list (list Q) :=
  zip_with (zip_with Qdiv)
    (map square (zip_with (zip_with Qminus) (observed_rows errs a)
                                            (observed_rows errs noiseless)))
    (map square (observed_rows errs (map (replicate n) errs))).

(** The joint discrepancies of the method as a function of the input. *)
Definition joint_discr_of (d : ppc_input) : list Q * list Q :=
  (sum_axis0 (n_replicated d)
     (joint_terms (obs_flux_err d) (n_replicated d)
        (map (replicate (n_replicated d)) (obs_flux d)) (noiseless_flux d)),
   sum_axis0 (n_replicated d)
     (joint_terms (obs_flux_err d) (n_replicated d)
        (map to_nano (replic_data d)) (noiseless_flux d))).

Definition joint_p_of (d : ppc_input) : Q :=
  (1 * inject_Z (Z.of_nat (count_nonzero
      (zip_with Qgtb (joint_discr_of d).2 (joint_discr_of d).1)))
   / inject_Z (Z.of_nat (n_replicated d)))%Q.

(** The mean residuals and the residuals of the method as functions of
    the input. *)
Definition mean_residual_of (d : ppc_input) : list Q :=
  zip_with Qdiv
    (zip_with Qminus
       (map (fun field => np_mean field / (1 # 1000000000))%Q (replic_data d))
       (obs_flux d))
    (obs_flux_err d).

Definition residuals_of (d : ppc_input) : list (list Q) :=
  zip_with (zip_with Qdiv)
    (zip_with (zip_with Qminus) (map to_nano (replic_data d))
       (map (replicate (n_replicated d)) (obs_flux d)))
    (map (replicate (n_replicated d)) (obs_flux_err d)).

(** Every array of the state has [n] entries. *)
Definition state_size (n : nat) (st : marginal_state) : Prop :=
  length (median_flux st) = n /\ length (pdf_norm st) = n /\
  length (max_y st) = n /\ length (min_flux st) = n /\
  length (max_flux st) = n /\ length (x_plot st) = n /\
  length (y_plot st) = n /\ length (has_pdf st) = n /\
  length (kde_pdf st) = n.

(** Two states hold the same values for band [i]. *)
Definition same_band (i : nat) (s t : marginal_state) : Prop :=
  median_flux s !! i = median_flux t !! i /\ pdf_norm s !! i = pdf_norm t !! i /\
  max_y s !! i = max_y t !! i /\ min_flux s !! i = min_flux t !! i /\
  max_flux s !! i = max_flux t !! i /\ x_plot s !! i = x_plot t !! i /\
  y_plot s !! i = y_plot t !! i /\ has_pdf s !! i = has_pdf t !! i /\
  kde_pdf s !! i = kde_pdf t !! i.

From Stdlib Require Import Qabs.
From stdpp Require Import sorting.

(** ** The grid of replicated draws (lines 549-653)

    [rows] stands for [replic_data_rows], the draws chosen by
    [np.random.choice]: one per subplot. *)





Section ResidualViolins.

Variable prepare_violin_plot : list Q -> option (list Q) -> option violin.

(** Lines 618-641: what the first subplot of the grid draws for band [j],
    from the rows of [residual_fluxes]; [prepare_violin_plot] is called
    without weights, and, unlike in [plot_marginal], for every band. *)
Definition residual_violin (wl delta : list Q) (residual_fluxes : list (list Q))
    (j : nat) : option (list artist) :=
  residual ← residual_fluxes !! j;
  v ← prepare_violin_plot residual None;
  dwl ← delta !! j;
  my ← np_max (violin_y v);
  let w := ((4 # 10) * dwl / my)%Q in
  wl_j ← wl !! j;
  let y_grid := replicate (length (violin_x v)) wl_j in
  let lim_y := (violin_pdf v (violin_median v) / violin_norm v * w)%Q in
  let half := map (fun y => y * w)%Q (violin_y v) in
  if Nat.eqb (length y_grid) (length half) then
    Some [FillBetweenx (violin_x v) (zip_with Qminus y_grid half)
            (zip_with Qplus y_grid half);
          Line [wl_j - lim_y; wl_j + lim_y]%Q [violin_median v; violin_median v]]
  else None.

End ResidualViolins.

(** ** The weighted average and standard deviation ([bangs_utils], lines 200-224) *)

(** [np.average(a, weights=w)] of 1-D arrays: [TypeError] when the shapes
    differ, [ZeroDivisionError] when the weights sum to zero. *)
Definition np_average (a weights : list Q) : option Q :=
  if negb (Nat.eqb (length a) (length weights)) then None
  else
    let scl := Qsum weights in
    if Qeq_bool scl 0 then None
    else Some (Qsum (zip_with Qmult a weights) / scl)%Q.

Section WeightedAverage.

Variable sqrt : Q -> Q.

(** [weighted_avg_and_std(values, weights)] *)
Definition weighted_avg_and_std (values weights : list Q) : option (Q * Q) :=
  average ← np_average values weights;
  variance ← np_average (map (fun v => (v - average) ^ 2)%Q values) weights;
  Some (average, sqrt variance).

End WeightedAverage.

(** ** Matching the IDs of two catalogues ([bangs_utils.match_ID], lines 129-197)

    The IDs are integers ([dtype=np.int]; overflow is not represented).
    The index arrays [match_indx_long] and [match_indx_short] hold
    integers, with [-1] for "no match". *)

(** [bisect.bisect_left(a, x)]: the loop [while lo < hi] of the standard
    library, with [fuel] bounding the number of iterations. *)
Fixpoint bisect_loop (fuel : nat) (a : list Z) (x : Z) (lo hi : nat) : option nat :=
  if Nat.ltb lo hi then
    match fuel with
    | O => None
    | S fuel' =>
        let mid := ((lo + hi) / 2)%nat in
        a_mid ← a !! mid;
        if (a_mid <? x)%Z then bisect_loop fuel' a x (mid + 1) hi
        else bisect_loop fuel' a x lo mid
    end
  else Some lo.

Definition bisect_left (a : list Z) (x : Z) : option nat :=
  bisect_loop (length a) a x 0 (length a).

(** [a[idx]] for an array of indices: [IndexError] out of range. *)
Definition take_at (a : list Z) (idx : list nat) : option (list Z) :=
  mapM (fun i => a !! i) idx.

(** Lines 183-188: the body of the loop, on the pair
    [(match_indx_long, match_indx_short)]. *)
Definition match_step (ID_long ID_short : list Z) (sort_long sort_short : list nat)
    (st : list Z * list Z) (i : nat) : option (list Z * list Z) :=
  sorted_long ← take_at ID_long sort_long;
  s ← sort_short !! i;
  x ← ID_short !! s;
  i1 ← bisect_left sorted_long x;
  if Nat.ltb i1 (length ID_long) then
    l ← sort_long !! i1;
    y ← ID_long !! l;
    if (y =? x)%Z
    then Some (<[i1:=Z.of_nat l]> st.1, <[i:=Z.of_nat s]> st.2)
    else Some st
  else Some st.

Fixpoint match_loop (ID_long ID_short : list Z) (sort_long sort_short : list nat)
    (idx : list nat) (st : list Z * list Z) : option (list Z * list Z) :=
  match idx with
  | [] => Some st
  | i :: idx' =>
      st' ← match_step ID_long ID_short sort_long sort_short st i;
      match_loop ID_long ID_short sort_long sort_short idx' st'
  end.

(** [a[a >= 0]] *)
Definition keep_matched (a : list Z) : list Z := filter (fun x => (0 <= x)%Z) a.

Section MatchID.

(** [np.argsort]: which of the sorting permutations it returns depends on
    the sorting algorithm; the model is parametrised by it. *)
Variable argsort : list Z -> list nat.

(** [match_ID(ID_list_1, ID_list_2, sorted)] *)
Definition match_ID (ID_list_1 ID_list_2 : list Z) (sorted : bool)
  : option (list Z * list Z) :=
  let n1 := length ID_list_1 in
  let n2 := length ID_list_2 in
  let ID_long := if Nat.leb n2 n1 then ID_list_1 else ID_list_2 in
  let n_long := if Nat.leb n2 n1 then n1 else n2 in
  let ID_short := if Nat.leb n2 n1 then ID_list_2 else ID_list_1 in
  let n_short := if Nat.leb n2 n1 then n2 else n1 in
  let sort_long := if negb sorted then argsort ID_long else seq 0 n_long in
  let sort_short := if negb sorted then argsort ID_short else seq 0 n_short in
  let match_indx_long := replicate n_long (-1)%Z in
  let match_indx_short := replicate n_short (-1)%Z in
  st ← match_loop ID_long ID_short sort_long sort_short (seq 0 n_short)
         (match_indx_long, match_indx_short);
  if Nat.leb n2 n1
  then Some (keep_matched st.1, keep_matched st.2)
  else Some (keep_matched st.2, keep_matched st.1).

End MatchID.

(** [idx] lists every index of [a] once, in an order in which the entries
    of [a] do not decrease: what [np.argsort] returns, and what [range] is
    for an array that is sorted. *)
Definition sorting_indices (a : list Z) (idx : list nat) : Prop :=
  length idx = length a /\ NoDup idx /\
  exists sa, take_at a idx = Some sa /\ Sorted Z.le sa.

(** [idx] holds one index of [a] for every entry of [a], in any order and
    possibly with repetitions. *)
Definition valid_indices (a : list Z) (idx : list nat) : Prop :=
  length idx = length a /\ Forall (fun i => (i < length a)%nat) idx.

(** The entries of [a] selected by the indices [idx] are [xs]. *)
Definition selects (a : list Z) (idx : list Z) (xs : list Z) : Prop :=
  Forall2 (fun i x => (0 <= i)%Z /\ a !! Z.to_nat i = Some x) idx xs.

(** An entry of an index array of [match_ID]: no match, or an index of
    [a] whose ID is in [b]. *)
Definition matched_in (a b : list Z) (v : Z) : Prop :=
  v = (-1)%Z \/ exists k x, v = Z.of_nat k /\ a !! k = Some x /\ x ∈ b.

(** The index arrays after the first [m] passes of the loop, for index
    arrays [sort_long] and [sort_short] that select [sorted_long] and
    [sorted_short]. *)
Definition matched_after (sort_long sort_short : list nat)
    (sorted_long sorted_short : list Z) (m : nat) (st : list Z * list Z) : Prop :=
  length st.1 = length sorted_long /\ length st.2 = length sorted_short /\
  (forall k y l, sorted_long !! k = Some y -> sort_long !! k = Some l ->
     st.1 !! k = Some (if decide (y ∈ take m sorted_short) then Z.of_nat l else (-1)%Z)) /\
  (forall i x s, sorted_short !! i = Some x -> sort_short !! i = Some s ->
     st.2 !! i = Some (if decide ((i < m)%nat /\ x ∈ sorted_long)
                       then Z.of_nat s else (-1)%Z)).

(** ** Further vocabulary, examples and auxiliary definitions *)

(** The name an existing file is moved to. *)
Definition renamed (stamp file_name : string) : string :=
  ((splitext file_name).1 +:+ stamp +:+ (splitext file_name).2)%string.

(** The input with other observed errors. *)
Definition with_errors (errs : list Q) (d : ppc_input) : ppc_input := {|
  obs_flux := obs_flux d;
  obs_flux_err := errs;
  replic_data := replic_data d;
  n_replicated := n_replicated d;
  noiseless_flux := noiseless_flux d
|}.

(** The input [two_bands_one_masked] with its first two draws exchanged. *)
Definition two_bands_reordered : ppc_input := {|
  obs_flux := [10; 3]%Q;
  obs_flux_err := [1; 0]%Q;
  replic_data := [[(9 # 1000000000); (11 # 1000000000); (13 # 1000000000); (10 # 1000000000)];
                  [(4 # 1000000000); (3 # 1000000000); (2 # 1000000000); (5 # 1000000000)]]%Q;
  n_replicated := 4;
  noiseless_flux := [[11; 10; 10; 12]; [3; 3; 3; 3]]%Q
|}.

(** What [extract_band] writes at band [j]: the flux and its error. *)
Definition extract_entry (sqrt : Q -> Q) (f : filters) (row : gmap string Q)
    (aper_corr : Q) (j : nat) : option (Q * Q) :=
  name ← flux_colName f !! j;
  v ← row !! name;
  let flux_j := (v * aper_corr * units f / Jy)%Q in
  name ← flux_errcolName f !! j;
  e ← row !! name;
  let err_j := (e * aper_corr * units f / Jy)%Q in
  if Qgtb err_j 0 then
    m ← min_rel_err f !! j;
    Some (flux_j, (sqrt ((err_j / flux_j) ^ 2 + m ^ 2) * flux_j)%Q)
  else Some (flux_j, err_j).

(** A table of replicated data with one band and no draw. *)
Definition one_band_no_draw : ppc_input := {|
  obs_flux := [10]%Q;
  obs_flux_err := [1]%Q;
  replic_data := [[]];
  n_replicated := 0;
  noiseless_flux := [[]]
|}.

(** A filter set with a single band. *)
Definition single_filter : filters := {|
  filters_n_bands := 1;
  flux_colName := ["F1"]%string;
  flux_errcolName := ["E1"]%string;
  min_rel_err := [0]%Q;
  units := Jy;
  wl_eff := [1000]%Q
|}.

(** A stand-in for [np.argsort] in the examples: insertion sort on the
    indices. *)
Fixpoint insert_index (a : list Z) (i : nat) (idx : list nat) : list nat :=
  match idx with
  | [] => [i]
  | j :: idx' =>
      if (nth i a 0 <? nth j a 0)%Z then i :: j :: idx'
      else j :: insert_index a i idx'
  end.

Definition insertion_argsort (a : list Z) : list nat :=
  foldl (fun idx i => insert_index a i idx) [] (seq 0 (length a)).

(** The IDs of two catalogues: 20 and 30 are in both. *)
Definition catalogue_IDs_1 : list Z := [30; 10; 20; 40]%Z.
Definition catalogue_IDs_2 : list Z := [20; 50; 30]%Z.

(** * Properties *)

(** ** Reasoning about computations in [M] *)

Lemma bind_unfold {A B} (m : M A) (f : A -> M B) :
  (m ≫= f) = bind m f.
Proof. reflexivity. Qed.

Lemma bind_ret {A B} (a : A) (f : A -> M B) : (ret a ≫= f) = f a.
Proof.
  rewrite bind_unfold. unfold bind, ret. simpl. by destruct (f a).
Qed.

Lemma bind_MkM_Some {A B} (l : list Q) (a : A) (f : A -> M B) :
  (MkM l (Some a) ≫= f) = MkM (l ++ log (f a)) (result (f a)).
Proof. reflexivity. Qed.

Lemma result_bind {A B} (m : M A) (f : A -> M B) (a : A) :
  result m = Some a -> result (m ≫= f) = result (f a).
Proof. intros H. rewrite bind_unfold. unfold bind. by rewrite H. Qed.

Lemma log_bind {A B} (m : M A) (f : A -> M B) (a : A) :
  result m = Some a -> log (m ≫= f) = log m ++ log (f a).
Proof. intros H. rewrite bind_unfold. unfold bind. by rewrite H. Qed.

Lemma get_Some {A} (a : list A) (i : nat) (x : A) :
  a !! i = Some x -> get a i = ret x.
Proof. intros H. unfold get, ret. by rewrite H. Qed.

Lemma fraction_pos (count n : nat) :
  (0 < n)%nat ->
  fraction count n = ret (1 * inject_Z (Z.of_nat count) / inject_Z (Z.of_nat n))%Q.
Proof.
  intros H. unfold fraction. destruct (Nat.eqb_spec n 0); [lia | done].
Qed.

Lemma divide_by_err_same_length (num den : list Q) :
  length num = length den ->
  divide_by_err num den = MkM den (Some (zip_with Qdiv num den)).
Proof. intros H. unfold divide_by_err. by rewrite H, Nat.eqb_refl. Qed.

(** ** The markers (lines 467-469) *)

Lemma assign_at_replicate {A} (x : A) (loc : list nat) (n : nat) :
  assign_at (replicate n x) loc x = replicate n x.
Proof.
  unfold assign_at. induction loc as [|i loc IH]; simpl; [done|].
  by rewrite insert_replicate.
Qed.

(** C8.  Whatever the per-band p-values are, every band gets the circle
    marker: the bands selected by [p_value <= p_value_lim] are assigned the
    marker they already have, so the markers do not depend on the
    p-values. *)
Theorem markers_all_circles (n : nat) (p_values : list Q) :
  band_markers n p_values = replicate n "o"%string
  /\ forall p_values' : list Q, band_markers n p_values' = band_markers n p_values.
Proof.
  assert (H : forall ps, band_markers n ps = replicate n "o"%string).
  { intros ps. unfold band_markers. apply assign_at_replicate. }
  split; [apply H|]. intros ps'. by rewrite !H.
Qed.

(** ** The band loop (lines 455-465) *)

Lemma length_square (a : list Q) : length (square a) = length a.
Proof. unfold square. by rewrite length_map. Qed.

Lemma length_to_nano (a : list Q) : length (to_nano a) = length a.
Proof. unfold to_nano. by rewrite length_map. Qed.

Lemma band_discrepancies_eq (n : nat) (obs err : Q) (noiseless field : list Q) :
  length noiseless = n -> length field = n ->
  band_discrepancies n obs err noiseless field =
  MkM (square (replicate n err) ++ square (replicate n err))
      (Some (obs_discr_array n obs err noiseless,
             repl_discr_array n err noiseless field)).
Proof.
  intros Hm Hf. unfold band_discrepancies.
  rewrite !divide_by_err_same_length;
    rewrite ?length_square, ?length_zip_with, ?length_to_nano, ?length_replicate;
    try lia.
  rewrite !bind_MkM_Some. simpl. by rewrite app_nil_r.
Qed.

Lemma band_step_masked (d : ppc_input) st (i : nat) (err : Q) :
  obs_flux_err d !! i = Some err -> Qgtb err 0 = false ->
  band_step d st i = ret st.
Proof.
  intros He Hg. unfold band_step.
  rewrite (get_Some _ _ _ He), bind_ret. by rewrite Hg.
Qed.

Lemma band_step_observed (d : ppc_input) st (i : nat) (obs err : Q)
    (noiseless field : list Q) :
  obs_flux d !! i = Some obs -> obs_flux_err d !! i = Some err ->
  noiseless_flux d !! i = Some noiseless -> replic_data d !! i = Some field ->
  length noiseless = n_replicated d -> length field = n_replicated d ->
  (0 < n_replicated d)%nat ->
  Qgtb err 0 = true ->
  band_step d st i =
  MkM (square (replicate (n_replicated d) err) ++ square (replicate (n_replicated d) err))
      (Some (<[i:=band_p_value (n_replicated d) obs err noiseless field]> st.1,
             <[i:=to_nano field]> st.2)).
Proof.
  intros Ho He Hm Hf Hlm Hlf Hn Hg. unfold band_step.
  rewrite (get_Some _ _ _ He), bind_ret, Hg.
  rewrite (get_Some _ _ _ Ho), bind_ret.
  rewrite (get_Some _ _ _ Hm), bind_ret.
  rewrite (get_Some _ _ _ Hf), bind_ret.
  rewrite band_discrepancies_eq by done.
  rewrite bind_MkM_Some. simpl.
  rewrite fraction_pos by done.
  rewrite bind_ret. simpl. by rewrite app_nil_r.
Qed.

Lemma wf_lookups (d : ppc_input) (i : nat) :
  wf_input d -> (i < n_bands d)%nat ->
  exists obs err noiseless field,
    obs_flux d !! i = Some obs /\ obs_flux_err d !! i = Some err /\
    noiseless_flux d !! i = Some noiseless /\ replic_data d !! i = Some field /\
    length noiseless = n_replicated d /\ length field = n_replicated d.
Proof.
  intros [Ho He Hm Hmr Hfr Hn] Hi.
  destruct (lookup_lt_is_Some_2 (obs_flux d) i) as [obs Hobs]; [lia|].
  destruct (lookup_lt_is_Some_2 (obs_flux_err d) i) as [err Herr]; [lia|].
  destruct (lookup_lt_is_Some_2 (noiseless_flux d) i) as [m Hm']; [lia|].
  destruct (lookup_lt_is_Some_2 (replic_data d) i) as [f Hf]; [done|].
  exists obs, err, m, f. repeat split; try done.
  - by apply (Forall_lookup_1 _ _ _ _ Hmr Hm').
  - by apply (Forall_lookup_1 _ _ _ _ Hfr Hf).
Qed.

Lemma band_step_result (d : ppc_input) st (i : nat) :
  wf_input d -> (i < n_bands d)%nat ->
  result (band_step d st i) = Some (band_update d st i).
Proof.
  intros Hwf Hi.
  destruct (wf_lookups d i Hwf Hi) as (obs & err & m & f & Ho & He & Hm & Hf & Hlm & Hlf).
  unfold band_update, band_entry. rewrite Ho, He, Hm, Hf.
  destruct (Qgtb err 0) eqn:Hg.
  - erewrite band_step_observed; eauto. apply Hwf.
  - by erewrite band_step_masked.
Qed.

Lemma for_each_band_step (d : ppc_input) (idx : list nat) st :
  wf_input d -> Forall (fun i => i < n_bands d)%nat idx ->
  result (for_each (band_step d) idx st) = Some (foldl (band_update d) st idx).
Proof.
  intros Hwf Hidx. revert st.
  induction Hidx as [|i idx Hi _ IH]; intros st; simpl; [done|].
  rewrite (result_bind _ _ _ (band_step_result d st i Hwf Hi)). apply IH.
Qed.

Lemma band_update_length (d : ppc_input) st (i : nat) :
  length (band_update d st i).1 = length st.1 /\
  length (band_update d st i).2 = length st.2.
Proof.
  unfold band_update. destruct (band_entry d i) as [[p row]|]; simpl;
    by rewrite ?length_insert.
Qed.

Lemma foldl_band_update_lookup (d : ppc_input) (idx : list nat) st (j : nat) :
  NoDup idx -> (j < length st.1)%nat -> (j < length st.2)%nat ->
  match (if decide (j ∈ idx) then band_entry d j else None) with
  | Some (p, row) =>
      (foldl (band_update d) st idx).1 !! j = Some p /\
      (foldl (band_update d) st idx).2 !! j = Some row
  | None =>
      (foldl (band_update d) st idx).1 !! j = st.1 !! j /\
      (foldl (band_update d) st idx).2 !! j = st.2 !! j
  end.
Proof.
  intros Hnd. revert st.
  induction Hnd as [|i idx Hni Hnd IH]; intros st H1 H2; cbn [foldl].
  { rewrite decide_False by apply not_elem_of_nil. done. }
  destruct (band_update_length d st i) as [L1 L2].
  specialize (IH (band_update d st i)).
  rewrite L1, L2 in IH. specialize (IH H1 H2).
  destruct (decide (j ∈ idx)) as [Hin|Hnin].
  - rewrite decide_True by (by apply list_elem_of_further).
    destruct (band_entry d j) as [[p row]|]; [done|].
    assert (i <> j) by (intros Heq; subst; done).
    destruct IH as [-> ->]. unfold band_update.
    destruct (band_entry d i) as [[p row]|]; simpl; [|done].
    by rewrite !list_lookup_insert_ne.
  - destruct IH as [-> ->]. destruct (decide (i = j)) as [->|Hne].
    + rewrite decide_True by apply list_elem_of_here. unfold band_update.
      destruct (band_entry d j) as [[p row]|]; simpl; [|done].
      by rewrite !list_lookup_insert_eq.
    + rewrite decide_False by (intros [?|?]%elem_of_cons; done). unfold band_update.
      destruct (band_entry d i) as [[p row]|]; simpl; [|done].
      by rewrite !list_lookup_insert_ne.
Qed.

(** The band loop returns, and band [j] of its result holds what the body
    wrote there, or the initial zeros when the band is masked. *)
Lemma band_loop_result (d : ppc_input) :
  wf_input d ->
  exists st, result (band_loop d) = Some st /\
    length st.1 = n_bands d /\ length st.2 = n_bands d /\
    forall j, (j < n_bands d)%nat ->
      match band_entry d j with
      | Some (p, row) => st.1 !! j = Some p /\ st.2 !! j = Some row
      | None => st.1 !! j = Some 0%Q /\
                st.2 !! j = Some (replicate (n_replicated d) 0%Q)
      end.
Proof.
  intros Hwf. unfold band_loop.
  set (st0 := (replicate (n_bands d) 0%Q,
               replicate (n_bands d) (replicate (n_replicated d) 0%Q))).
  exists (foldl (band_update d) st0 (seq 0 (n_bands d))).
  split; [|split; [|split]].
  - apply for_each_band_step; [done|].
    apply Forall_forall. intros i Hi. apply elem_of_seq in Hi. lia.
  - clear Hwf. generalize (seq 0 (n_bands d)) as idx.
    assert (H0 : length st0.1 = n_bands d) by (simpl; by rewrite length_replicate).
    revert H0. generalize st0. intros st H idx. revert st H.
    induction idx as [|i idx IH]; intros st H; simpl; [done|].
    apply IH. by rewrite (proj1 (band_update_length d st i)).
  - clear Hwf. generalize (seq 0 (n_bands d)) as idx.
    assert (H0 : length st0.2 = n_bands d) by (simpl; by rewrite length_replicate).
    revert H0. generalize st0. intros st H idx. revert st H.
    induction idx as [|i idx IH]; intros st H; simpl; [done|].
    apply IH. by rewrite (proj2 (band_update_length d st i)).
  - intros j Hj.
    pose proof (foldl_band_update_lookup d (seq 0 (n_bands d)) st0 j) as HL.
    unfold st0 in HL at 1 2. cbn [fst snd] in HL. rewrite !length_replicate in HL.
    specialize (HL (NoDup_seq _ _) Hj Hj).
    rewrite decide_True in HL by (apply elem_of_seq; lia).
    destruct (band_entry d j) as [[p row]|]; [done|].
    destruct HL as [-> ->]. unfold st0. cbn [fst snd].
    by rewrite !lookup_replicate_2.
Qed.

Lemma p_value_bands_result (d : ppc_input) :
  wf_input d ->
  exists ps, result (p_value_bands d) = Some ps /\
    length ps = n_bands d /\
    forall j, (j < n_bands d)%nat ->
      ps !! j = Some (match band_entry d j with Some (p, _) => p | None => 0%Q end).
Proof.
  intros Hwf. destruct (band_loop_result d Hwf) as (st & Hst & L1 & _ & Hj).
  exists st.1. split; [|split; [done|]].
  - unfold p_value_bands. by rewrite (result_bind _ _ _ Hst).
  - intros j Hlt. specialize (Hj j Hlt).
    destruct (band_entry d j) as [[p row]|]; by destruct Hj.
Qed.

Lemma Qgtb_true (x y : Q) : Qgtb x y = true <-> (y < x)%Q.
Proof.
  unfold Qgtb. rewrite negb_true_iff. split.
  - intros H. apply Qnot_le_lt. intros Hle. apply Qle_bool_iff in Hle. congruence.
  - intros H. destruct (Qle_bool x y) eqn:E; [|done].
    apply Qle_bool_iff in E. exfalso. by apply (Qlt_not_le _ _ H).
Qed.

Lemma Qgtb_false (x y : Q) : Qgtb x y = false <-> (x <= y)%Q.
Proof.
  unfold Qgtb. rewrite negb_false_iff. apply Qle_bool_iff.
Qed.

Lemma count_nonzero_cons (b : bool) (bs : list bool) :
  count_nonzero (b :: bs) = ((if b then 1 else 0) + count_nonzero bs)%nat.
Proof. unfold count_nonzero. simpl. by destruct b. Qed.

(** The boolean count of the source is the count of the draws whose
    replicated discrepancy strictly exceeds the observed one. *)
Lemma count_exceeding (n : nat) (obs err : Q) (noiseless field : list Q) :
  length noiseless = n -> length field = n ->
  count_nonzero (zip_with Qgtb (repl_discr_array n err noiseless field)
                               (obs_discr_array n obs err noiseless))
  = n_exceeding obs err (to_nano field) noiseless.
Proof.
  revert noiseless field.
  induction n as [|n IH]; intros [|m ms] [|r rs] Hm Hf; simplify_eq/=; try done.
  unfold repl_discr_array, obs_discr_array in *. cbn [replicate to_nano square map zip_with].
  rewrite count_nonzero_cons. f_equal.
  - unfold obs_discrepancy, repl_discrepancy.
    destruct (Qlt_le_dec _ _) as [Hlt|Hle].
    + apply Qgtb_true in Hlt. simpl in Hlt. by rewrite Hlt.
    + apply Qgtb_false in Hle. simpl in Hle. by rewrite Hle.
  - by apply IH.
Qed.

Lemma n_exceeding_ties (obs err : Q) (replicated noiseless : list Q) :
  (forall k r m, replicated !! k = Some r -> noiseless !! k = Some m ->
     repl_discrepancy r err m == obs_discrepancy obs err m) ->
  n_exceeding obs err replicated noiseless = 0%nat.
Proof.
  revert noiseless. induction replicated as [|r rs IH]; intros [|m ms] H; try done.
  cbn [n_exceeding]. rewrite IH.
  - destruct (Qlt_le_dec _ _) as [Hlt|Hle]; [|done].
    specialize (H 0%nat r m eq_refl eq_refl). rewrite H in Hlt.
    by apply Qlt_irrefl in Hlt.
  - intros k r' m' Hr Hm'. by apply (H (S k)).
Qed.

(** C1.  For a band with a positive observed error the p-value stored by
    the band loop is the fraction of the replicated draws whose
    discrepancy [(replicated - noiseless)^2 / err^2] strictly exceeds the
    observed discrepancy [(obs - noiseless)^2 / err^2]; when the two
    discrepancies are equal for every draw the p-value is 0. *)
Theorem band_p_value_is_fraction_of_exceeding_draws (d : ppc_input) (b : nat)
    (obs err : Q) (noiseless field : list Q) :
  wf_input d ->
  obs_flux d !! b = Some obs -> obs_flux_err d !! b = Some err ->
  noiseless_flux d !! b = Some noiseless -> replic_data d !! b = Some field ->
  (0 < err)%Q ->
  exists ps p,
    result (p_value_bands d) = Some ps /\ ps !! b = Some p /\
    p == inject_Z (Z.of_nat (n_exceeding obs err (to_nano field) noiseless))
         / inject_Z (Z.of_nat (n_replicated d)) /\
    ((forall k r m, to_nano field !! k = Some r -> noiseless !! k = Some m ->
        repl_discrepancy r err m == obs_discrepancy obs err m) ->
     p == 0).
Proof.
  intros Hwf Ho He Hm Hf Hpos.
  destruct (p_value_bands_result d Hwf) as (ps & Hps & _ & Hj).
  assert (Hb : (b < n_bands d)%nat) by (apply lookup_lt_Some in Hf; done).
  specialize (Hj b Hb). unfold band_entry in Hj. rewrite Ho, He, Hm, Hf in Hj.
  apply Qgtb_true in Hpos. rewrite Hpos in Hj.
  eexists ps, _. split; [done|]. split; [done|].
  assert (Hlm : length noiseless = n_replicated d).
  { by apply (Forall_lookup_1 _ _ _ _ (wf_noiseless_rows d Hwf) Hm). }
  assert (Hlf : length field = n_replicated d).
  { by apply (Forall_lookup_1 _ _ _ _ (wf_replic_rows d Hwf) Hf). }
  unfold band_p_value. rewrite count_exceeding by done. split.
  - by rewrite Qmult_1_l.
  - intros Hties. rewrite (n_exceeding_ties _ _ _ _ Hties). simpl.
    unfold Qdiv. by rewrite Qmult_0_l.
Qed.

Lemma elem_of_where_le_from (k : nat) (lim : Q) (a : list Q) (i : nat) :
  i ∈ where_le_from k lim a <->
  exists j x, i = (k + j)%nat /\ a !! j = Some x /\ Qle_bool x lim = true.
Proof.
  revert k. induction a as [|y a IH]; intros k; cbn [where_le_from].
  - split; [by intros ?%elem_of_nil | by intros (j & x & _ & ? & _)].
  - destruct (Qle_bool y lim) eqn:E.
    + rewrite elem_of_cons, IH. split.
      * intros [->|(j & x & -> & Hj & Hx)].
        -- exists 0%nat, y. split; [lia|done].
        -- exists (S j), x. split; [lia|done].
      * intros ([|j] & x & -> & Hj & Hx).
        -- left. lia.
        -- right. exists j, x. split; [lia|done].
    + rewrite IH. split.
      * intros (j & x & -> & Hj & Hx). exists (S j), x. split; [lia|done].
      * intros ([|j] & x & -> & Hj & Hx).
        -- simplify_eq/=. congruence.
        -- exists j, x. split; [lia|done].
Qed.

Lemma elem_of_where_le (lim : Q) (a : list Q) (i : nat) :
  i ∈ where_le lim a <-> exists x, a !! i = Some x /\ Qle_bool x lim = true.
Proof.
  unfold where_le. rewrite elem_of_where_le_from. split.
  - intros (j & x & -> & H). by exists x.
  - intros (x & H). by exists i, x.
Qed.

(** C10.  A band whose observed error is 0 keeps the initial p-value 0,
    and is therefore among the bands selected by [p_value <= p_value_lim]. *)
Theorem masked_band_p_value_zero_and_selected (d : ppc_input) (b : nat) (err : Q) :
  wf_input d -> obs_flux_err d !! b = Some err -> err == 0 ->
  exists ps, result (p_value_bands d) = Some ps /\
    ps !! b = Some 0%Q /\ b ∈ where_le p_value_lim ps.
Proof.
  intros Hwf He H0.
  destruct (p_value_bands_result d Hwf) as (ps & Hps & _ & Hj).
  assert (Hb : (b < n_bands d)%nat).
  { apply lookup_lt_Some in He. by rewrite (wf_err d Hwf) in He. }
  specialize (Hj b Hb).
  assert (Hnone : band_entry d b = None).
  { unfold band_entry. rewrite He.
    assert (Hg : Qgtb err 0 = false) by (apply Qgtb_false; by rewrite H0).
    rewrite Hg. by repeat case_match. }
  rewrite Hnone in Hj. exists ps. split; [done|]. split; [done|].
  apply elem_of_where_le. by exists 0%Q.
Qed.

(** ** The joint discrepancies (lines 472-479) *)

Lemma take_rows_where_positive_from {A} (errs : list Q) (pre a : list A) :
  length a = length errs ->
  take_rows (pre ++ a) (where_positive_from (length pre) errs)
  = ret (observed_rows errs a).
Proof.
  revert pre a. induction errs as [|e errs IH]; intros pre [|x a] Hl;
    simplify_eq/=; try done.
  assert (Hnext : take_rows (pre ++ x :: a) (where_positive_from (S (length pre)) errs)
                  = ret (observed_rows errs a)).
  { specialize (IH (pre ++ [x]) a Hl).
    rewrite <- app_assoc, length_app in IH. simpl in IH.
    by rewrite Nat.add_1_r in IH. }
  destruct (Qgtb e 0).
  - cbn [take_rows]. rewrite (get_Some _ _ x).
    + rewrite bind_ret, Hnext. by rewrite bind_ret.
    + by rewrite lookup_app_r, Nat.sub_diag by lia.
  - done.
Qed.

Lemma take_rows_where_positive {A} (errs : list Q) (a : list A) :
  length a = length errs ->
  take_rows a (where_positive errs) = ret (observed_rows errs a).
Proof. intros H. by apply (take_rows_where_positive_from errs [] a). Qed.

Lemma reshape_repeat_eq (nb n : nat) (a : list Q) :
  length a = nb -> reshape_repeat nb n a = ret (map (replicate n) a).
Proof. intros H. unfold reshape_repeat. by rewrite H, Nat.eqb_refl. Qed.

Lemma divide_by_err2_eq (num den : list (list Q)) :
  Forall2 (fun a b => length a = length b) num den ->
  divide_by_err2 num den = MkM (concat den) (Some (zip_with (zip_with Qdiv) num den)).
Proof.
  induction 1 as [|a b num den Hab _ IH]; [done|].
  cbn [divide_by_err2]. rewrite divide_by_err_same_length by done.
  rewrite bind_MkM_Some, IH. simpl. by rewrite app_nil_r.
Qed.

Lemma observed_rows_Forall {A} (P : A -> Prop) (errs : list Q) (a : list A) :
  Forall P a -> Forall P (observed_rows errs a).
Proof.
  intros H. revert errs. induction H as [|x a Hx _ IH]; intros [|e errs]; simpl;
    try done.
  destruct (Qgtb e 0); [constructor|]; auto.
Qed.

Lemma observed_rows_length {A B} (errs : list Q) (a : list A) (b : list B) :
  length a = length errs -> length b = length errs ->
  length (observed_rows errs a) = length (observed_rows errs b).
Proof.
  revert a b. induction errs as [|e errs IH]; intros [|x a] [|y b] Ha Hb;
    simplify_eq/=; try done.
  destruct (Qgtb e 0); simpl; auto.
Qed.

Lemma observed_rows_ext {A} (errs : list Q) (a a' : list A) :
  length a = length errs -> length a' = length errs ->
  (forall i e, errs !! i = Some e -> Qgtb e 0 = true -> a !! i = a' !! i) ->
  observed_rows errs a = observed_rows errs a'.
Proof.
  revert a a'. induction errs as [|e errs IH]; intros [|x a] [|y b] Ha Hb H;
    simplify_eq/=; try done.
  rewrite (IH a b) by (try done; intros i e'; apply (H (S i) e')).
  destruct (Qgtb e 0) eqn:E; [|done].
  specialize (H 0%nat e eq_refl E). by simplify_eq/=.
Qed.

Lemma Forall2_same_shape (n : nat) (a b : list (list Q)) :
  rows_of n a -> rows_of n b -> length a = length b ->
  Forall2 (fun r s => length r = length s) a b.
Proof.
  intros Ha. revert b. induction Ha as [|r a Hr _ IH]; intros [|s b] Hb Hl;
    simplify_eq/=; [constructor|].
  inversion Hb; subst. constructor; [congruence|auto].
Qed.

Lemma rows_of_square (n : nat) (a : list (list Q)) :
  rows_of n a -> rows_of n (map square a).
Proof.
  unfold rows_of. rewrite Forall_map, !Forall_forall.
  intros H r Hr. simpl. rewrite length_square. by apply H.
Qed.

Lemma rows_of_sub (n : nat) (a b : list (list Q)) :
  rows_of n a -> rows_of n b -> rows_of n (zip_with (zip_with Qminus) a b).
Proof.
  intros Ha. revert b. induction Ha as [|r a Hr _ IH]; intros [|s b] Hb; simpl;
    try constructor.
  - inversion Hb; subst. rewrite length_zip_with. lia.
  - inversion Hb; subst. by apply IH.
Qed.

Lemma rows_of_replicate (n : nat) (a : list Q) : rows_of n (map (replicate n) a).
Proof.
  unfold rows_of. rewrite Forall_map. apply Forall_forall. intros x _.
  by rewrite length_replicate.
Qed.

Lemma joint_discrepancies_eq (d : ppc_input) (replic_fluxes : list (list Q)) :
  wf_input d ->
  length replic_fluxes = n_bands d -> rows_of (n_replicated d) replic_fluxes ->
  let den := concat (map square (observed_rows (obs_flux_err d)
                 (map (replicate (n_replicated d)) (obs_flux_err d)))) in
  joint_discrepancies d replic_fluxes =
  MkM (den ++ den)
    (Some (sum_axis0 (n_replicated d)
          (joint_terms (obs_flux_err d) (n_replicated d)
             (map (replicate (n_replicated d)) (obs_flux d)) (noiseless_flux d)),
        sum_axis0 (n_replicated d)
          (joint_terms (obs_flux_err d) (n_replicated d)
             replic_fluxes (noiseless_flux d)))).
Proof.
  intros Hwf Hl Hrows den. unfold joint_discrepancies, joint_terms.
  pose proof (wf_obs d Hwf) as Ho. pose proof (wf_err d Hwf) as He.
  pose proof (wf_noiseless d Hwf) as Hm.
  pose proof (wf_noiseless_rows d Hwf) as Hmr.
  set (n := n_replicated d) in *. set (errs := obs_flux_err d) in *.
  rewrite !reshape_repeat_eq, !bind_ret by done.
  rewrite !take_rows_where_positive, !bind_ret
    by (rewrite ?length_map; congruence).
  assert (HE : rows_of n (map square (observed_rows errs (map (replicate n) errs)))).
  { apply rows_of_square, observed_rows_Forall, rows_of_replicate. }
  rewrite divide_by_err2_eq.
  2:{ apply (Forall2_same_shape n); [|done|].
      - apply rows_of_square, rows_of_sub; apply observed_rows_Forall;
          [apply rows_of_replicate | done].
      - rewrite !length_map, length_zip_with.
        rewrite (observed_rows_length errs (map (replicate n) (obs_flux d)) (noiseless_flux d))
          by (rewrite ?length_map; congruence).
        rewrite (observed_rows_length errs (noiseless_flux d) (map (replicate n) errs))
          by (rewrite ?length_map; congruence).
        lia. }
  rewrite bind_MkM_Some. rewrite bind_ret.
  rewrite divide_by_err2_eq.
  2:{ apply (Forall2_same_shape n); [|done|].
      - apply rows_of_square, rows_of_sub; by apply observed_rows_Forall.
      - rewrite !length_map, length_zip_with.
        rewrite (observed_rows_length errs replic_fluxes (noiseless_flux d))
          by congruence.
        rewrite (observed_rows_length errs (noiseless_flux d) (map (replicate n) errs))
          by (rewrite ?length_map; congruence).
        lia. }
  rewrite bind_MkM_Some. cbn [log result ret]. by rewrite !app_nil_r.
Qed.

Lemma joint_discrepancies_result (d : ppc_input) (replic_fluxes : list (list Q)) :
  wf_input d ->
  length replic_fluxes = n_bands d -> rows_of (n_replicated d) replic_fluxes ->
  result (joint_discrepancies d replic_fluxes) =
  Some (sum_axis0 (n_replicated d)
          (joint_terms (obs_flux_err d) (n_replicated d)
             (map (replicate (n_replicated d)) (obs_flux d)) (noiseless_flux d)),
        sum_axis0 (n_replicated d)
          (joint_terms (obs_flux_err d) (n_replicated d)
             replic_fluxes (noiseless_flux d))).
Proof. intros Hwf Hl Hr. by rewrite joint_discrepancies_eq. Qed.

Lemma map_lookup {A B} (f : A -> B) (l : list A) (i : nat) :
  map f l !! i = f <$> (l !! i).
Proof. apply (list_lookup_fmap f l i). Qed.

Lemma observed_rows_app {A} (errs1 errs2 : list Q) (a1 a2 : list A) :
  length a1 = length errs1 ->
  observed_rows (errs1 ++ errs2) (a1 ++ a2)
  = observed_rows errs1 a1 ++ observed_rows errs2 a2.
Proof.
  revert a1. induction errs1 as [|e errs1 IH]; intros [|x a1] Hl;
    simplify_eq/=; try done.
  rewrite IH by done. by destruct (Qgtb e 0).
Qed.

Lemma observed_rows_insert_at {A} (pos : nat) (e : Q) (x : A)
    (errs : list Q) (a : list A) :
  Qgtb e 0 = false -> length a = length errs ->
  observed_rows (insert_at pos e errs) (insert_at pos x a) = observed_rows errs a.
Proof.
  intros He Hl. unfold insert_at.
  rewrite observed_rows_app by (rewrite !length_take; lia).
  cbn [observed_rows]. rewrite He.
  rewrite <- observed_rows_app by (rewrite !length_take; lia).
  by rewrite !take_drop.
Qed.

Lemma length_insert_at {A} (pos : nat) (x : A) (a : list A) :
  length (insert_at pos x a) = S (length a).
Proof.
  unfold insert_at. rewrite length_app. simpl.
  rewrite length_take, length_drop. lia.
Qed.

Lemma Forall_insert_at {A} (P : A -> Prop) (pos : nat) (x : A) (a : list A) :
  P x -> Forall P a -> Forall P (insert_at pos x a).
Proof.
  intros Hx Ha. unfold insert_at. apply Forall_app. split.
  - by apply Forall_take.
  - constructor; [done|]. by apply Forall_drop.
Qed.

Lemma map_insert_at {A B} (f : A -> B) (pos : nat) (x : A) (a : list A) :
  map f (insert_at pos x a) = insert_at pos (f x) (map f a).
Proof.
  unfold insert_at. rewrite map_app. simpl.
  by rewrite firstn_map, skipn_map.
Qed.

Lemma wf_add_band (pos : nat) (obs err : Q) (noiseless field : list Q)
    (d : ppc_input) :
  wf_input d ->
  length noiseless = n_replicated d -> length field = n_replicated d ->
  wf_input (add_band pos obs err noiseless field d).
Proof.
  intros [Ho He Hm Hmr Hfr Hn] Hlm Hlf.
  split; unfold n_bands; simpl; rewrite ?length_insert_at; try (unfold n_bands in *; congruence).
  - by apply Forall_insert_at.
  - by apply Forall_insert_at.
Qed.

(** After the band loop, [replic_fluxes] holds the replicated fluxes of
    every observed band. *)
Lemma band_loop_replic_fluxes (d : ppc_input) st :
  wf_input d -> result (band_loop d) = Some st ->
  length st.2 = n_bands d /\ rows_of (n_replicated d) st.2 /\
  observed_rows (obs_flux_err d) st.2
  = observed_rows (obs_flux_err d) (map to_nano (replic_data d)).
Proof.
  intros Hwf Hst.
  destruct (band_loop_result d Hwf) as (st' & Hst' & _ & L2 & Hj).
  rewrite Hst in Hst'. injection Hst' as <-.
  split; [done|]. split.
  - apply Forall_lookup. intros j row Hrow.
    assert (Hlt : (j < n_bands d)%nat) by (apply lookup_lt_Some in Hrow; lia).
    specialize (Hj j Hlt).
    destruct (wf_lookups d j Hwf Hlt) as (o & e & m & f & Ho & He & Hm & Hf & Hlm & Hlf).
    unfold band_entry in Hj. rewrite Ho, He, Hm, Hf in Hj.
    destruct (Qgtb e 0); destruct Hj as [_ Hj]; rewrite Hj in Hrow;
      injection Hrow as <-.
    + by rewrite length_to_nano.
    + by rewrite length_replicate.
  - apply observed_rows_ext.
    + rewrite L2. symmetry. apply Hwf.
    + rewrite length_map. symmetry. apply Hwf.
    + intros j e He Hg.
      assert (Hlt : (j < n_bands d)%nat).
      { apply lookup_lt_Some in He. by rewrite (wf_err d Hwf) in He. }
      specialize (Hj j Hlt).
      destruct (wf_lookups d j Hwf Hlt) as (o & e' & m & f & Ho & He' & Hm & Hf & Hlm & Hlf).
      unfold band_entry in Hj. rewrite Ho, He', Hm, Hf in Hj.
      assert (e' = e) by congruence. subst e'. rewrite Hg in Hj.
      destruct Hj as [_ ->]. by rewrite map_lookup, Hf.
Qed.

Lemma mean_residual_eq (d : ppc_input) :
  wf_input d ->
  mean_residual d = MkM (obs_flux_err d) (Some (mean_residual_of d)).
Proof.
  intros Hwf. unfold mean_residual, mean_residual_of.
  rewrite divide_by_err_same_length; [done|].
  rewrite length_zip_with, length_map.
  pose proof (wf_obs d Hwf). pose proof (wf_err d Hwf). unfold n_bands in *. lia.
Qed.

Lemma residual_fluxes_eq (d : ppc_input) :
  wf_input d ->
  residual_fluxes d =
  MkM (concat (map (replicate (n_replicated d)) (obs_flux_err d)))
      (Some (residuals_of d)).
Proof.
  intros Hwf. unfold residual_fluxes, residuals_of.
  rewrite !reshape_repeat_eq, !bind_ret by apply Hwf.
  rewrite divide_by_err2_eq; [done|].
  apply (Forall2_same_shape (n_replicated d)).
  - apply rows_of_sub; [|apply rows_of_replicate].
    unfold rows_of. rewrite Forall_map.
    generalize (wf_replic_rows d Hwf). apply List.Forall_impl.
    intros r Hr. simpl. by rewrite length_to_nano.
  - apply rows_of_replicate.
  - rewrite length_zip_with, !length_map.
    pose proof (wf_obs d Hwf). pose proof (wf_err d Hwf). unfold n_bands in *. lia.
Qed.

(** On a well-formed input the posterior-predictive checks return, with
    these statistics. *)
Lemma posterior_predictive_checks_result (d : ppc_input) :
  wf_input d ->
  exists st,
    result (band_loop d) = Some st /\
    result (posterior_predictive_checks d) =
    Some {| stat_p_value_bands := st.1;
            stat_markers := band_markers (n_bands d) st.1;
            stat_obs_discr := (joint_discr_of d).1;
            stat_repl_discr := (joint_discr_of d).2;
            stat_p_value := joint_p_of d;
            stat_mean_residual := mean_residual_of d;
            stat_residual_covar := np_cov (residuals_of d) |}.
Proof.
  intros Hwf. destruct (band_loop_result d Hwf) as (st & Hst & _).
  destruct (band_loop_replic_fluxes d st Hwf Hst) as (L2 & Hrows & Hobs).
  exists st. split; [done|].
  assert (HJ : result (joint_discrepancies d st.2) = Some (joint_discr_of d)).
  { rewrite (joint_discrepancies_result d st.2 Hwf L2 Hrows).
    unfold joint_discr_of, joint_terms. by rewrite Hobs. }
  unfold posterior_predictive_checks.
  rewrite (result_bind _ _ _ Hst), (result_bind _ _ _ HJ).
  unfold joint_p_value. rewrite fraction_pos by apply Hwf. rewrite bind_ret.
  rewrite mean_residual_eq, residual_fluxes_eq by done.
  by rewrite !bind_MkM_Some.
Qed.

Lemma joint_discr_of_add_masked_band (pos : nat) (obs err : Q)
    (noiseless field : list Q) (d : ppc_input) :
  wf_input d -> err == 0 ->
  joint_discr_of (add_band pos obs err noiseless field d) = joint_discr_of d.
Proof.
  intros Hwf H0.
  assert (Hg : Qgtb err 0 = false) by (apply Qgtb_false; by rewrite H0).
  unfold joint_discr_of, joint_terms.
  cbn [add_band obs_flux obs_flux_err replic_data n_replicated noiseless_flux].
  rewrite !map_insert_at.
  pose proof (wf_obs d Hwf). pose proof (wf_err d Hwf).
  pose proof (wf_noiseless d Hwf). unfold n_bands in *.
  rewrite !observed_rows_insert_at; rewrite ?length_map; try done; congruence.
Qed.

Lemma bands_projections (obs errs : list Q) (ms rs : list (list Q)) :
  length obs = length errs -> length ms = length errs -> length rs = length errs ->
  let bs := zip_with (fun oe mr => {| band_obs := oe.1; band_err := oe.2;
                                      band_noiseless := mr.1; band_replicated := mr.2 |})
              (zip obs errs) (zip ms rs) in
  map band_obs bs = obs /\ map band_err bs = errs /\
  map band_noiseless bs = ms /\ map band_replicated bs = rs.
Proof.
  revert obs ms rs. induction errs as [|e errs IH]; intros [|o obs] [|m ms] [|r rs] Ho Hm Hr;
    simplify_eq/=; try done.
  destruct (IH obs ms rs) as (-> & -> & -> & ->); done.
Qed.

Lemma wf_bands (d : ppc_input) :
  wf_input d ->
  map band_obs (bands d) = obs_flux d /\
  map band_err (bands d) = obs_flux_err d /\
  map band_noiseless (bands d) = noiseless_flux d /\
  map band_replicated (bands d) = map to_nano (replic_data d) /\
  Forall (fun b => length (band_noiseless b) = n_replicated d /\
                   length (band_replicated b) = n_replicated d) (bands d).
Proof.
  intros Hwf.
  pose proof (wf_obs d Hwf). pose proof (wf_err d Hwf).
  pose proof (wf_noiseless d Hwf). unfold n_bands in *.
  destruct (bands_projections (obs_flux d) (obs_flux_err d) (noiseless_flux d)
              (map to_nano (replic_data d))) as (Ho & He & Hm & Hr);
    rewrite ?length_map; try congruence.
  fold (bands d) in Ho, He, Hm, Hr. repeat split; try done.
  pose proof (wf_noiseless_rows d Hwf) as Hmr.
  pose proof (wf_replic_rows d Hwf) as Hfr.
  rewrite <- Hm in Hmr. apply Forall_map in Hmr.
  assert (Hfr' : Forall (fun r => length r = n_replicated d) (map to_nano (replic_data d))).
  { apply Forall_map. revert Hfr. apply List.Forall_impl.
    intros r Hr'. simpl. by rewrite length_to_nano. }
  rewrite <- Hr in Hfr'. apply Forall_map in Hfr'.
  apply Forall_and. by split.
Qed.

Lemma zip_with_Qplus_lookup (acc row : list Q) (k : nat) (x y : Q) :
  acc !! k = Some x -> row !! k = Some y ->
  zip_with Qplus acc row !! k = Some (x + y)%Q.
Proof. intros Hx Hy. rewrite lookup_zip_with, Hx. simpl. by rewrite Hy. Qed.

Lemma discr_lookup (row noiseless : list Q) (n k : nat) (err : Q) :
  length row = n -> length noiseless = n -> (k < n)%nat ->
  zip_with Qdiv (square (zip_with Qminus row noiseless)) (square (replicate n err)) !! k
  = Some ((nth k row 0 - nth k noiseless 0) ^ 2 / err ^ 2)%Q.
Proof.
  intros Hr Hm Hk.
  destruct (lookup_lt_is_Some_2 row k) as [x Hx]; [lia|].
  destruct (lookup_lt_is_Some_2 noiseless k) as [m Hm']; [lia|].
  rewrite (nth_lookup_Some _ _ _ _ Hx), (nth_lookup_Some _ _ _ _ Hm').
  unfold square. rewrite lookup_zip_with, !map_lookup, lookup_zip_with, Hx. simpl.
  rewrite Hm'. simpl. by rewrite lookup_replicate_2.
Qed.

(** Column [k] of the sum of the terms is the sum, over the bands with
    a positive error, of the discrepancy of draw [k]. *)
Lemma fold_joint_terms (n k : nat) (rowof : band -> list Q) (bs : list band)
    (acc : list Q) (acc_k : Q) :
  Forall (fun b => length (band_noiseless b) = n /\ length (rowof b) = n) bs ->
  (k < n)%nat -> length acc = n -> acc !! k = Some acc_k ->
  foldl (zip_with Qplus) acc
    (joint_terms (map band_err bs) n (map rowof bs) (map band_noiseless bs)) !! k
  = Some (foldl Qplus acc_k
       (map (fun b => ((nth k (rowof b) 0 - nth k (band_noiseless b) 0) ^ 2
                       / band_err b ^ 2)%Q)
            (filter (fun b => 0 < band_err b)%Q bs))).
Proof.
  intros Hbs Hk. revert acc acc_k.
  induction Hbs as [|b bs [Hm Hr] _ IH]; intros acc acc_k Hl Hacc; [done|].
  unfold joint_terms in *. cbn [map observed_rows].
  destruct (Qgtb (band_err b) 0) eqn:Hg.
  - rewrite filter_cons_True by (by apply Qgtb_true).
    cbn [map zip_with foldl]. apply IH.
    + rewrite length_zip_with, length_zip_with, !length_square, length_zip_with,
        length_replicate. lia.
    + apply zip_with_Qplus_lookup; [done|]. by apply discr_lookup.
  - rewrite filter_cons_False.
    + by apply IH.
    + apply Qgtb_false in Hg. by apply Qle_not_lt.
Qed.

Lemma joint_discr_lookup (d : ppc_input) (k : nat) :
  wf_input d -> (k < n_replicated d)%nat ->
  (joint_discr_of d).1 !! k = Some (joint_obs_discrepancy d k) /\
  (joint_discr_of d).2 !! k = Some (joint_repl_discrepancy d k).
Proof.
  intros Hwf Hk. destruct (wf_bands d Hwf) as (Ho & He & Hm & Hr & Hrows).
  unfold joint_discr_of, sum_axis0, joint_obs_discrepancy, joint_repl_discrepancy,
    included_bands, Qsum, obs_discrepancy, repl_discrepancy. cbn [fst snd]. split.
  - rewrite <- Ho, <- He, <- Hm, map_map.
    rewrite (fold_joint_terms _ k (fun b => replicate (n_replicated d) (band_obs b))
               (bands d) _ 0%Q); try done.
    + f_equal. f_equal. apply map_ext_in. intros b _.
      by rewrite (nth_lookup_Some _ _ _ (band_obs b)) by (by apply lookup_replicate_2).
    + revert Hrows. apply List.Forall_impl. intros b [H1 H2].
      by rewrite length_replicate.
    + by rewrite length_replicate.
    + by rewrite lookup_replicate_2.
  - rewrite <- Hr, <- He, <- Hm.
    rewrite (fold_joint_terms _ k band_replicated (bands d) _ 0%Q); try done.
    + by rewrite length_replicate.
    + by rewrite lookup_replicate_2.
Qed.

Lemma count_nonzero_pairs (xs ys : list Q) :
  count_nonzero (zip_with Qgtb ys xs) = count_exceeding_pairs xs ys.
Proof.
  unfold count_exceeding_pairs. revert ys.
  induction xs as [|x xs IH]; intros [|y ys]; try done.
  cbn [zip_with zip]. rewrite count_nonzero_cons, IH.
  destruct (Qgtb y x) eqn:E.
  - rewrite filter_cons_True by (by apply Qgtb_true). done.
  - rewrite filter_cons_False; [done|].
    apply Qgtb_false in E. by apply Qle_not_lt.
Qed.

Lemma length_foldl_zip_with_Qplus (n : nat) (rows : list (list Q)) (acc : list Q) :
  rows_of n rows -> length acc = n ->
  length (foldl (zip_with Qplus) acc rows) = n.
Proof.
  intros Hrows. revert acc. induction Hrows as [|r rows Hr _ IH]; intros acc Hacc;
    [done|].
  cbn [foldl]. apply IH. rewrite length_zip_with. lia.
Qed.

Lemma rows_of_joint_terms (errs : list Q) (n : nat) (a noiseless : list (list Q)) :
  rows_of n a -> rows_of n noiseless ->
  rows_of n (joint_terms errs n a noiseless).
Proof.
  intros Ha Hm. unfold joint_terms.
  assert (H1 : rows_of n (map square (zip_with (zip_with Qminus)
                 (observed_rows errs a) (observed_rows errs noiseless)))).
  { apply rows_of_square, rows_of_sub; by apply observed_rows_Forall. }
  assert (H2 : rows_of n (map square (observed_rows errs (map (replicate n) errs)))).
  { apply rows_of_square, observed_rows_Forall, rows_of_replicate. }
  revert H1 H2. generalize (map square (observed_rows errs (map (replicate n) errs))).
  generalize (map square (zip_with (zip_with Qminus)
                 (observed_rows errs a) (observed_rows errs noiseless))).
  intros x y Hx. revert y. induction Hx as [|r x Hr _ IH]; intros [|s y] Hy;
    cbn [zip_with]; try constructor.
  - inversion Hy; subst. rewrite length_zip_with. lia.
  - inversion Hy; subst. by apply IH.
Qed.

Lemma length_joint_discr_of (d : ppc_input) :
  wf_input d ->
  length (joint_discr_of d).1 = n_replicated d /\
  length (joint_discr_of d).2 = n_replicated d.
Proof.
  intros Hwf. unfold joint_discr_of, sum_axis0. cbn [fst snd].
  split; apply length_foldl_zip_with_Qplus; rewrite ?length_replicate; try done;
    apply rows_of_joint_terms; try apply Hwf.
  - apply rows_of_replicate.
  - unfold rows_of. rewrite Forall_map.
    generalize (wf_replic_rows d Hwf). apply List.Forall_impl.
    intros r Hr. simpl. by rewrite length_to_nano.
Qed.

(** C2.  The joint discrepancies of every draw are the sums, over exactly
    the bands with a positive observed error, of the per-band
    discrepancies; the joint p-value is the fraction of the draws whose
    joint replicated discrepancy strictly exceeds the joint observed one;
    and a further band with observed error 0, wherever it is put, changes
    neither the joint discrepancies nor the joint p-value. *)
Theorem joint_discrepancy_sums_included_bands (d : ppc_input) :
  wf_input d ->
  exists s,
    result (posterior_predictive_checks d) = Some s /\
    length (stat_obs_discr s) = n_replicated d /\
    length (stat_repl_discr s) = n_replicated d /\
    (forall k, (k < n_replicated d)%nat ->
       stat_obs_discr s !! k = Some (joint_obs_discrepancy d k) /\
       stat_repl_discr s !! k = Some (joint_repl_discrepancy d k)) /\
    stat_p_value s ==
      inject_Z (Z.of_nat (count_exceeding_pairs (stat_obs_discr s) (stat_repl_discr s)))
      / inject_Z (Z.of_nat (n_replicated d)) /\
    (forall pos obs err noiseless field,
       length noiseless = n_replicated d -> length field = n_replicated d ->
       err == 0 ->
       exists s',
         result (posterior_predictive_checks (add_band pos obs err noiseless field d))
         = Some s' /\
         stat_obs_discr s' = stat_obs_discr s /\
         stat_repl_discr s' = stat_repl_discr s /\
         stat_p_value s' = stat_p_value s).
Proof.
  intros Hwf.
  destruct (posterior_predictive_checks_result d Hwf) as (st & _ & Hs).
  eexists. split; [exact Hs|]. cbn [stat_obs_discr stat_repl_discr stat_p_value].
  destruct (length_joint_discr_of d Hwf) as [L1 L2].
  split; [done|]. split; [done|]. split; [|split].
  - intros k Hk. by apply joint_discr_lookup.
  - unfold joint_p_of. rewrite count_nonzero_pairs. by rewrite Qmult_1_l.
  - intros pos obs err noiseless field Hlm Hlf H0.
    pose proof (wf_add_band pos obs err noiseless field d Hwf Hlm Hlf) as Hwf'.
    destruct (posterior_predictive_checks_result _ Hwf') as (st' & _ & Hs').
    eexists. split; [exact Hs'|].
    cbn [stat_obs_discr stat_repl_discr stat_p_value].
    unfold joint_p_of. rewrite (joint_discr_of_add_masked_band _ _ _ _ _ _ Hwf H0).
    done.
Qed.

(** ** The denominators of the divisions (lines 455-500) *)

Lemma square_positive (n : nat) (err : Q) :
  (0 < err)%Q -> Forall (fun q => 0 < q)%Q (square (replicate n err)).
Proof.
  intros H. unfold square. rewrite Forall_map. apply Forall_replicate. simpl.
  nra.
Qed.

Lemma band_step_log (d : ppc_input) st (i : nat) :
  wf_input d -> (i < n_bands d)%nat ->
  Forall (fun q => 0 < q)%Q (log (band_step d st i)).
Proof.
  intros Hwf Hi.
  destruct (wf_lookups d i Hwf Hi) as (obs & err & m & f & Ho & He & Hm & Hf & Hlm & Hlf).
  destruct (Qgtb err 0) eqn:Hg.
  - rewrite (band_step_observed d st i obs err m f) by (try done; apply Hwf).
    cbn [log].
    apply Qgtb_true in Hg. apply Forall_app. split; by apply square_positive.
  - rewrite (band_step_masked d st i err) by done. constructor.
Qed.

Lemma for_each_band_step_log (d : ppc_input) (idx : list nat) st :
  wf_input d -> Forall (fun i => i < n_bands d)%nat idx ->
  Forall (fun q => 0 < q)%Q (log (for_each (band_step d) idx st)).
Proof.
  intros Hwf Hidx. revert st.
  induction Hidx as [|i idx Hi _ IH]; intros st; cbn [for_each]; [constructor|].
  rewrite (log_bind _ _ _ (band_step_result d st i Hwf Hi)).
  apply Forall_app. split; [by apply band_step_log | apply IH].
Qed.

(** The band loop divides by the squared error of observed bands only. *)
Lemma band_loop_log (d : ppc_input) :
  wf_input d -> Forall (fun q => 0 < q)%Q (log (band_loop d)).
Proof.
  intros Hwf. apply for_each_band_step_log; [done|].
  apply Forall_forall. intros i Hi. apply elem_of_seq in Hi. lia.
Qed.

Lemma observed_errors_positive (n : nat) (errs : list Q) :
  Forall (fun q => 0 < q)%Q
    (concat (map square (observed_rows errs (map (replicate n) errs)))).
Proof.
  induction errs as [|e errs IH]; cbn [map observed_rows]; [constructor|].
  destruct (Qgtb e 0) eqn:Hg; [|done].
  cbn [map concat]. apply Forall_app. split; [|done].
  apply square_positive. by apply Qgtb_true.
Qed.

(** So do the joint discrepancies. *)
Lemma joint_discrepancies_log (d : ppc_input) (replic_fluxes : list (list Q)) :
  wf_input d ->
  length replic_fluxes = n_bands d -> rows_of (n_replicated d) replic_fluxes ->
  Forall (fun q => 0 < q)%Q (log (joint_discrepancies d replic_fluxes)).
Proof.
  intros Hwf Hl Hr. rewrite joint_discrepancies_eq by done. cbn [log].
  apply Forall_app. split; apply observed_errors_positive.
Qed.

(** The mean residual and the residuals divide by the error of every
    band, masked or not. *)
Lemma residual_divisions_unmasked (d : ppc_input) (b : nat) (err : Q) :
  wf_input d -> obs_flux_err d !! b = Some err ->
  err ∈ log (mean_residual d) /\ err ∈ log (residual_fluxes d).
Proof.
  intros Hwf He. rewrite mean_residual_eq, residual_fluxes_eq by done. cbn [log].
  split.
  - by apply (list_elem_of_lookup_2 _ b).
  - apply list_elem_of_In, in_concat.
    exists (replicate (n_replicated d) err). split.
    + apply in_map, list_elem_of_In. by apply (list_elem_of_lookup_2 _ b).
    + apply list_elem_of_In, elem_of_replicate. split; [done|].
      pose proof (wf_draws d Hwf). lia.
Qed.

(** C4.  On the input [two_bands_one_masked], whose second band has
    observed error 0, the p-value stages divide by positive numbers only,
    but the mean residual and the residuals of lines 495-500 divide by
    that zero error. *)
Theorem mean_residual_divides_by_zero_error :
  obs_flux_err two_bands_one_masked !! 1%nat = Some 0%Q /\
  Forall (fun q => 0 < q)%Q (log (band_loop two_bands_one_masked)) /\
  0%Q ∈ log (mean_residual two_bands_one_masked) /\
  0%Q ∈ log (residual_fluxes two_bands_one_masked) /\
  0%Q ∈ log (posterior_predictive_checks two_bands_one_masked).
Proof.
  split; [reflexivity|]. split.
  - vm_compute. repeat constructor.
  - repeat split; apply list_elem_of_In; vm_compute; tauto.
Qed.

(** ** The observed photometry and the aperture correction *)

Section CatalogueFacts.

Variable sqrt : Q -> Q.
Variable pow10 : Q -> Q.

Lemma extract_band_agree (f : filters) (r1 r2 : gmap string Q) (a : Q)
    (st : list Q * list Q) (j : nat) :
  (forall k, k <> "aper_corr"%string -> r1 !! k = r2 !! k) ->
  "aper_corr"%string ∉ flux_colName f ->
  "aper_corr"%string ∉ flux_errcolName f ->
  extract_band sqrt f r1 a st j = extract_band sqrt f r2 a st j.
Proof.
  intros Hr Hc He. unfold extract_band.
  destruct (flux_colName f !! j) as [name|] eqn:Hn; [|done]. simpl.
  assert (Hname : r1 !! name = r2 !! name).
  { apply Hr. intros ->. apply Hc. by apply (list_elem_of_lookup_2 _ j). }
  rewrite Hname. destruct (r2 !! name) as [v|]; [|done]. simpl.
  destruct (flux_errcolName f !! j) as [ename|] eqn:Hen; [|done]. simpl.
  assert (Hename : r1 !! ename = r2 !! ename).
  { apply Hr. intros ->. apply He. by apply (list_elem_of_lookup_2 _ j). }
  by rewrite Hename.
Qed.

Lemma extract_loop_agree (f : filters) (r1 r2 : gmap string Q) (a : Q)
    (idx : list nat) (st : list Q * list Q) :
  (forall k, k <> "aper_corr"%string -> r1 !! k = r2 !! k) ->
  "aper_corr"%string ∉ flux_colName f ->
  "aper_corr"%string ∉ flux_errcolName f ->
  extract_loop sqrt f r1 a idx st = extract_loop sqrt f r2 a idx st.
Proof.
  intros Hr Hc He. revert st. induction idx as [|j idx IH]; intros st; [done|].
  cbn [extract_loop]. rewrite (extract_band_agree f r1 r2 a st j) by done.
  destruct (extract_band sqrt f r2 a st j) as [st'|]; [|done]. simpl. apply IH.
Qed.

(** C9.  Two catalogues that differ only in the values of the
    [aper_corr] column give both plotters the same observed fluxes and
    flux errors: the correction factor computed from that column is
    never handed to [extract_fluxes]. *)
Theorem observed_photometry_ignores_aper_corr (c1 c2 : catalogue)
    (f : filters) (ID : string) :
  same_but_aper_corr c1 c2 ->
  "aper_corr"%string ∉ flux_colName f ->
  "aper_corr"%string ∉ flux_errcolName f ->
  observed_photometry sqrt pow10 c1 f ID = observed_photometry sqrt pow10 c2 f ID.
Proof.
  intros [Hcols Hrec] Hc He. specialize (Hrec ID).
  unfold observed_photometry, extract_fluxes, extract_row. rewrite Hcols.
  destruct (records c1 !! ID) as [r1|], (records c2 !! ID) as [r2|]; try done.
  destruct Hrec as [Hr Ha]. cbn [mbind option_bind].
  rewrite (extract_loop_agree f r1 r2) by done.
  destruct (bool_decide ("aper_corr"%string ∈ columns c2)); [|done].
  destruct (r1 !! "aper_corr"%string) as [a1|] eqn:E1,
           (r2 !! "aper_corr"%string) as [a2|] eqn:E2; try done.
  - exfalso. destruct Ha as [Ha _]. by destruct Ha.
  - exfalso. destruct Ha as [_ Ha]. by destruct Ha.
Qed.

End CatalogueFacts.

(** ** The first loop of the marginal plot (lines 205-229) *)

Lemma Qmin_same (c : Q) : Qmin c c = c.
Proof. unfold Qmin, GenericMinMax.gmin. destruct (Qcompare c c); reflexivity. Qed.

Lemma Qmax_same (c : Q) : Qmax c c = c.
Proof. unfold Qmax, GenericMinMax.gmax. destruct (Qcompare c c); reflexivity. Qed.

Lemma np_min_constant (c : Q) (a : list Q) :
  a <> [] -> Forall (eq c) a -> np_min a = Some c.
Proof.
  intros Hne Hall. destruct Hall as [|x a <- Hall]; [done|]. cbn [np_min].
  f_equal. induction a as [|y a IH]; [done|].
  inversion Hall; subst. cbn [foldl]. rewrite Qmin_same. by apply IH.
Qed.

Lemma np_max_constant (c : Q) (a : list Q) :
  a <> [] -> Forall (eq c) a -> np_max a = Some c.
Proof.
  intros Hne Hall. destruct Hall as [|x a <- Hall]; [done|]. cbn [np_max].
  f_equal. induction a as [|y a IH]; [done|].
  inversion Hall; subst. cbn [foldl]. rewrite Qmax_same. by apply IH.
Qed.

Section MarginalFacts.

Variable prepare_violin_plot : list Q -> option (list Q) -> option violin.

Lemma same_band_refl (i : nat) (s : marginal_state) : same_band i s s.
Proof. by repeat split. Qed.

Lemma same_band_trans (i : nat) (s t u : marginal_state) :
  same_band i s t -> same_band i t u -> same_band i s u.
Proof.
  unfold same_band. intros H1 H2. destruct_and!.
  repeat split; congruence.
Qed.

(** One iteration keeps the sizes and the values of the other bands. *)
Lemma marginal_band_frame (probability : list Q) (st st' : marginal_state)
    (n i : nat) (field : list Q) :
  marginal_band prepare_violin_plot probability st i field = Some st' ->
  state_size n st ->
  state_size n st' /\ forall j, j <> i -> same_band j st' st.
Proof.
  unfold marginal_band, state_size, same_band. intros H Hsz.
  destruct (np_min _) as [min_x|]; [|done].
  destruct (np_max _) as [max_x|]; [|done]. cbn [mbind option_bind] in H.
  destruct (Qeq_bool min_x max_x).
  - injection H as <-. cbn. rewrite !length_insert.
    split; [done|]. intros j Hj. by rewrite !list_lookup_insert_ne.
  - destruct (prepare_violin_plot _ _) as [v|]; [|done].
    cbn [mbind option_bind] in H.
    destruct (np_max (violin_y v)) as [m|]; [|done].
    injection H as <-. cbn. rewrite !length_insert.
    split; [done|]. intros j Hj. by rewrite !list_lookup_insert_ne.
Qed.

(** The loop keeps the sizes; the values of band [i] in its result are
    those written by the iteration of band [i]. *)
Lemma marginal_loop_band (probability : list Q) (fields : list (list Q)) :
  forall (j n : nat) (st st' : marginal_state),
    marginal_loop prepare_violin_plot probability j fields st = Some st' ->
    state_size n st ->
    state_size n st' /\
    (forall i, (i < j \/ j + length fields <= i)%nat -> same_band i st' st) /\
    (forall i field, (j <= i)%nat -> fields !! (i - j)%nat = Some field ->
       exists s s', state_size n s /\
         marginal_band prepare_violin_plot probability s i field = Some s' /\
         same_band i st' s').
Proof.
  induction fields as [|field0 fields IH]; intros j n st st' H Hsz.
  - injection H as <-. split; [done|]. split.
    + intros i _. apply same_band_refl.
    + intros i field _ Hf. by rewrite lookup_nil in Hf.
  - cbn [marginal_loop] in H.
    destruct (marginal_band _ _ st j field0) as [st1|] eqn:Hstep; [|done].
    cbn [mbind option_bind] in H.
    destruct (marginal_band_frame _ _ _ n _ _ Hstep Hsz) as [Hsz1 Hframe1].
    destruct (IH (S j) n st1 st' H Hsz1) as (Hsz' & Hframe & Hband).
    split; [done|]. split.
    + intros i Hi. cbn [length] in Hi.
      apply (same_band_trans _ _ st1); [apply Hframe; lia | apply Hframe1; lia].
    + intros i field Hji Hf. destruct (decide (i = j)) as [->|Hne].
      * rewrite Nat.sub_diag in Hf. injection Hf as <-.
        exists st, st1. split; [done|]. split; [done|]. apply Hframe. lia.
      * replace (i - j)%nat with (S (i - S j)) in Hf by lia.
        apply (Hband i field); [lia | done].
Qed.

Lemma marginal_init_size (n : nat) : state_size n (marginal_init n).
Proof.
  unfold state_size, marginal_init. cbn.
  by rewrite !length_replicate, length_map, length_seq.
Qed.

(** What the iteration of a band with a constant sample does. *)
Lemma marginal_band_constant (probability : list Q) (st : marginal_state)
    (i : nat) (field : list Q) (v : Q) :
  field <> [] -> Forall (eq v) field ->
  marginal_band prepare_violin_plot probability st i field =
  Some {| median_flux := <[i:=(v / nanoJy)%Q]> (median_flux st);
          pdf_norm := pdf_norm st;
          max_y := max_y st;
          min_flux := <[i:=(v / nanoJy)%Q]> (min_flux st);
          max_flux := <[i:=(v / nanoJy)%Q]> (max_flux st);
          x_plot := x_plot st;
          y_plot := y_plot st;
          has_pdf := <[i:=false]> (has_pdf st);
          kde_pdf := kde_pdf st |}.
Proof.
  intros Hne Hall. unfold marginal_band.
  assert (Hx : Forall (eq (v / nanoJy)%Q) (map (fun x => (x / nanoJy)%Q) field)).
  { rewrite Forall_map. revert Hall. apply List.Forall_impl. by intros x <-. }
  assert (Hne' : map (fun x => (x / nanoJy)%Q) field <> []) by (by destruct field).
  rewrite (np_min_constant _ _ Hne' Hx), (np_max_constant _ _ Hne' Hx).
  cbn [mbind option_bind]. by rewrite Qeq_bool_refl.
Qed.

End MarginalFacts.

(** C3.  A band whose posterior sample is constant is handled without a
    density estimate and without an exception: its iteration of the first
    loop returns whatever [prepare_violin_plot] does, even if that always
    raises; after the loop the band is recorded as having no distribution,
    its median is the constant value, and the second loop draws the point
    marker there and nothing else. *)
Theorem constant_band_gets_point_marker_only
    (prepare_violin_plot : list Q -> option (list Q) -> option violin)
    (probability : list Q) (model_sed : list (list Q)) (i : nat)
    (field : list Q) (v : Q) :
  model_sed !! i = Some field -> field <> [] -> Forall (eq v) field ->
  (forall st,
     is_Some (marginal_band prepare_violin_plot probability st i field) /\
     marginal_band prepare_violin_plot probability st i field
     = marginal_band (fun _ _ => None) probability st i field) /\
  (forall st,
     marginal_loop prepare_violin_plot probability 0 model_sed
       (marginal_init (length model_sed)) = Some st ->
     has_pdf st !! i = Some false /\
     median_flux st !! i = Some (v / nanoJy)%Q /\
     forall wl delta wl_i dwl,
       wl !! i = Some wl_i -> band_dwl delta i = Some dwl ->
       band_artists wl delta st i = Some [Point wl_i (v / nanoJy)%Q]).
Proof.
  intros Hf Hne Hall. split.
  - intros st. rewrite !(marginal_band_constant _ _ _ _ _ v) by done. eauto.
  - intros st Hloop.
    destruct (marginal_loop_band _ _ _ _ _ _ _ Hloop (marginal_init_size _))
      as (Hsz & _ & Hband).
    destruct (Hband i field) as (s & s' & Hs & Hstep & Hsame); [lia| |].
    { by rewrite Nat.sub_0_r. }
    rewrite (marginal_band_constant _ _ _ _ _ v) in Hstep by done.
    injection Hstep as <-.
    assert (Hi : (i < length model_sed)%nat) by (by apply lookup_lt_Some in Hf).
    destruct Hs as (L1 & _ & _ & _ & _ & _ & _ & L8 & _).
    destruct Hsame as (E1 & _ & _ & _ & _ & _ & _ & E8 & _). cbn in E1, E8.
    rewrite list_lookup_insert_eq in E1 by lia.
    rewrite list_lookup_insert_eq in E8 by lia.
    split; [done|]. split; [done|].
    intros wl delta wl_i dwl Hwl Hdwl. unfold band_artists.
    rewrite Hdwl, E8. cbn [mbind option_bind]. rewrite Hwl, E1. done.
Qed.

Section Figures.

Local Open Scope Q_scope.

(** ** The violins of the second loop (lines 231-265) *)

Lemma foldl_Qmax_compat (a : list Q) (x y : Q) :
  x == y -> foldl Qmax x a == foldl Qmax y a.
Proof.
  revert x y. induction a as [|z a IH]; intros x y H; [done|].
  cbn [foldl]. apply IH. by rewrite H.
Qed.

Lemma Qmax_scale (x y w : Q) : 0 <= w -> Qmax (x * w) (y * w) == Qmax x y * w.
Proof.
  intros Hw. destruct (Qlt_le_dec x y) as [H|H].
  - rewrite (Q.max_r x y) by (by apply Qlt_le_weak).
    apply Q.max_r. apply Qmult_le_compat_r; [by apply Qlt_le_weak | done].
  - rewrite (Q.max_l x y) by done.
    apply Q.max_l. by apply Qmult_le_compat_r.
Qed.

(** Scaling an array by a non-negative factor scales its maximum. *)
Lemma np_max_scale (a : list Q) (w m : Q) :
  0 <= w -> np_max a = Some m ->
  exists h, np_max (map (fun y => y * w) a) = Some h /\ h == m * w.
Proof.
  intros Hw. destruct a as [|x a]; [done|]. cbn [np_max map].
  intros [= <-]. eexists. split; [done|].
  revert x. induction a as [|y a IH]; intros x; [done|].
  cbn [map foldl]. rewrite <- IH.
  apply foldl_Qmax_compat. by apply Qmax_scale.
Qed.

Lemma np_max_pointwise (a b : list Q) (m : Q) :
  Forall2 Qeq a b -> np_max a = Some m ->
  exists m', np_max b = Some m' /\ m' == m.
Proof.
  intros [|x y a' b' Hxy Hab]; [done|]. cbn [np_max]. intros [= <-].
  eexists. split; [done|]. revert x y Hxy.
  induction Hab as [|x' y' a' b' Hxy' _ IH]; intros x y Hxy; [by symmetry|].
  cbn [foldl]. apply IH. by rewrite Hxy, Hxy'.
Qed.

Lemma elem_of_delta_wl (wl delta : list Q) (i : nat) (dwl : Q) :
  delta_wl wl = Some delta -> band_dwl delta i = Some dwl -> dwl ∈ np_diff wl.
Proof.
  unfold delta_wl, band_dwl. intros Hd Hb.
  destruct (np_diff wl !! 0%nat) as [d0|] eqn:H0; [|done].
  injection Hd as <-.
  assert (Hsub : forall x, x ∈ d0 :: np_diff wl -> x ∈ np_diff wl).
  { intros x [->|Hx]%elem_of_cons; [|done]. by apply (list_elem_of_lookup_2 _ 0%nat). }
  destruct ((d0 :: np_diff wl) !! i) as [d|] eqn:Hi; [|done].
  cbn [mbind option_bind] in Hb. destruct (Nat.ltb 1 i).
  - destruct (drop (i - 1) (d0 :: np_diff wl)) as [|x rest] eqn:Hdrop; [done|].
    cbn in Hb. injection Hb as <-. apply Hsub.
    apply (list_elem_of_lookup_2 _ (i - 1 + 0)%nat).
    rewrite <- lookup_drop, Hdrop. done.
  - injection Hb as <-. apply Hsub. by apply (list_elem_of_lookup_2 _ i).
Qed.

Section ViolinFacts.

Variable prepare_violin_plot : list Q -> option (list Q) -> option violin.

(** After the first loop, a band recorded as having a distribution holds
    the grid returned by the density estimate, and [max_y] is the largest
    density on that grid. *)
Lemma marginal_loop_violin (probability : list Q) (model_sed : list (list Q))
    (st : marginal_state) (i : nat) :
  marginal_loop prepare_violin_plot probability 0 model_sed
    (marginal_init (length model_sed)) = Some st ->
  has_pdf st !! i = Some true ->
  exists v my,
    y_plot st !! i = Some (violin_y v) /\ x_plot st !! i = Some (violin_x v) /\
    max_y st !! i = Some my /\ np_max (violin_y v) = Some my /\
    median_flux st !! i = Some (violin_median v) /\
    pdf_norm st !! i = Some (violin_norm v) /\
    kde_pdf st !! i = Some (violin_pdf v).
Proof.
  intros Hloop Hhas.
  destruct (marginal_loop_band _ _ _ _ _ _ _ Hloop (marginal_init_size _))
    as (Hsz & _ & Hband).
  assert (Hi : (i < length model_sed)%nat).
  { apply lookup_lt_Some in Hhas.
    destruct Hsz as (_ & _ & _ & _ & _ & _ & _ & L8 & _). lia. }
  destruct (lookup_lt_is_Some_2 model_sed i Hi) as [field Hf].
  destruct (Hband i field) as (s & s' & Hs & Hstep & Hsame); [lia| |].
  { by rewrite Nat.sub_0_r. }
  destruct Hs as (L1 & L2 & L3 & L4 & L5 & L6 & L7 & L8 & L9).
  destruct Hsame as (E1 & E2 & E3 & E4 & E5 & E6 & E7 & E8 & E9).
  unfold marginal_band in Hstep.
  destruct (np_min _) as [min_x|]; [|done].
  destruct (np_max _) as [max_x|]; [|done]. cbn [mbind option_bind] in Hstep.
  destruct (Qeq_bool min_x max_x).
  - injection Hstep as <-. cbn in E8.
    rewrite list_lookup_insert_eq in E8 by lia. congruence.
  - destruct (prepare_violin_plot _ _) as [v|]; [|done].
    cbn [mbind option_bind] in Hstep.
    destruct (np_max (violin_y v)) as [m|] eqn:Hm; [|done].
    injection Hstep as <-. cbn in E1, E2, E3, E6, E7, E9.
    rewrite list_lookup_insert_eq in E1 by lia.
    rewrite list_lookup_insert_eq in E2 by lia.
    rewrite list_lookup_insert_eq in E3 by lia.
    rewrite list_lookup_insert_eq in E6 by lia.
    rewrite list_lookup_insert_eq in E7 by lia.
    rewrite list_lookup_insert_eq in E9 by lia.
    exists v, m. by repeat split.
Qed.

End ViolinFacts.

(** C5, amended.  For a band recorded as having a distribution, the
    filled shape is symmetric about the effective wavelength of the band,
    its half-width at each support value is the density there times one
    factor, and, when the largest density is positive and the spacing
    [dwl] the loop picked for the band is not negative, its largest
    half-width is 40% of [dwl], which is one of the spacings between
    consecutive bands. *)
Theorem violin_half_width_is_40_percent_of_band_spacing
    (prepare_violin_plot : list Q -> option (list Q) -> option violin)
    (probability : list Q) (model_sed : list (list Q)) (st : marginal_state)
    (wl delta : list Q) (i : nat) (wl_i dwl : Q) (xs ys : list Q) :
  marginal_loop prepare_violin_plot probability 0 model_sed
    (marginal_init (length model_sed)) = Some st ->
  has_pdf st !! i = Some true ->
  x_plot st !! i = Some xs -> y_plot st !! i = Some ys ->
  length xs = length ys ->
  wl !! i = Some wl_i ->
  delta_wl wl = Some delta -> band_dwl delta i = Some dwl ->
  exists my left right rest,
    max_y st !! i = Some my /\ np_max ys = Some my /\
    band_artists wl delta st i = Some (FillBetweenx xs left right :: rest) /\
    length left = length ys /\ length right = length ys /\
    (forall k y, ys !! k = Some y ->
       left !! k = Some (wl_i - y * ((4 # 10) * dwl / my)) /\
       right !! k = Some (wl_i + y * ((4 # 10) * dwl / my))) /\
    dwl ∈ np_diff wl /\
    (0 < my -> 0 <= dwl ->
     exists h, max_half_width wl_i (FillBetweenx xs left right) = Some h /\
               h == (4 # 10) * dwl).
Proof.
  intros Hloop Hhas Hx Hy Hlen Hwl Hdelta Hdwl.
  destruct (marginal_loop_violin _ _ _ _ _ Hloop Hhas)
    as (v & my & Ey & Ex & Em & Hmax & Emed & Enorm & Epdf).
  rewrite Hy in Ey. injection Ey as ->. rewrite Hx in Ex. injection Ex as ->.
  set (w := (4 # 10) * dwl / my).
  set (half := map (fun y => y * w) (violin_y v)).
  set (y_grid := replicate (length (violin_x v)) wl_i).
  exists my, (zip_with Qminus y_grid half), (zip_with Qplus y_grid half).
  eexists. split; [done|]. split; [done|].
  assert (Lh : length half = length (violin_y v)) by (unfold half; by rewrite length_map).
  assert (Lg : length y_grid = length (violin_y v)).
  { unfold y_grid. by rewrite length_replicate. }
  split.
  { unfold band_artists. rewrite Hdwl, Hhas. cbn [mbind option_bind].
    rewrite Em. cbn [mbind option_bind]. rewrite Hx. cbn [mbind option_bind].
    rewrite Hwl. cbn [mbind option_bind]. rewrite Epdf. cbn [mbind option_bind].
    rewrite Emed. cbn [mbind option_bind]. rewrite Enorm. cbn [mbind option_bind].
    rewrite Hy. cbn [mbind option_bind].
    fold w. fold half. fold y_grid. rewrite Lg, Lh, Nat.eqb_refl. done. }
  split; [rewrite length_zip_with; lia|]. split; [rewrite length_zip_with; lia|].
  split; [|split].
  - intros k y Hk.
    assert (Hg : y_grid !! k = Some wl_i).
    { unfold y_grid. apply lookup_replicate_2. apply lookup_lt_Some in Hk. lia. }
    assert (Hh : half !! k = Some (y * w)).
    { unfold half. by rewrite map_lookup, Hk. }
    rewrite !lookup_zip_with, Hg. cbn. by rewrite Hh.
  - by apply (elem_of_delta_wl wl delta i).
  - intros Hmy Hd. cbn [max_half_width].
    assert (Hw : 0 <= w).
    { unfold w. apply Qle_shift_div_l; [done|]. rewrite Qmult_0_l.
      apply Qmult_le_0_compat; [done|done]. }
    destruct (np_max_scale (violin_y v) w my Hw Hmax) as (h & Hh & Hhw).
    fold half in Hh.
    destruct (np_max_pointwise half (map (fun x => x - wl_i) (zip_with Qplus y_grid half)) h)
      as (h' & Hh' & Heq); [|done|].
    { apply Forall2_same_length_lookup_2.
      - rewrite length_map, length_zip_with. lia.
      - intros k a b Ha Hb. rewrite map_lookup, lookup_zip_with in Hb.
        assert (Hg : y_grid !! k = Some wl_i).
        { unfold y_grid. apply lookup_replicate_2. apply lookup_lt_Some in Ha. lia. }
        rewrite Hg in Hb. cbn in Hb. rewrite Ha in Hb. cbn in Hb.
        injection Hb as <-. ring. }
    exists h'. split; [done|]. rewrite Heq, Hhw. unfold w. field.
    intros H0. rewrite H0 in Hmy. by apply Qlt_irrefl in Hmy.
Qed.

(** C5 as first stated fails: with bands at 1000, 2000 and 2100 Angstrom
    the smallest spacing is 100, but the violin of the first band has a
    largest half-width of 400, not 40. *)
Lemma violin_half_width_not_40_percent_of_minimum_spacing :
  exists fig shape h m,
    marginal_figure uniform_violin three_filters bright_obs_flux bright_obs_flux_err
      three_band_fit [1; 1] = Some fig /\
    fig_artists fig !! 0%nat = Some shape /\
    max_half_width 1000 shape = Some h /\
    np_min (np_diff (wl_eff three_filters)) = Some m /\
    h == 400 /\ m == 100 /\ ~ h == (4 # 10) * m.
Proof.
  eexists _, _, _, _.
  split; [vm_compute; reflexivity|].
  split; [vm_compute; reflexivity|].
  split; [vm_compute; reflexivity|].
  split; [vm_compute; reflexivity|].
  split; [reflexivity|]. split; [reflexivity|].
  intros H. vm_compute in H. discriminate H.
Qed.

(** ** The limits of the y-axis (lines 268-277) *)

(** C6.  With an observed flux of 100 +/- 1 nanoJy in the first band and
    model fluxes between 1 and 5 nanoJy, the y-axis runs from 0.6 to 5.4:
    the upper limit is taken from the model alone, and the observation
    lies above it. *)
Theorem y_axis_upper_limit_ignores_observed_flux :
  exists fig,
    marginal_figure uniform_violin three_filters bright_obs_flux bright_obs_flux_err
      three_band_fit [1; 1] = Some fig /\
    (fig_ylim fig).1 == 6 # 10 /\ (fig_ylim fig).2 == 54 # 10 /\
    bright_obs_flux !! 0%nat = Some 100 /\
    bright_obs_flux_err !! 0%nat = Some 1 /\
    (fig_ylim fig).2 < 100 - 1.
Proof.
  eexists. split; [vm_compute; reflexivity|].
  repeat split; reflexivity.
Qed.

(** The upper limit is the largest model flux plus the padding; the
    observed fluxes enter it through the padding only. *)
Lemma y_limits_upper (obs_flux obs_flux_err : list Q) (st : marginal_state)
    (lo hi : Q) :
  y_limits obs_flux obs_flux_err st = Some (lo, hi) ->
  exists yMax yMin,
    np_max (max_flux st) = Some yMax /\
    hi = yMax + (yMax - yMin) * (1 # 10) /\ lo = yMin - (yMax - yMin) * (1 # 10).
Proof.
  unfold y_limits. intros H.
  destruct (mapM (fun i => obs_flux !! i) _) as [obs_ok|];
    cbn [mbind option_bind] in H; [|done].
  destruct (mapM (fun i => obs_flux_err !! i) _) as [err_ok|];
    cbn [mbind option_bind] in H; [|done].
  destruct (np_max (max_flux st)) as [yMax|]; cbn [mbind option_bind] in H; [|done].
  destruct (np_min _) as [yMin|]; cbn [mbind option_bind] in H; [|done].
  injection H as <- <-. by exists yMax, yMin.
Qed.

End Figures.

(** ** Existing plots (lines 151-157 and 393-399) *)

(** C7.  When the plot of an object already exists, [plot_marginal] (not
    asked to show or to replot) and [plot_replicated_data] (not asked to
    replot) return at once: they log a warning, leave the files alone, and
    compute nothing, whatever the inputs.  Asked to replot, they compute
    the figure and save it under the name of the plot. *)
Theorem existing_plot_skipped_unless_replot
    (stamp : string) (sqrt pow10 : Q -> Q)
    (prepare_violin_plot : list Q -> option (list Q) -> option violin)
    (results : gmap string (list (list Q) * list Q))
    (replicated_figure : string -> option figure)
    (data : catalogue) (f : filters) (ID : string) (w : world) :
  let warned := log_line "The plot already exists. Exiting the function." w in
  plot_files warned = plot_files w /\ shown warned = shown w /\
  (plot_exists (marginal_plot_name ID) w = true ->
   plot_marginal stamp sqrt pow10 prepare_violin_plot results data f ID false false w
   = Some warned) /\
  (plot_exists (replicated_plot_name ID) w = true ->
   plot_replicated_data stamp replicated_figure ID false w = Some warned) /\
  (forall obs fit fig,
     observed_photometry sqrt pow10 data f ID = Some obs ->
     results !! ID = Some fit ->
     marginal_figure prepare_violin_plot f obs.1 obs.2 fit.1 fit.2 = Some fig ->
     exists w',
       plot_marginal stamp sqrt pow10 prepare_violin_plot results data f ID true false w
       = Some w' /\
       plot_files w' !! marginal_plot_name ID = Some fig) /\
  (forall fig,
     replicated_figure ID = Some fig ->
     exists w',
       plot_replicated_data stamp replicated_figure ID true w = Some w' /\
       plot_files w' !! replicated_plot_name ID = Some fig).
Proof.
  intros warned. split; [done|]. split; [done|]. split; [|split; [|split]].
  - intros Hex. unfold plot_marginal. by rewrite Hex.
  - intros Hex. unfold plot_replicated_data. by rewrite Hex.
  - intros obs fit fig Hobs Hfit Hfig. unfold plot_marginal.
    rewrite andb_false_r. cbn [andb]. rewrite Hobs. cbn [mbind option_bind].
    rewrite Hfit. cbn [mbind option_bind]. rewrite Hfig. cbn [mbind option_bind].
    eexists. split; [done|]. cbn [savefig plot_files]. apply lookup_insert_eq.
  - intros fig Hfig. unfold plot_replicated_data.
    rewrite andb_false_r. rewrite Hfig. cbn [mbind option_bind].
    eexists. split; [done|]. cbn [savefig plot_files]. apply lookup_insert_eq.
Qed.


(** ** The statements on the example inputs *)

Lemma two_bands_one_masked_wf : wf_input two_bands_one_masked.
Proof. split; cbn; repeat constructor. Qed.

Lemma one_band_ties_wf : wf_input one_band_ties.
Proof. split; cbn; repeat constructor. Qed.

(** The scenario of the specification: every draw ties, the p-value is 0. *)
Lemma band_p_value_of_ties_witness :
  exists ps p,
    result (p_value_bands one_band_ties) = Some ps /\
    ps !! 0%nat = Some p /\ (p == 0)%Q.
Proof.
  destruct (band_p_value_is_fraction_of_exceeding_draws one_band_ties 0 10%Q 1%Q
              [10; 10; 10]%Q
              [(10 # 1000000000); (10 # 1000000000); (10 # 1000000000)]%Q
              one_band_ties_wf eq_refl eq_refl eq_refl eq_refl eq_refl)
    as (ps & p & Hps & Hp & _ & Hties).
  exists ps, p. split; [exact Hps|]. split; [exact Hp|].
  apply Hties. intros [|[|[|k]]] r m Hr Hm; simplify_eq/=; reflexivity.
Defined.

(** The joint statistics of [two_bands_one_masked], and the same input
    with a third, masked band put between its two bands. *)
Lemma joint_discrepancy_witness :
  exists s,
    result (posterior_predictive_checks two_bands_one_masked) = Some s /\
    length (stat_obs_discr s) = 4%nat /\
    (stat_p_value s ==
      inject_Z (Z.of_nat (count_exceeding_pairs (stat_obs_discr s) (stat_repl_discr s)))
      / inject_Z 4)%Q /\
    exists s',
      result (posterior_predictive_checks
                (add_band 1 7%Q 0%Q [1; 2; 3; 4]%Q [0; 0; 0; 0]%Q two_bands_one_masked))
      = Some s' /\
      stat_p_value s' = stat_p_value s.
Proof.
  destruct (joint_discrepancy_sums_included_bands two_bands_one_masked
              two_bands_one_masked_wf)
    as (s & Hs & L1 & _ & _ & Hp & Hadd).
  exists s. split; [exact Hs|]. split; [exact L1|]. split; [exact Hp|].
  destruct (Hadd 1%nat 7%Q 0%Q [1; 2; 3; 4]%Q [0; 0; 0; 0]%Q eq_refl eq_refl
              (Qeq_refl 0)) as (s' & Hs' & _ & _ & Hp').
  exists s'. split; [exact Hs' | exact Hp'].
Defined.

(** The masked second band of [two_bands_one_masked]. *)
Lemma masked_band_witness :
  exists ps,
    result (p_value_bands two_bands_one_masked) = Some ps /\
    ps !! 1%nat = Some 0%Q /\ 1%nat ∈ where_le p_value_lim ps.
Proof.
  apply (masked_band_p_value_zero_and_selected two_bands_one_masked 1 0%Q
           two_bands_one_masked_wf eq_refl (Qeq_refl 0)).
Defined.

Lemma catalogues_same_but_aper_corr : same_but_aper_corr catalogue_a catalogue_b.
Proof.
  split; [reflexivity|]. intros ID. unfold catalogue_a, catalogue_b. cbn [records].
  destruct (decide (ID = "42"%string)) as [->|Hne].
  - rewrite !lookup_singleton_eq. split.
    + intros k Hk. by rewrite !lookup_insert_ne.
    + rewrite !lookup_insert_eq. split; eauto.
  - by rewrite !lookup_singleton_ne.
Qed.

(** The two example catalogues give the same observed photometry. *)
Lemma observed_photometry_witness :
  observed_photometry approx_sqrt approx_pow10 catalogue_a three_filters "42"
  = observed_photometry approx_sqrt approx_pow10 catalogue_b three_filters "42".
Proof.
  apply (observed_photometry_ignores_aper_corr approx_sqrt approx_pow10
           catalogue_a catalogue_b three_filters "42"
           catalogues_same_but_aper_corr).
  - cbn. intros H. repeat (apply elem_of_cons in H; destruct H as [H|H]; [discriminate H|]).
    by apply elem_of_nil in H.
  - cbn. intros H. repeat (apply elem_of_cons in H; destruct H as [H|H]; [discriminate H|]).
    by apply elem_of_nil in H.
Defined.

(** The third band of [three_band_fit] is constant. *)
Lemma constant_band_witness :
  exists st,
    marginal_loop uniform_violin [1; 1]%Q 0 three_band_fit
      (marginal_init (length three_band_fit)) = Some st /\
    has_pdf st !! 2%nat = Some false /\
    band_artists (wl_eff three_filters) [1000; 1000; 100]%Q st 2
    = Some [Point 2100%Q ((5 # 10 ^ 32) / nanoJy)%Q].
Proof.
  eassert (Hst : marginal_loop uniform_violin [1; 1]%Q 0 three_band_fit
                   (marginal_init (length three_band_fit)) = Some _)
    by (vm_compute; reflexivity).
  eexists. split; [exact Hst|].
  destruct (constant_band_gets_point_marker_only uniform_violin [1; 1]%Q
              three_band_fit 2 [5 # 10 ^ 32; 5 # 10 ^ 32]%Q (5 # 10 ^ 32)%Q
              eq_refl) as [_ Hloop].
  - discriminate.
  - repeat constructor.
  - destruct (Hloop _ Hst) as (Hhas & _ & Hart). split; [exact Hhas|].
    apply (Hart _ _ 2100%Q 1000%Q); reflexivity.
Defined.

(** The violin of the first band of [three_band_fit]: a largest
    half-width of 400 for a spacing of 1000. *)
Lemma violin_half_width_witness :
  exists st left right rest h,
    marginal_loop uniform_violin [1; 1]%Q 0 three_band_fit
      (marginal_init (length three_band_fit)) = Some st /\
    band_artists (wl_eff three_filters) [1000; 1000; 100]%Q st 0
    = Some (FillBetweenx [(1 # 10 ^ 32) / nanoJy; (3 # 10 ^ 32) / nanoJy]%Q left right :: rest) /\
    max_half_width 1000%Q
      (FillBetweenx [(1 # 10 ^ 32) / nanoJy; (3 # 10 ^ 32) / nanoJy]%Q left right)
    = Some h /\
    (h == (4 # 10) * 1000)%Q.
Proof.
  eassert (Hst : marginal_loop uniform_violin [1; 1]%Q 0 three_band_fit
                   (marginal_init (length three_band_fit)) = Some _)
    by (vm_compute; reflexivity).
  match type of Hst with
  | _ = Some ?st =>
      destruct (violin_half_width_is_40_percent_of_band_spacing uniform_violin
                  [1; 1]%Q three_band_fit st (wl_eff three_filters)
                  [1000; 1000; 100]%Q 0 1000%Q 1000%Q _ _
                  Hst eq_refl eq_refl eq_refl eq_refl eq_refl eq_refl eq_refl)
        as (my & left & right & rest & _ & Hmax & Hart & _ & _ & _ & _ & Hwidth)
  end.
  injection Hmax as <-.
  destruct Hwidth as (h & Hh & Heq); [reflexivity | discriminate |].
  eexists _, left, right, rest, h.
  split; [exact Hst|]. split; [exact Hart|]. split; [exact Hh | exact Heq].
Defined.

(** Both plots of the object 42 exist in [world_with_plots]. *)
Lemma existing_plot_witness :
  plot_marginal "-20261104-120000" approx_sqrt approx_pow10 uniform_violin results_42
    catalogue_a three_filters "42" false false world_with_plots
  = Some (log_line "The plot already exists. Exiting the function." world_with_plots) /\
  plot_replicated_data "-20261104-120000" (fun _ => None) "42" false world_with_plots
  = Some (log_line "The plot already exists. Exiting the function." world_with_plots) /\
  exists w',
    plot_replicated_data "-20261104-120000" (fun _ => Some old_figure) "42" true
      world_with_plots = Some w' /\
    plot_files w' !! replicated_plot_name "42" = Some old_figure.
Proof.
  split; [|split].
  - destruct (existing_plot_skipped_unless_replot "-20261104-120000" approx_sqrt
                approx_pow10 uniform_violin results_42 (fun _ => None)
                catalogue_a three_filters "42" world_with_plots)
      as (_ & _ & Hm & _).
    apply Hm. vm_compute. reflexivity.
  - destruct (existing_plot_skipped_unless_replot "-20261104-120000" approx_sqrt
                approx_pow10 uniform_violin results_42 (fun _ => None)
                catalogue_a three_filters "42" world_with_plots)
      as (_ & _ & _ & Hr & _).
    apply Hr. vm_compute. reflexivity.
  - destruct (existing_plot_skipped_unless_replot "-20261104-120000" approx_sqrt
                approx_pow10 uniform_violin results_42 (fun _ => Some old_figure)
                catalogue_a three_filters "42" world_with_plots)
      as (_ & _ & _ & _ & _ & Hr).
    apply (Hr old_figure eq_refl).
Defined.

(** ** Renaming and saving (bangs_utils, lines 54-91, and the entry points) *)

Lemma split_last_dot_append (s : string) (root ext : string) :
  split_last_dot s = Some (root, ext) -> (root +:+ ext)%string = s.
Proof.
  revert root ext. induction s as [|c s IH]; intros root ext H; [done|].
  cbn [split_last_dot] in H.
  destruct (split_last_dot s) as [[r e]|] eqn:E.
  - injection H as <- <-. change (String c (r +:+ e) = String c s). f_equal. by apply IH.
  - destruct (Ascii.eqb c "."%char); [|done]. by injection H as <- <-.
Qed.

Lemma string_app_empty_r (s : string) : (s +:+ EmptyString)%string = s.
Proof.
  induction s as [|c s IH]; [done|].
  change (String c (s +:+ EmptyString) = String c s). by rewrite IH.
Qed.

Lemma string_app_assoc (s t u : string) :
  ((s +:+ t) +:+ u)%string = (s +:+ (t +:+ u))%string.
Proof.
  induction s as [|c s IH]; [done|].
  change (String c ((s +:+ t) +:+ u) = String c (s +:+ (t +:+ u))). by rewrite IH.
Qed.

Lemma string_length_app (s t : string) :
  String.length (s +:+ t) = String.length s + String.length t.
Proof.
  induction s as [|c s IH]; [done|].
  change (S (String.length (s +:+ t)) = S (String.length s + String.length t)).
  by rewrite IH.
Qed.

(** The two parts returned by [splitext] put together give the name
    back. *)
Lemma splitext_append (s : string) :
  ((splitext s).1 +:+ (splitext s).2)%string = s.
Proof.
  unfold splitext. destruct (split_last_dot s) as [[[|c root] ext]|] eqn:E; cbn [fst snd].
  - apply string_app_empty_r.
  - by apply split_last_dot_append.
  - apply string_app_empty_r.
Qed.

Lemma split_last_dot_prefix (p s root ext : string) :
  split_last_dot s = Some (root, ext) ->
  split_last_dot (p +:+ s) = Some ((p +:+ root)%string, ext).
Proof.
  intros H. induction p as [|c p IH]; [done|].
  change (split_last_dot (String c (p +:+ s)) = Some (String c (p +:+ root), ext)).
  cbn [split_last_dot]. by rewrite IH.
Qed.

(** The plot names end in [.pdf], whatever the object ID is. *)
Lemma splitext_marginal_plot_name (ID : string) :
  splitext (marginal_plot_name ID) = ((ID +:+ "_BANGS_marginal_SED_phot")%string, ".pdf"%string).
Proof.
  unfold splitext, marginal_plot_name.
  rewrite (split_last_dot_prefix ID "_BANGS_marginal_SED_phot.pdf"
             "_BANGS_marginal_SED_phot" ".pdf") by reflexivity.
  destruct ID; reflexivity.
Qed.

Lemma splitext_replicated_plot_name (ID : string) :
  splitext (replicated_plot_name ID) = ((ID +:+ "_BANGS_replic_data_phot")%string, ".pdf"%string).
Proof.
  unfold splitext, replicated_plot_name.
  rewrite (split_last_dot_prefix ID "_BANGS_replic_data_phot.pdf"
             "_BANGS_replic_data_phot" ".pdf") by reflexivity.
  destruct ID; reflexivity.
Qed.

Lemma renamed_differs (stamp file_name : string) :
  stamp <> EmptyString -> renamed stamp file_name <> file_name.
Proof.
  intros Hs Heq. unfold renamed in Heq.
  rewrite <- (splitext_append file_name) in Heq at 3.
  apply String.app_inj in Heq.
  assert (HL : String.length (stamp +:+ (splitext file_name).2)
               = String.length (splitext file_name).2) by (by rewrite Heq).
  rewrite string_length_app in HL. destruct stamp; [done|]. cbn in HL. lia.
Qed.

Lemma prepare_plot_saving_files (stamp file_name : string) (w : world) (old : figure) :
  plot_files w !! file_name = Some old ->
  plot_files (prepare_plot_saving stamp file_name false w)
  = <[renamed stamp file_name:=old]> (delete file_name (plot_files w)).
Proof.
  intros Hold. unfold prepare_plot_saving, renamed.
  destruct (plot_dir_exists w); cbn [plot_files]; by rewrite Hold.
Qed.


(** X2.  When no file of that name exists, or when [overwrite] is set,
    [prepare_plot_saving] leaves the files as they are. *)
Theorem prepare_plot_saving_keeps_files (stamp file_name : string)
    (overwrite : bool) (w : world) :
  plot_files w !! file_name = None \/ overwrite = true ->
  plot_files (prepare_plot_saving stamp file_name overwrite w) = plot_files w /\
  plot_dir_exists (prepare_plot_saving stamp file_name overwrite w) = true.
Proof.
  intros H. unfold prepare_plot_saving.
  destruct (plot_dir_exists w) eqn:Hd; cbn [plot_files plot_dir_exists];
    destruct (plot_files w !! file_name) eqn:E; destruct H as [H| ->];
    try done; by destruct overwrite.
Qed.

Lemma plot_exists_true (name : string) (w : world) :
  plot_exists name w = true <-> is_Some (plot_files w !! name).
Proof. unfold plot_exists. apply bool_decide_eq_true. Qed.

Lemma plot_exists_savefig (name : string) (fig : figure) (w : world) :
  plot_exists name (savefig name fig w) = true.
Proof.
  apply plot_exists_true. cbn [savefig plot_files]. rewrite lookup_insert_eq. eauto.
Qed.

(** X3.  A plot that was just made is not made again: after a call of
    [plot_replicated_data] that returned, with [replot] or without, the next
    call without [replot] only logs the warning, whatever the figure
    computation would do. *)
Theorem plot_replicated_data_twice (stamp stamp' : string)
    (replicated_figure replicated_figure' : string -> option figure)
    (ID : string) (replot : bool) (w w' : world) :
  plot_replicated_data stamp replicated_figure ID replot w = Some w' ->
  plot_replicated_data stamp' replicated_figure' ID false w'
  = Some (log_line "The plot already exists. Exiting the function." w').
Proof.
  unfold plot_replicated_data. intros H.
  assert (Hex : plot_exists (replicated_plot_name ID) w' = true).
  { destruct (plot_exists (replicated_plot_name ID) w && negb replot) eqn:G.
    - injection H as <-. apply andb_true_iff in G. destruct G as [G _].
      apply plot_exists_true. apply plot_exists_true in G. done.
    - destruct (replicated_figure ID) as [fig|]; [|done].
      cbn [mbind option_bind] in H. injection H as <-. apply plot_exists_savefig. }
  by rewrite Hex.
Qed.

(** X4.  The same for [plot_marginal], when the first call was not asked to
    show the figure. *)
Theorem plot_marginal_twice (stamp stamp' : string) (sqrt pow10 sqrt' pow10' : Q -> Q)
    (kde kde' : list Q -> option (list Q) -> option violin)
    (results results' : gmap string (list (list Q) * list Q))
    (data data' : catalogue) (f f' : filters) (ID : string) (replot : bool)
    (w w' : world) :
  plot_marginal stamp sqrt pow10 kde results data f ID replot false w = Some w' ->
  plot_marginal stamp' sqrt' pow10' kde' results' data' f' ID false false w'
  = Some (log_line "The plot already exists. Exiting the function." w').
Proof.
  unfold plot_marginal. intros H.
  assert (Hex : plot_exists (marginal_plot_name ID) w' = true).
  { destruct (plot_exists (marginal_plot_name ID) w && negb replot && negb false) eqn:G.
    - injection H as <-. rewrite andb_true_r in G.
      apply andb_true_iff in G. destruct G as [G _].
      apply plot_exists_true. apply plot_exists_true in G. done.
    - destruct (observed_photometry _ _ _ _ _) as [obs|]; [|done].
      cbn [mbind option_bind] in H.
      destruct (results !! ID) as [fit|]; [|done]. cbn [mbind option_bind] in H.
      destruct (marginal_figure _ _ _ _ _ _) as [fig|]; [|done].
      cbn [mbind option_bind] in H. injection H as <-. apply plot_exists_savefig. }
  by rewrite Hex.
Qed.

(** X5.  Asked to show the figure, [plot_marginal] never returns early and
    never touches the plot directory: when it returns, the files and the log
    are as before and one more figure is on screen. *)
Theorem plot_marginal_show_writes_nothing (stamp : string) (sqrt pow10 : Q -> Q)
    (kde : list Q -> option (list Q) -> option violin)
    (results : gmap string (list (list Q) * list Q))
    (data : catalogue) (f : filters) (ID : string) (replot : bool) (w w' : world) :
  plot_marginal stamp sqrt pow10 kde results data f ID replot true w = Some w' ->
  plot_files w' = plot_files w /\ plot_dir_exists w' = plot_dir_exists w /\
  logged w' = logged w /\
  exists obs fit fig,
    observed_photometry sqrt pow10 data f ID = Some obs /\
    results !! ID = Some fit /\
    marginal_figure kde f obs.1 obs.2 fit.1 fit.2 = Some fig /\
    shown w' = shown w ++ [fig].
Proof.
  unfold plot_marginal. rewrite andb_false_r. intros H.
  destruct (observed_photometry _ _ _ _ _) as [obs|] eqn:E1; [|done].
  cbn [mbind option_bind] in H.
  destruct (results !! ID) as [fit|] eqn:E2; [|done]. cbn [mbind option_bind] in H.
  destruct (marginal_figure _ _ _ _ _ _) as [fig|] eqn:E3; [|done].
  cbn [mbind option_bind] in H. injection H as <-. cbn [plot_files plot_dir_exists logged shown].
  split; [done|]. split; [done|]. split; [done|]. by exists obs, fit, fig.
Qed.

(** X6.  Replotting keeps the previous plot: when [plot_replicated_data] is
    asked to replot an object whose plot exists, the old figure is moved to
    the stamped name and the new one is saved under the name of the plot;
    no other file changes. *)
Theorem replot_keeps_previous_plot (stamp : string)
    (replicated_figure : string -> option figure) (ID : string)
    (w : world) (old fig : figure) :
  plot_files w !! replicated_plot_name ID = Some old ->
  replicated_figure ID = Some fig ->
  stamp <> EmptyString ->
  exists w',
    plot_replicated_data stamp replicated_figure ID true w = Some w' /\
    plot_files w' !! replicated_plot_name ID = Some fig /\
    plot_files w' !! (ID +:+ "_BANGS_replic_data_phot" +:+ stamp +:+ ".pdf")%string
    = Some old /\
    forall other,
      other <> replicated_plot_name ID ->
      other <> (ID +:+ "_BANGS_replic_data_phot" +:+ stamp +:+ ".pdf")%string ->
      plot_files w' !! other = plot_files w !! other.
Proof.
  intros Hold Hfig Hs. unfold plot_replicated_data.
  rewrite andb_false_r, Hfig. cbn [mbind option_bind]. eexists. split; [done|].
  pose proof (renamed_differs stamp (replicated_plot_name ID) Hs) as Hne.
  cbn [savefig plot_files]. rewrite (prepare_plot_saving_files _ _ _ _ Hold).
  unfold renamed in *. rewrite splitext_replicated_plot_name in *. cbn [fst snd] in *.
  rewrite string_app_assoc in Hne |- *.
  split; [by rewrite lookup_insert_eq|]. split.
  - by rewrite lookup_insert_ne, lookup_insert_eq.
  - intros other H1 H2. by rewrite !lookup_insert_ne, lookup_delete_ne.
Qed.

(** ** More on the posterior-predictive checks (lines 451-502) *)

Lemma result_bind_case {A B} (m : M A) (f : A -> M B) :
  result (m ≫= f) = match result m with Some a => result (f a) | None => None end.
Proof. rewrite bind_unfold. unfold bind. by destruct (result m). Qed.


Lemma count_nonzero_le (bs : list bool) : (count_nonzero bs <= length bs)%nat.
Proof.
  induction bs as [|b bs IH]; [done|]. rewrite count_nonzero_cons. cbn [length].
  destruct b; lia.
Qed.

Lemma fraction_in_unit_interval (count n : nat) :
  (count <= n)%nat -> (0 < n)%nat ->
  (0 <= 1 * inject_Z (Z.of_nat count) / inject_Z (Z.of_nat n) /\
   1 * inject_Z (Z.of_nat count) / inject_Z (Z.of_nat n) <= 1)%Q.
Proof.
  intros Hc Hn.
  assert (Hn' : (0 < inject_Z (Z.of_nat n))%Q).
  { change 0%Q with (inject_Z 0). rewrite <- Zlt_Qlt. lia. }
  assert (Hc0 : (0 <= inject_Z (Z.of_nat count))%Q).
  { change 0%Q with (inject_Z 0). rewrite <- Zle_Qle. lia. }
  assert (Hcn : (inject_Z (Z.of_nat count) <= inject_Z (Z.of_nat n))%Q).
  { rewrite <- Zle_Qle. lia. }
  rewrite Qmult_1_l. split.
  - apply Qle_shift_div_l; [done|]. by rewrite Qmult_0_l.
  - apply Qle_shift_div_r; [done|]. by rewrite Qmult_1_l.
Qed.

Lemma band_p_value_in_unit_interval (n : nat) (obs err : Q) (noiseless field : list Q) :
  (0 < n)%nat ->
  (0 <= band_p_value n obs err noiseless field /\
   band_p_value n obs err noiseless field <= 1)%Q.
Proof.
  intros Hn. unfold band_p_value. apply fraction_in_unit_interval; [|done].
  etrans; [apply count_nonzero_le|].
  unfold repl_discr_array, obs_discr_array.
  rewrite !length_zip_with, !length_square, !length_zip_with, !length_replicate. lia.
Qed.

Lemma length_sum_axis0_le (n : nat) (rows : list (list Q)) :
  (length (sum_axis0 n rows) <= n)%nat.
Proof.
  unfold sum_axis0.
  assert (H : forall acc, (length acc <= n)%nat ->
            (length (foldl (zip_with Qplus) acc rows) <= n)%nat).
  { induction rows as [|r rows IH]; intros acc Hacc; [done|].
    cbn [foldl]. apply IH. rewrite length_zip_with. lia. }
  apply H. by rewrite length_replicate.
Qed.

(** X7.  Every p-value is a fraction between 0 and 1: on a well-formed input
    the method returns one p-value per band, each in [0, 1], and a joint
    p-value in [0, 1]. *)
Theorem p_values_in_unit_interval (d : ppc_input) :
  wf_input d ->
  exists s,
    result (posterior_predictive_checks d) = Some s /\
    length (stat_p_value_bands s) = n_bands d /\
    Forall (fun p => 0 <= p /\ p <= 1)%Q (stat_p_value_bands s) /\
    (0 <= stat_p_value s /\ stat_p_value s <= 1)%Q.
Proof.
  intros Hwf.
  destruct (posterior_predictive_checks_result d Hwf) as (st & Hst & Hs).
  destruct (band_loop_result d Hwf) as (st' & Hst' & L1 & _ & Hj).
  rewrite Hst in Hst'. injection Hst' as <-.
  eexists. split; [exact Hs|]. cbn [stat_p_value_bands stat_p_value].
  split; [done|]. split.
  - apply Forall_lookup. intros j p Hp.
    assert (Hlt : (j < n_bands d)%nat) by (apply lookup_lt_Some in Hp; lia).
    specialize (Hj j Hlt). unfold band_entry in Hj.
    destruct (wf_lookups d j Hwf Hlt) as (o & e & m & f & Ho & He & Hm & Hf & _).
    rewrite Ho, He, Hm, Hf in Hj. destruct (Qgtb e 0).
    + destruct Hj as [Hj _]. rewrite Hj in Hp. injection Hp as <-.
      apply band_p_value_in_unit_interval, Hwf.
    + destruct Hj as [Hj _]. rewrite Hj in Hp. injection Hp as <-. done.
  - unfold joint_p_of. apply fraction_in_unit_interval; [|apply Hwf].
    etrans; [apply count_nonzero_le|]. rewrite length_zip_with.
    pose proof (length_sum_axis0_le (n_replicated d)) as HL.
    unfold joint_discr_of. cbn [fst snd].
    etrans; [apply Nat.le_min_l|]. apply HL.
Qed.

(** X8.  Without replicated draws the method raises: the joint p-value
    divides by the number of draws, whatever the bands are. *)
Theorem no_draws_raises (d : ppc_input) :
  n_replicated d = 0%nat -> result (posterior_predictive_checks d) = None.
Proof.
  intros Hn. unfold posterior_predictive_checks.
  rewrite result_bind_case. destruct (result (band_loop d)) as [st|]; [|done].
  rewrite result_bind_case.
  destruct (result (joint_discrepancies d st.2)) as [discr|]; [|done].
  rewrite result_bind_case. unfold joint_p_value, fraction. by rewrite Hn.
Qed.

(** X9.  Observed fluxes or errors that do not come one per band make the
    method raise. *)
Theorem band_count_mismatch_raises (d : ppc_input) :
  length (obs_flux d) <> n_bands d \/ length (obs_flux_err d) <> n_bands d ->
  result (posterior_predictive_checks d) = None.
Proof.
  intros H. unfold posterior_predictive_checks.
  rewrite result_bind_case. destruct (result (band_loop d)) as [st|]; [|done].
  rewrite result_bind_case.
  assert (HJ : result (joint_discrepancies d st.2) = None); [|by rewrite HJ].
  unfold joint_discrepancies, reshape_repeat.
  destruct (Nat.eqb_spec (length (obs_flux d)) (n_bands d)) as [E1|E1].
  - rewrite bind_ret.
    destruct (Nat.eqb_spec (length (obs_flux_err d)) (n_bands d)) as [E2|E2]; [|done].
    by destruct H.
  - done.
Qed.

Lemma posterior_predictive_checks_log (d : ppc_input) :
  wf_input d ->
  exists st,
    result (band_loop d) = Some st /\
    log (posterior_predictive_checks d) =
    log (band_loop d) ++ log (joint_discrepancies d st.2) ++
    obs_flux_err d ++ concat (map (replicate (n_replicated d)) (obs_flux_err d)).
Proof.
  intros Hwf. destruct (band_loop_result d Hwf) as (st & Hst & _).
  destruct (band_loop_replic_fluxes d st Hwf Hst) as (L2 & Hrows & Hobs).
  exists st. split; [done|].
  pose proof (joint_discrepancies_result d st.2 Hwf L2 Hrows) as HJ.
  unfold posterior_predictive_checks.
  rewrite (log_bind _ _ _ Hst). f_equal.
  rewrite (log_bind _ _ _ HJ). f_equal.
  unfold joint_p_value. rewrite fraction_pos by apply Hwf. rewrite bind_ret.
  rewrite mean_residual_eq, residual_fluxes_eq by done.
  rewrite !bind_MkM_Some. cbn [log ret]. by rewrite app_nil_r.
Qed.

(** X10.  The method divides by a non-positive number exactly when a band is
    masked: every logged denominator is positive if and only if every
    observed error is. *)
Theorem denominators_positive_iff_no_masked_band (d : ppc_input) :
  wf_input d ->
  Forall (fun q => 0 < q)%Q (log (posterior_predictive_checks d)) <->
  Forall (fun e => 0 < e)%Q (obs_flux_err d).
Proof.
  intros Hwf. destruct (posterior_predictive_checks_log d Hwf) as (st & Hst & ->).
  destruct (band_loop_replic_fluxes d st Hwf Hst) as (L2 & Hrows & _).
  rewrite !Forall_app. split.
  - intros (_ & _ & H & _). exact H.
  - intros H. split; [by apply band_loop_log|].
    split; [by apply joint_discrepancies_log|]. split; [done|].
    apply Forall_concat. rewrite Forall_map. revert H. apply List.Forall_impl.
    intros e He. simpl. by apply Forall_replicate.
Qed.

Lemma lookup_insert_at {A} (pos : nat) (x : A) (a : list A) (j : nat) :
  (pos <= length a)%nat ->
  insert_at pos x a !! j =
  if decide (j < pos)%nat then a !! j
  else if decide (j = pos) then Some x else a !! (j - 1)%nat.
Proof.
  intros Hpos. unfold insert_at.
  destruct (decide (j < pos)%nat) as [Hlt|Hge].
  - rewrite lookup_app_l by (rewrite length_take; lia). by apply lookup_take_lt.
  - rewrite lookup_app_r by (rewrite length_take; lia).
    rewrite length_take, Nat.min_l by lia.
    destruct (decide (j = pos)) as [->|Hne].
    + by rewrite Nat.sub_diag.
    + replace (j - pos)%nat with (S (j - pos - 1)) by lia.
      change ((x :: drop pos a) !! S (j - pos - 1)%nat)
        with (drop pos a !! (j - pos - 1)%nat).
      rewrite lookup_drop. f_equal. lia.
Qed.

Lemma band_entry_add_band (pos : nat) (obs err : Q) (noiseless field : list Q)
    (d : ppc_input) (j : nat) :
  wf_input d -> (pos <= n_bands d)%nat -> err == 0 ->
  band_entry (add_band pos obs err noiseless field d) j =
  if decide (j < pos)%nat then band_entry d j
  else if decide (j = pos) then None else band_entry d (j - 1).
Proof.
  intros Hwf Hpos H0. unfold band_entry.
  cbn [add_band obs_flux obs_flux_err replic_data n_replicated noiseless_flux].
  pose proof (wf_obs d Hwf). pose proof (wf_err d Hwf).
  pose proof (wf_noiseless d Hwf). unfold n_bands in *.
  rewrite !lookup_insert_at by lia.
  destruct (decide (j < pos)%nat); [done|].
  destruct (decide (j = pos)); [|done].
  assert (Hg : Qgtb err 0 = false) by (apply Qgtb_false; by rewrite H0).
  by rewrite Hg.
Qed.

(** X11.  A further band with observed error 0 gets the p-value 0 and leaves
    the p-value of every other band as it was. *)
Theorem p_value_bands_add_masked_band (pos : nat) (obs err : Q)
    (noiseless field : list Q) (d : ppc_input) :
  wf_input d -> (pos <= n_bands d)%nat ->
  length noiseless = n_replicated d -> length field = n_replicated d ->
  err == 0 ->
  exists ps,
    result (p_value_bands d) = Some ps /\
    result (p_value_bands (add_band pos obs err noiseless field d))
    = Some (insert_at pos 0%Q ps).
Proof.
  intros Hwf Hpos Hlm Hlf H0.
  pose proof (wf_add_band pos obs err noiseless field d Hwf Hlm Hlf) as Hwf'.
  destruct (p_value_bands_result d Hwf) as (ps & Hps & L & Hj).
  destruct (p_value_bands_result _ Hwf') as (ps' & Hps' & L' & Hj').
  exists ps. split; [done|]. rewrite Hps'. f_equal.
  assert (Hn' : n_bands (add_band pos obs err noiseless field d) = S (n_bands d)).
  { unfold n_bands. cbn [add_band replic_data]. apply length_insert_at. }
  rewrite Hn' in L', Hj'.
  apply list_eq. intros j. destruct (decide (j < S (n_bands d))%nat) as [Hlt|Hge].
  - rewrite (Hj' j Hlt), (band_entry_add_band _ _ _ _ _ _ _ Hwf Hpos H0).
    rewrite lookup_insert_at by lia.
    destruct (decide (j < pos)%nat); [rewrite Hj by lia; done|].
    destruct (decide (j = pos)); [done|]. by rewrite Hj by lia.
  - rewrite !lookup_ge_None_2; [done| |lia].
    rewrite length_insert_at. lia.
Qed.

Lemma p_value_bands_ext (d d' : ppc_input) :
  wf_input d -> wf_input d' -> n_bands d = n_bands d' ->
  (forall j, (j < n_bands d)%nat ->
     fst <$> band_entry d j = fst <$> band_entry d' j) ->
  result (p_value_bands d) = result (p_value_bands d').
Proof.
  intros Hwf Hwf' Hn Hent.
  destruct (p_value_bands_result d Hwf) as (ps & -> & L & Hj).
  destruct (p_value_bands_result d' Hwf') as (ps' & -> & L' & Hj').
  f_equal. apply list_eq. intros j.
  destruct (decide (j < n_bands d)%nat) as [Hlt|Hge].
  - rewrite (Hj j Hlt), (Hj' j) by lia. specialize (Hent j Hlt).
    destruct (band_entry d j) as [[p r]|], (band_entry d' j) as [[p' r']|];
      simplify_eq/=; done.
  - rewrite !lookup_ge_None_2; [done|lia|lia].
Qed.

Lemma discrepancy_lt_iff (obs err r m : Q) :
  (0 < err)%Q ->
  (obs_discrepancy obs err m < repl_discrepancy r err m)%Q <->
  ((obs - m) ^ 2 < (r - m) ^ 2)%Q.
Proof.
  intros He. unfold obs_discrepancy, repl_discrepancy, Qdiv.
  apply Qmult_lt_r. apply Qinv_lt_0_compat. simpl. nra.
Qed.

Lemma n_exceeding_any_error (obs err err' : Q) (replicated noiseless : list Q) :
  (0 < err)%Q -> (0 < err')%Q ->
  n_exceeding obs err replicated noiseless = n_exceeding obs err' replicated noiseless.
Proof.
  intros He He'. revert noiseless.
  induction replicated as [|r rs IH]; intros [|m ms]; try done.
  cbn [n_exceeding]. rewrite (IH ms).
  destruct (Qlt_le_dec (obs_discrepancy obs err m) (repl_discrepancy r err m)) as [H|H],
           (Qlt_le_dec (obs_discrepancy obs err' m) (repl_discrepancy r err' m)) as [H'|H'];
    try done; exfalso.
  - apply discrepancy_lt_iff in H; [|done].
    apply (discrepancy_lt_iff obs err' r m He') in H. by apply (Qlt_not_le _ _ H).
  - apply discrepancy_lt_iff in H'; [|done].
    apply (discrepancy_lt_iff obs err r m He) in H'. by apply (Qlt_not_le _ _ H').
Qed.

(** X12.  The per-band p-values depend on which bands have a positive error,
    not on how large the errors are: other errors with the same bands
    positive give the same p-values. *)
Theorem p_value_bands_ignore_error_size (d : ppc_input) (errs : list Q) :
  wf_input d ->
  Forall2 (fun e e' => 0 < e <-> 0 < e')%Q (obs_flux_err d) errs ->
  result (p_value_bands (with_errors errs d)) = result (p_value_bands d).
Proof.
  intros Hwf Hmask.
  assert (Hwf' : wf_input (with_errors errs d)).
  { destruct Hwf as [Ho He Hm Hmr Hfr Hn]. split; try done.
    cbn. rewrite <- (Forall2_length _ _ _ Hmask). done. }
  apply p_value_bands_ext; [done|done|done|].
  intros j Hj.
  destruct (wf_lookups d j Hwf Hj) as (o & e & m & f & Ho & He & Hm & Hf & Hlm & Hlf).
  destruct (Forall2_lookup_l _ _ _ _ _ Hmask He) as (e' & He' & Hiff).
  unfold band_entry. cbn [with_errors obs_flux obs_flux_err replic_data
    n_replicated noiseless_flux]. rewrite Ho, He, He', Hm, Hf.
  destruct (Qgtb e' 0) eqn:G'.
  - apply Qgtb_true in G'. assert (G : (0 < e)%Q) by (by apply Hiff).
    assert (Gb : Qgtb e 0 = true) by (by apply Qgtb_true). rewrite Gb. cbn.
    unfold band_p_value. rewrite !count_exceeding by done.
    by rewrite (n_exceeding_any_error o e' e).
  - destruct (Qgtb e 0) eqn:G; [|done]. exfalso.
    apply Qgtb_true in G. apply Hiff in G. apply Qgtb_true in G. congruence.
Qed.

Lemma n_exceeding_filter (obs err : Q) (replicated noiseless : list Q) :
  n_exceeding obs err replicated noiseless =
  length (filter (fun p => obs_discrepancy obs err p.2 < repl_discrepancy p.1 err p.2)%Q
            (zip replicated noiseless)).
Proof.
  revert noiseless. induction replicated as [|r rs IH]; intros [|m ms]; try done.
  cbn [n_exceeding zip zip_with]. rewrite IH.
  destruct (Qlt_le_dec _ _) as [H|H].
  - by rewrite filter_cons_True.
  - rewrite filter_cons_False; [done|]. simpl. by apply Qle_not_lt.
Qed.

Lemma zip_to_nano (field noiseless : list Q) :
  zip (to_nano field) noiseless
  = map (fun p => (p.1 / (1 # 1000000000), p.2)%Q) (zip field noiseless).
Proof.
  revert noiseless. induction field as [|r rs IH]; intros [|m ms]; try done.
  cbn. f_equal. apply IH.
Qed.

(** X13.  The per-band p-values do not depend on the order of the replicated
    draws: a second input with the same observations whose draws are, band
    by band, those of the first in another order gives the same
    p-values. *)
Theorem p_value_bands_ignore_draw_order (d d' : ppc_input) :
  wf_input d -> wf_input d' ->
  obs_flux d' = obs_flux d -> obs_flux_err d' = obs_flux_err d ->
  n_replicated d' = n_replicated d -> n_bands d' = n_bands d ->
  (forall j field noiseless field' noiseless',
     replic_data d !! j = Some field -> noiseless_flux d !! j = Some noiseless ->
     replic_data d' !! j = Some field' -> noiseless_flux d' !! j = Some noiseless' ->
     zip field' noiseless' ≡ₚ zip field noiseless) ->
  result (p_value_bands d') = result (p_value_bands d).
Proof.
  intros Hwf Hwf' Eo Ee En Eb Hperm.
  apply p_value_bands_ext; [done|done|done|].
  intros j Hj. rewrite Eb in Hj.
  destruct (wf_lookups d j Hwf Hj) as (o & e & m & f & Ho & He & Hm & Hf & Hlm & Hlf).
  destruct (wf_lookups d' j Hwf') as (o' & e' & m' & f' & Ho' & He' & Hm' & Hf' & Hlm' & Hlf');
    [lia|].
  rewrite Eo, Ho in Ho'. injection Ho' as <-.
  rewrite Ee, He in He'. injection He' as <-.
  unfold band_entry. rewrite Eo, Ee, En, Ho, He, Hm, Hf, Hm', Hf'.
  destruct (Qgtb e 0); [|done]. cbn. unfold band_p_value.
  rewrite !count_exceeding by congruence. rewrite !n_exceeding_filter.
  rewrite !zip_to_nano.
  rewrite (Hperm j f m f' m' Hf Hm Hf' Hm'). done.
Qed.

(** ** More on the marginal plot (lines 187-277) *)

Lemma np_diff_short (wl : list Q) : (length wl <= 1)%nat -> np_diff wl = [].
Proof. destruct wl as [|a [|b wl]]; cbn; [done|done|lia]. Qed.

(** X14.  With fewer than two filters [plot_marginal] cannot draw anything:
    the smallest spacing between effective wavelengths is taken of an empty
    array, which raises, whatever the other inputs are. *)
Theorem marginal_figure_needs_two_filters
    (kde : list Q -> option (list Q) -> option violin) (f : filters)
    (obs_flux obs_flux_err : list Q) (model_sed : list (list Q))
    (probability : list Q) :
  (length (wl_eff f) <= 1)%nat ->
  marginal_figure kde f obs_flux obs_flux_err model_sed probability = None.
Proof.
  intros H. unfold marginal_figure. by rewrite (np_diff_short _ H).
Qed.

Lemma marginal_loop_empty_sample
    (kde : list Q -> option (list Q) -> option violin) (probability : list Q)
    (fields : list (list Q)) (i : nat) (st : marginal_state) :
  [] ∈ fields -> marginal_loop kde probability i fields st = None.
Proof.
  intros Hin. revert i st. induction fields as [|field fields IH]; intros i st.
  - by apply elem_of_nil in Hin.
  - cbn [marginal_loop]. apply elem_of_cons in Hin. destruct Hin as [<-|Hin].
    + done.
    + destruct (marginal_band kde probability st i field) as [st'|]; [|done].
      cbn [mbind option_bind]. by apply IH.
Qed.

(** X15.  A band without posterior samples makes [plot_marginal] raise: the
    smallest flux of an empty sample does not exist. *)
Theorem marginal_figure_empty_sample_raises
    (kde : list Q -> option (list Q) -> option violin) (f : filters)
    (obs_flux obs_flux_err : list Q) (model_sed : list (list Q))
    (probability : list Q) :
  [] ∈ model_sed ->
  marginal_figure kde f obs_flux obs_flux_err model_sed probability = None.
Proof.
  intros H. unfold marginal_figure.
  destruct (np_min (np_diff (wl_eff f))) as [width|]; [|done].
  cbn [mbind option_bind]. by rewrite (marginal_loop_empty_sample _ _ _ _ _ H).
Qed.

Lemma np_diff_lookup (wl : list Q) (k : nat) :
  np_diff wl !! k =
  match wl !! S k, wl !! k with
  | Some b, Some a => Some (b - a)%Q
  | _, _ => None
  end.
Proof.
  unfold np_diff. rewrite lookup_zip_with, lookup_drop. cbn [Nat.add].
  destruct (wl !! S k) as [b|] eqn:Hb; [|done]. cbn.
  assert (Hk : (S k < length wl)%nat) by (by apply lookup_lt_Some in Hb).
  rewrite lookup_take_lt by lia.
  destruct (lookup_lt_is_Some_2 wl k) as [a Ha]; [lia|]. by rewrite Ha.
Qed.

Lemma delta_wl_lookup (wl delta : list Q) (i : nat) :
  delta_wl wl = Some delta ->
  delta !! i = np_diff wl !! (i - 1)%nat.
Proof.
  unfold delta_wl. intros H.
  destruct (np_diff wl !! 0%nat) as [d0|] eqn:H0; [|done]. injection H as <-.
  destruct i as [|i]; [done|]. cbn. by rewrite Nat.sub_0_r.
Qed.

(** X16.  The spacing the second loop uses for a band.  For the first two
    bands it is the spacing between them; for band [i >= 2] it is the
    spacing between the bands [i-2] and [i-1], the two bands before it;
    beyond the last filter reading it raises. *)
Theorem band_dwl_is_spacing_of_previous_bands (wl delta : list Q) (i : nat) :
  delta_wl wl = Some delta ->
  ((i <= 1)%nat ->
   exists a b, wl !! 0%nat = Some a /\ wl !! 1%nat = Some b /\
               band_dwl delta i = Some (b - a)%Q) /\
  ((2 <= i)%nat -> (i < length wl)%nat ->
   exists a b, wl !! (i - 2)%nat = Some a /\ wl !! (i - 1)%nat = Some b /\
               band_dwl delta i = Some (b - a)%Q) /\
  ((length wl <= i)%nat -> (2 <= i)%nat -> band_dwl delta i = None).
Proof.
  intros Hd. pose proof (delta_wl_lookup wl delta) as HL.
  assert (H01 : exists a b, wl !! 0%nat = Some a /\ wl !! 1%nat = Some b).
  { unfold delta_wl in Hd. rewrite np_diff_lookup in Hd.
    destruct (wl !! 1%nat) as [b|]; [|done]. destruct (wl !! 0%nat) as [a|]; [|done].
    by exists a, b. }
  split; [|split].
  - intros Hi. destruct H01 as (a & b & Ha & Hb). exists a, b.
    split; [done|]. split; [done|]. unfold band_dwl.
    rewrite (HL i Hd), np_diff_lookup.
    replace (i - 1)%nat with 0%nat by lia. rewrite Ha, Hb. cbn [mbind option_bind].
    destruct i as [|[|i]]; [done|done|lia].
  - intros Hi Hlen.
    destruct (lookup_lt_is_Some_2 wl (i - 2)) as [a Ha]; [lia|].
    destruct (lookup_lt_is_Some_2 wl (i - 1)) as [b Hb]; [lia|].
    destruct (lookup_lt_is_Some_2 wl i) as [c Hc]; [lia|].
    exists a, b. split; [done|]. split; [done|]. unfold band_dwl.
    rewrite (HL i Hd), np_diff_lookup.
    replace (S (i - 1)) with i by lia. rewrite Hc, Hb. cbn [mbind option_bind].
    assert (Hlt : Nat.ltb 1 i = true) by (apply Nat.ltb_lt; lia). rewrite Hlt.
    assert (Hdrop : take 1 (drop (i - 1) delta) = [(b - a)%Q]).
    { apply list_eq. intros [|k].
      - rewrite lookup_take_lt by lia. rewrite lookup_drop, Nat.add_0_r.
        rewrite (HL _ Hd), np_diff_lookup.
        replace (S (i - 1 - 1)) with (i - 1)%nat by lia.
        replace (i - 1 - 1)%nat with (i - 2)%nat by lia. by rewrite Hb, Ha.
      - rewrite lookup_take_ge by lia. done. }
    by rewrite Hdrop.
  - intros Hlen Hi. unfold band_dwl.
    rewrite (HL i Hd), np_diff_lookup.
    replace (S (i - 1)) with i by lia.
    by rewrite (lookup_ge_None_2 wl i) by lia.
Qed.

Section Limits.

Local Open Scope Q_scope.

Lemma foldl_Qmin_le (a : list Q) (x : Q) :
  foldl Qmin x a <= x /\ Forall (fun y => foldl Qmin x a <= y) a.
Proof.
  revert x. induction a as [|y a IH]; intros x; cbn [foldl].
  - split; [apply Qle_refl | constructor].
  - destruct (IH (Qmin x y)) as [H1 H2]. split.
    + eapply Qle_trans; [exact H1 | apply Q.le_min_l].
    + constructor; [|done]. eapply Qle_trans; [exact H1 | apply Q.le_min_r].
Qed.

Lemma foldl_Qmax_ge (a : list Q) (x : Q) :
  x <= foldl Qmax x a /\ Forall (fun y => y <= foldl Qmax x a) a.
Proof.
  revert x. induction a as [|y a IH]; intros x; cbn [foldl].
  - split; [apply Qle_refl | constructor].
  - destruct (IH (Qmax x y)) as [H1 H2]. split.
    + eapply Qle_trans; [apply Q.le_max_l | exact H1].
    + constructor; [|done]. eapply Qle_trans; [apply Q.le_max_r | exact H1].
Qed.

(** [np.min] is below and [np.max] above every entry. *)
Lemma np_min_le (a : list Q) (m x : Q) : np_min a = Some m -> x ∈ a -> m <= x.
Proof.
  destruct a as [|y a]; [done|]. cbn [np_min]. intros [= <-] Hx.
  destruct (foldl_Qmin_le a y) as [H1 H2].
  apply elem_of_cons in Hx. destruct Hx as [->|Hx]; [done|].
  exact (proj1 (Forall_forall _ _) H2 x Hx).
Qed.

Lemma np_max_ge (a : list Q) (m x : Q) : np_max a = Some m -> x ∈ a -> x <= m.
Proof.
  destruct a as [|y a]; [done|]. cbn [np_max]. intros [= <-] Hx.
  destruct (foldl_Qmax_ge a y) as [H1 H2].
  apply elem_of_cons in Hx. destruct Hx as [->|Hx]; [done|].
  exact (proj1 (Forall_forall _ _) H2 x Hx).
Qed.

Lemma elem_of_where_positive_from (k : nat) (a : list Q) (i : nat) :
  i ∈ where_positive_from k a <->
  exists j x, i = (k + j)%nat /\ a !! j = Some x /\ 0 < x.
Proof.
  revert k. induction a as [|y a IH]; intros k; cbn [where_positive_from].
  - split; [by intros ?%elem_of_nil | by intros (j & x & _ & ? & _)].
  - destruct (Qgtb y 0) eqn:E.
    + apply Qgtb_true in E. rewrite elem_of_cons, IH. split.
      * intros [->|(j & x & -> & Hj & Hx)].
        -- exists 0%nat, y. split; [lia|done].
        -- exists (S j), x. split; [lia|done].
      * intros ([|j] & x & -> & Hj & Hx).
        -- left. lia.
        -- right. exists j, x. split; [lia|done].
    + apply Qgtb_false in E. rewrite IH. split.
      * intros (j & x & -> & Hj & Hx). exists (S j), x. split; [lia|done].
      * intros ([|j] & x & -> & Hj & Hx).
        -- simplify_eq/=. exfalso. by apply (Qlt_not_le _ _ Hx).
        -- exists j, x. split; [lia|done].
Qed.

Lemma elem_of_where_positive (a : list Q) (i : nat) :
  i ∈ where_positive a <-> exists x, a !! i = Some x /\ 0 < x.
Proof.
  unfold where_positive. rewrite elem_of_where_positive_from. split.
  - intros (j & x & -> & H). by exists x.
  - intros (x & H). by exists i, x.
Qed.

End Limits.

Section LimitsOfLoop.

Local Open Scope Q_scope.

Variable prepare_violin_plot : list Q -> option (list Q) -> option violin.

(** After the first loop [min_flux] and [max_flux] hold the smallest and
    the largest posterior flux of every band. *)
Lemma marginal_loop_min_max (probability : list Q) (model_sed : list (list Q))
    (st : marginal_state) (i : nat) (field : list Q) :
  marginal_loop prepare_violin_plot probability 0 model_sed
    (marginal_init (length model_sed)) = Some st ->
  model_sed !! i = Some field ->
  exists mn mx,
    np_min (map (fun x => x / nanoJy) field) = Some mn /\
    np_max (map (fun x => x / nanoJy) field) = Some mx /\
    min_flux st !! i = Some mn /\ max_flux st !! i = Some mx.
Proof.
  intros Hloop Hf.
  destruct (marginal_loop_band _ _ _ _ _ _ _ Hloop (marginal_init_size _))
    as (Hsz & _ & Hband).
  assert (Hi : (i < length model_sed)%nat) by (by apply lookup_lt_Some in Hf).
  destruct (Hband i field) as (s & s' & Hs & Hstep & Hsame); [lia| |].
  { by rewrite Nat.sub_0_r. }
  destruct Hs as (L1 & L2 & L3 & L4 & L5 & L6 & L7 & L8 & L9).
  destruct Hsame as (E1 & E2 & E3 & E4 & E5 & E6 & E7 & E8 & E9).
  unfold marginal_band in Hstep.
  destruct (np_min _) as [min_x|]; [|done].
  destruct (np_max _) as [max_x|]; [|done]. cbn [mbind option_bind] in Hstep.
  exists min_x, max_x. split; [done|]. split; [done|].
  destruct (Qeq_bool min_x max_x).
  - injection Hstep as <-. cbn in E4, E5.
    rewrite list_lookup_insert_eq in E4 by lia.
    rewrite list_lookup_insert_eq in E5 by lia. done.
  - destruct (prepare_violin_plot _ _) as [v|]; [|done].
    cbn [mbind option_bind] in Hstep.
    destruct (np_max (violin_y v)) as [m|]; [|done].
    injection Hstep as <-. cbn in E4, E5.
    rewrite list_lookup_insert_eq in E4 by lia.
    rewrite list_lookup_insert_eq in E5 by lia. done.
Qed.

End LimitsOfLoop.

(** X17.  The y-axis of the marginal plot shows every posterior flux and the
    lower end of the error bar of every observed band: when the first loop
    and the limits return, the limits are ordered, every posterior flux of
    every band lies between them, and so does the observed flux minus its
    error for every band with a positive error. *)
Theorem y_limits_cover_model_and_lower_error_bars
    (prepare_violin_plot : list Q -> option (list Q) -> option violin)
    (probability : list Q) (model_sed : list (list Q)) (st : marginal_state)
    (obs_flux obs_flux_err : list Q) (lo hi : Q) :
  marginal_loop prepare_violin_plot probability 0 model_sed
    (marginal_init (length model_sed)) = Some st ->
  y_limits obs_flux obs_flux_err st = Some (lo, hi) ->
  (lo <= hi)%Q /\
  (forall i field x, model_sed !! i = Some field -> x ∈ field ->
     (lo <= x / nanoJy /\ x / nanoJy <= hi)%Q) /\
  (forall i o e, obs_flux !! i = Some o -> obs_flux_err !! i = Some e ->
     (0 < e)%Q -> (lo <= o - e)%Q).
Proof.
  intros Hloop Hlim. unfold y_limits in Hlim.
  destruct (mapM (fun i => obs_flux !! i) _) as [obs_ok|] eqn:Hobs;
    cbn [mbind option_bind] in Hlim; [|done].
  destruct (mapM (fun i => obs_flux_err !! i) _) as [err_ok|] eqn:Herr;
    cbn [mbind option_bind] in Hlim; [|done].
  destruct (np_max (max_flux st)) as [yMax|] eqn:Hmax;
    cbn [mbind option_bind] in Hlim; [|done].
  destruct (np_min _) as [yMin|] eqn:Hmin; cbn [mbind option_bind] in Hlim; [|done].
  injection Hlim as <- <-.
  assert (Hbands : forall i field x, model_sed !! i = Some field -> x ∈ field ->
            (yMin <= x / nanoJy /\ x / nanoJy <= yMax)%Q).
  { intros i field x Hf Hx.
    destruct (marginal_loop_min_max _ _ _ _ _ _ Hloop Hf) as (mn & mx & Hmn & Hmx & Emn & Emx).
    assert (Hx' : (x / nanoJy)%Q ∈ map (fun x => (x / nanoJy)%Q) field).
    { apply list_elem_of_In, (in_map (fun x => (x / nanoJy)%Q)), list_elem_of_In, Hx. }
    split.
    - eapply Qle_trans; [|apply (np_min_le _ _ _ Hmn Hx')].
      apply (np_min_le _ _ _ Hmin). apply elem_of_app. right.
      by apply (list_elem_of_lookup_2 _ i).
    - eapply Qle_trans; [apply (np_max_ge _ _ _ Hmx Hx')|].
      apply (np_max_ge _ _ _ Hmax). by apply (list_elem_of_lookup_2 _ i). }
  assert (Hord : (yMin <= yMax)%Q).
  { destruct (max_flux st) as [|m0 rest] eqn:Emf; [done|].
    destruct model_sed as [|field0 fields].
    - cbn in Hloop. injection Hloop as <-. done.
    - destruct field0 as [|x field0].
      + by rewrite (marginal_loop_empty_sample _ _ _ _ _ (list_elem_of_here _ _)) in Hloop.
      + destruct (Hbands 0%nat (x :: field0) x eq_refl (list_elem_of_here _ _)) as [H1 H2].
        by eapply Qle_trans. }
  split; [|split].
  - lra.
  - intros i field x Hf Hx. destruct (Hbands i field x Hf Hx). lra.
  - intros i o e Ho He Hpos.
    assert (Hin : i ∈ where_positive obs_flux_err).
    { apply elem_of_where_positive. by exists e. }
    apply list_elem_of_lookup in Hin. destruct Hin as [p Hp].
    apply mapM_Some in Hobs. apply mapM_Some in Herr.
    destruct (Forall2_lookup_l _ _ _ _ _ Hobs Hp) as (o' & Ho' & Eo).
    destruct (Forall2_lookup_l _ _ _ _ _ Herr Hp) as (e' & He' & Ee).
    simplify_eq.
    assert (Hel : (o - e)%Q ∈ zip_with Qminus obs_ok err_ok ++ min_flux st).
    { apply elem_of_app. left. apply (list_elem_of_lookup_2 _ p).
      rewrite lookup_zip_with, Ho'. cbn. by rewrite He'. }
    pose proof (np_min_le _ _ _ Hmin Hel). lra.
Qed.

(** ** More on [ObservedCatalogue.extract_fluxes] (lines 57-103) *)

Section ExtractFacts.

Variable sqrt : Q -> Q.

Lemma extract_band_entry (f : filters) (row : gmap string Q) (a : Q)
    (st : list Q * list Q) (j : nat) :
  extract_band sqrt f row a st j =
  match extract_entry sqrt f row a j with
  | Some (x, e) => Some (<[j:=x]> st.1, <[j:=e]> st.2)
  | None => None
  end.
Proof.
  unfold extract_band, extract_entry.
  destruct (flux_colName f !! j) as [name|]; [|done]. cbn [mbind option_bind].
  destruct (row !! name) as [v|]; [|done]. cbn [mbind option_bind].
  destruct (flux_errcolName f !! j) as [ename|]; [|done]. cbn [mbind option_bind].
  destruct (row !! ename) as [e|]; [|done]. cbn [mbind option_bind].
  destruct (Qgtb _ 0); [|done].
  by destruct (min_rel_err f !! j).
Qed.

Lemma extract_loop_lookup (f : filters) (row : gmap string Q) (a : Q)
    (idx : list nat) :
  forall st st',
    extract_loop sqrt f row a idx st = Some st' ->
    length st'.1 = length st.1 /\ length st'.2 = length st.2 /\
    (forall j, j ∉ idx -> st'.1 !! j = st.1 !! j /\ st'.2 !! j = st.2 !! j) /\
    (NoDup idx ->
     forall j, j ∈ idx -> (j < length st.1)%nat -> (j < length st.2)%nat ->
       exists x e, extract_entry sqrt f row a j = Some (x, e) /\
                   st'.1 !! j = Some x /\ st'.2 !! j = Some e).
Proof.
  induction idx as [|i idx IH]; intros st st' H.
  - injection H as <-. repeat split; try done. intros _ j Hj. by apply elem_of_nil in Hj.
  - cbn [extract_loop] in H. rewrite extract_band_entry in H.
    destruct (extract_entry sqrt f row a i) as [[x e]|] eqn:E; [|done].
    cbn [mbind option_bind] in H.
    destruct (IH _ _ H) as (L1 & L2 & Hout & Hin). cbn [fst snd] in *.
    rewrite length_insert in L1, L2. split; [done|]. split; [done|]. split.
    + intros j Hj. apply not_elem_of_cons in Hj. destruct Hj as [Hne Hj].
      destruct (Hout j Hj) as [-> ->]. by rewrite !list_lookup_insert_ne.
    + intros Hnd j Hj H1 H2. apply NoDup_cons in Hnd. destruct Hnd as [Hni Hnd].
      apply elem_of_cons in Hj. destruct Hj as [->|Hj].
      * exists x, e. split; [done|]. destruct (Hout i Hni) as [-> ->].
        by rewrite !list_lookup_insert_eq.
      * apply (Hin Hnd j Hj); by rewrite length_insert.
Qed.

(** When [extract_fluxes] returns, it returns one flux and one error
    per band; the flux of a band is the catalogue value of its flux column
    times the aperture correction and the unit factor; the error of a band
    whose scaled catalogue error is not positive is that scaled error, and
    otherwise the relative error with the minimum relative error of the
    filter added in quadrature, times the flux. *)
Lemma extract_fluxes_per_band (data : catalogue) (f : filters) (ID : string)
    (a : Q) (flux flux_err : list Q) :
  extract_fluxes sqrt data f ID a = Some (flux, flux_err) ->
  length flux = filters_n_bands f /\ length flux_err = filters_n_bands f /\
  exists row, records data !! ID = Some row /\
    forall j, (j < filters_n_bands f)%nat ->
      exists name ename v e,
        flux_colName f !! j = Some name /\ row !! name = Some v /\
        flux_errcolName f !! j = Some ename /\ row !! ename = Some e /\
        flux !! j = Some (v * a * units f / Jy)%Q /\
        (~ (0 < e * a * units f / Jy)%Q ->
         flux_err !! j = Some (e * a * units f / Jy)%Q) /\
        ((0 < e * a * units f / Jy)%Q ->
         exists m, min_rel_err f !! j = Some m /\
           flux_err !! j =
           Some (sqrt (((e * a * units f / Jy) / (v * a * units f / Jy)) ^ 2 + m ^ 2)
                 * (v * a * units f / Jy))%Q).
Proof.
  unfold extract_fluxes, extract_row. intros H.
  destruct (records data !! ID) as [row|]; [|done]. cbn [mbind option_bind] in H.
  destruct (extract_loop_lookup _ _ _ _ _ _ H) as (L1 & L2 & _ & Hin).
  cbn [fst snd] in *. rewrite length_replicate in L1, L2.
  split; [done|]. split; [done|]. exists row. split; [done|].
  intros j Hj.
  destruct (Hin (NoDup_seq _ _) j) as (x & e' & Hent & Hx & He');
    [apply elem_of_seq; lia | by rewrite length_replicate.. |].
  unfold extract_entry in Hent.
  destruct (flux_colName f !! j) as [name|] eqn:E1; cbn [mbind option_bind] in Hent; [|done].
  destruct (row !! name) as [v|] eqn:E2; cbn [mbind option_bind] in Hent; [|done].
  destruct (flux_errcolName f !! j) as [ename|] eqn:E3; cbn [mbind option_bind] in Hent; [|done].
  destruct (row !! ename) as [e|] eqn:E4; cbn [mbind option_bind] in Hent; [|done].
  exists name, ename, v, e. do 4 (split; [done|]).
  destruct (Qgtb (e * a * units f / Jy) 0) eqn:G.
  - destruct (min_rel_err f !! j) as [m|] eqn:E5; cbn [mbind option_bind] in Hent; [|done].
    injection Hent as <- <-. split; [done|]. split.
    + intros Hn. exfalso. apply Hn. by apply Qgtb_true.
    + intros _. by exists m.
  - injection Hent as <- <-. split; [done|]. split; [done|].
    intros Hp. apply Qgtb_true in Hp. congruence.
Qed.

(** X18.  [extract_fluxes] raises for an object that is not in the catalogue
    and for a filter whose flux or error column the catalogue row does not
    hold. *)
Theorem extract_fluxes_missing_raises (data : catalogue) (f : filters) (ID : string)
    (a : Q) :
  (records data !! ID = None \/
   exists row j name,
     records data !! ID = Some row /\ (j < filters_n_bands f)%nat /\
     (flux_colName f !! j = Some name \/ flux_errcolName f !! j = Some name) /\
     row !! name = None) ->
  extract_fluxes sqrt data f ID a = None.
Proof.
  intros H.
  destruct (extract_fluxes sqrt data f ID a) as [[flux flux_err]|] eqn:E; [|done].
  exfalso. destruct (extract_fluxes_per_band _ _ _ _ _ _ E) as (_ & _ & row & Hrow & Hj).
  destruct H as [H|(row' & j & name & Hrow' & Hlt & Hname & Hnone)]; [congruence|].
  assert (row' = row) by congruence. subst row'.
  destruct (Hj j Hlt) as (n1 & n2 & v & e & H1 & H2 & H3 & H4 & _).
  destruct Hname as [Hname|Hname]; congruence.
Qed.

End ExtractFacts.

Section ObservedBands.

Local Open Scope Q_scope.

Variable sqrt : Q -> Q.
Variable pow10 : Q -> Q.

Lemma Jy_positive : 0 < Jy.
Proof. reflexivity. Qed.

Lemma scaled_positive_iff (x u : Q) : 0 < u -> (0 < x * 1 * u / Jy <-> 0 < x).
Proof.
  intros Hu. pose proof Jy_positive as HJ. split.
  - intros H. apply (Qmult_lt_r _ _ Jy HJ) in H.
    rewrite Qmult_0_l in H. unfold Qdiv in H.
    rewrite <- Qmult_assoc, (Qmult_comm (/ Jy)), Qmult_inv_r, Qmult_1_r in H
      by (intros E; rewrite E in HJ; by apply Qlt_irrefl in HJ).
    nra.
  - intros H. apply Qlt_shift_div_l; [done|]. rewrite Qmult_0_l. nra.
Qed.

Lemma product_not_positive (s x c : Q) :
  0 < s -> x < 0 -> 0 < c -> ~ 0 < s * x * c.
Proof.
  intros Hs Hx Hc H.
  assert (Hp : 0 < s * (- x) * c).
  { apply Qmult_lt_0_compat; [|done]. apply Qmult_lt_0_compat; lra. }
  assert (Heq : s * x * c == - (s * (- x) * c)) by ring.
  apply (Qlt_irrefl 0). apply (Qlt_trans _ _ _ H).
  eapply Qle_lt_trans; [apply Qle_lteq; right; exact Heq|]. lra.
Qed.

(** X19.  Which bands the plotters use.  With a unit factor and a square root
    that are positive, a band whose catalogue flux is not zero is among
    the bands with a positive error ([ok], [ok_bands]) exactly when its
    catalogue flux and its catalogue error are both positive: a band with
    a positive error but a negative flux gets a negative error from the
    sum in quadrature and is dropped like a band without measurement.  (A
    flux of exactly zero is left out: numpy divides by it and yields
    [nan], which the rationals do not represent.) *)
Theorem band_used_iff_flux_and_error_positive (data : catalogue) (f : filters)
    (ID : string) (obs errs : list Q) (row : gmap string Q) (j : nat)
    (name ename : string) (v e : Q) :
  (forall x, 0 < x -> 0 < sqrt x) -> 0 < units f ->
  observed_photometry sqrt pow10 data f ID = Some (obs, errs) ->
  records data !! ID = Some row -> (j < filters_n_bands f)%nat ->
  flux_colName f !! j = Some name -> row !! name = Some v ->
  flux_errcolName f !! j = Some ename -> row !! ename = Some e ->
  ~ v == 0 ->
  j ∈ where_positive errs <-> (0 < v /\ 0 < e).
Proof.
  intros Hsqrt Hu Hobs Hrow Hj Hname Hv Hename He Hv0.
  unfold observed_photometry in Hobs. unfold extract_row in Hobs. rewrite Hrow in Hobs.
  cbn [mbind option_bind] in Hobs.
  destruct (if bool_decide _ then _ else _) as [ac|]; cbn [mbind option_bind] in Hobs;
    [|done].
  destruct (extract_fluxes sqrt data f ID 1) as [[flux flux_err]|] eqn:E;
    cbn [mbind option_bind] in Hobs; [|done].
  injection Hobs as <- <-.
  destruct (extract_fluxes_per_band _ _ _ _ _ _ _ E) as (_ & _ & row' & Hrow' & Hband).
  assert (row' = row) by congruence. subst row'.
  destruct (Hband j Hj) as (n1 & n2 & v' & e' & H1 & H2 & H3 & H4 & _ & Hmask & Hpos).
  simplify_eq.
  rewrite elem_of_where_positive.
  pose proof (scaled_positive_iff v _ Hu) as Sv.
  pose proof (scaled_positive_iff e _ Hu) as Se.
  set (F := v * 1 * units f / Jy) in *. set (G := e * 1 * units f / Jy) in *.
  assert (H9 : (0 < inject_Z (10 ^ 9))) by reflexivity.
  destruct (Qlt_le_dec 0 G) as [HG|HG].
  - destruct (Hpos HG) as (m & Hm & Herr).
    assert (Hx : map (fun x => x * inject_Z (10 ^ 9)) flux_err !! j
                 = Some (sqrt ((G / F) ^ 2 + m ^ 2) * F * inject_Z (10 ^ 9))).
    { by rewrite map_lookup, Herr. }
    rewrite Hx. split.
    + intros (x & [= <-] & Hxpos). split; [|by apply Se].
      apply Sv. destruct (Qlt_le_dec 0 F) as [HF|HF]; [done|]. exfalso.
      destruct (Qle_lt_or_eq _ _ HF) as [HF'|HF'].
      * assert (Harg : 0 < (G / F) ^ 2 + m ^ 2).
        { assert (HGF : ~ G / F == 0).
          { intros E0. apply (Qmult_inj_r _ _ F) in E0;
              [|intros E1; rewrite E1 in HF'; by apply Qlt_irrefl in HF'].
            rewrite Qmult_0_l in E0. unfold Qdiv in E0.
            rewrite <- Qmult_assoc, (Qmult_comm (/ F)), Qmult_inv_r, Qmult_1_r in E0
              by (intros E1; rewrite E1 in HF'; by apply Qlt_irrefl in HF').
            rewrite E0 in HG. by apply Qlt_irrefl in HG. }
          simpl. assert (0 <= m * m) by nra.
          assert (0 < (G / F) * (G / F)) by (destruct (Q_dec (G / F) 0) as [[?|?]|?]; [nra|nra|done]).
          nra. }
        specialize (Hsqrt _ Harg).
        exact (product_not_positive _ F (inject_Z (10 ^ 9)) Hsqrt HF' H9 Hxpos).
      * apply Hv0. unfold F in HF'.
        apply (Qmult_inj_r _ _ (1 * units f / Jy)).
        { intros E0. pose proof (scaled_positive_iff 1 _ Hu) as [_ S1].
          rewrite Qmult_1_l in S1. specialize (S1 eq_refl).
          rewrite E0 in S1. by apply Qlt_irrefl in S1. }
        rewrite Qmult_0_l, <- HF'. unfold Qdiv. ring.
    + intros [Hv' He']. eexists. split; [done|]. apply Sv in Hv'.
      assert (Harg : 0 < (G / F) ^ 2 + m ^ 2).
      { assert (0 < G / F) by (apply Qlt_shift_div_l; [done|]; by rewrite Qmult_0_l).
        simpl. assert (0 <= m * m) by nra. nra. }
      specialize (Hsqrt _ Harg).
      apply Qmult_lt_0_compat; [|done]. by apply Qmult_lt_0_compat.
  - assert (Hx : map (fun x => x * inject_Z (10 ^ 9)) flux_err !! j
                 = Some (G * inject_Z (10 ^ 9))).
    { rewrite map_lookup, Hmask; [done|]. by apply Qle_not_lt. }
    rewrite Hx. split.
    + intros (x & [= <-] & Hxpos). exfalso. nra.
    + intros [_ He']. apply Se in He'. exfalso. by apply (Qlt_not_le _ _ He').
Qed.

End ObservedBands.

(** ** The weighted average and standard deviation *)

Section Averages.

Local Open Scope Q_scope.










Lemma np_average_Some (a w : list Q) (avg : Q) :
  np_average a w = Some avg <->
  length a = length w /\ ~ Qsum w == 0 /\ avg = Qsum (zip_with Qmult a w) / Qsum w.
Proof.
  unfold np_average. destruct (Nat.eqb_spec (length a) (length w)) as [E|E]; cbn [negb].
  - destruct (Qeq_bool (Qsum w) 0) eqn:G.
    + apply Qeq_bool_iff in G. split; [done|]. by intros (_ & H & _).
    + split.
      * intros [= <-]. split; [done|]. split; [|done].
        intros H. apply Qeq_bool_iff in H. congruence.
      * by intros (_ & _ & ->).
  - split; [done|]. by intros (H & _).
Qed.

Lemma np_average_None (a w : list Q) :
  np_average a w = None <-> length a <> length w \/ Qsum w == 0.
Proof.
  unfold np_average. destruct (Nat.eqb_spec (length a) (length w)) as [E|E]; cbn [negb].
  - destruct (Qeq_bool (Qsum w) 0) eqn:G.
    + apply Qeq_bool_iff in G. split; [by right|done].
    + split; [done|]. intros [H|H]; [done|]. apply Qeq_bool_iff in H. congruence.
  - split; [by left|done].
Qed.

Section Std.

Variable sqrt : Q -> Q.

(** X20.  [weighted_avg_and_std] returns exactly when there is one weight per
    value and the weights do not sum to zero; otherwise it raises.  In
    particular it raises on an empty sample. *)
Theorem weighted_avg_and_std_returns_iff (values weights : list Q) :
  is_Some (weighted_avg_and_std sqrt values weights) <->
  length values = length weights /\ ~ Qsum weights == 0.
Proof.
  unfold weighted_avg_and_std. split.
  - intros [[a s] H].
    destruct (np_average values weights) as [avg|] eqn:E; [|done].
    apply np_average_Some in E. by destruct E as (? & ? & _).
  - intros [HL Hw].
    destruct (np_average values weights) as [avg|] eqn:E.
    + cbn [mbind option_bind].
      destruct (np_average (map _ values) weights) as [var|] eqn:E2; [by eexists|].
      apply np_average_None in E2. rewrite length_map in E2. by destruct E2.
    + apply np_average_None in E. by destruct E.
Qed.




End Std.

End Averages.

(** ** The grid of replicated draws (lines 549-653) *)










Section GridLimits.

Local Open Scope Q_scope.


End GridLimits.

(** ** The residual violins of the replicated-data plot (lines 609-641) *)

Section ResidualViolinFacts.

Local Open Scope Q_scope.

Variable prepare_violin_plot : list Q -> option (list Q) -> option violin.

(** X25.  The violin of band [j] in the first subplot of the replicated-data
    plot.  When the density estimate of the residuals of the band is
    returned with a support grid as long as the density, a positive
    largest density, and the spacing read for the band is not negative,
    the filled shape is drawn and its largest half-width is 40% of that
    spacing, which is the distance between band [j] and the band before
    it (for the first band, the distance to the second): unlike
    [plot_marginal], no band takes the spacing of the two bands before
    it. *)
Theorem residual_violin_half_width (wl delta : list Q)
    (residual_fluxes : list (list Q)) (j : nat) (residual : list Q) (v : violin)
    (wl_j dwl my : Q) :
  residual_fluxes !! j = Some residual ->
  prepare_violin_plot residual None = Some v ->
  length (violin_x v) = length (violin_y v) ->
  np_max (violin_y v) = Some my -> 0 < my ->
  wl !! j = Some wl_j ->
  delta_wl wl = Some delta -> delta !! j = Some dwl -> 0 <= dwl ->
  exists left right rest h,
    residual_violin prepare_violin_plot wl delta residual_fluxes j
    = Some (FillBetweenx (violin_x v) left right :: rest) /\
    max_half_width wl_j (FillBetweenx (violin_x v) left right) = Some h /\
    h == (4 # 10) * dwl /\
    exists a b, wl !! (Nat.max j 1 - 1)%nat = Some a /\ wl !! Nat.max j 1 = Some b /\
                dwl = b - a.
Proof.
  intros Hres Hv Hlen Hmax Hmy Hwl Hdelta Hdwl Hd.
  set (w := (4 # 10) * dwl / my).
  set (half := map (fun y => y * w) (violin_y v)).
  set (y_grid := replicate (length (violin_x v)) wl_j).
  assert (Lh : length half = length (violin_y v)) by (unfold half; by rewrite length_map).
  assert (Lg : length y_grid = length (violin_y v)).
  { unfold y_grid. by rewrite length_replicate. }
  assert (Hw : 0 <= w).
  { unfold w. apply Qle_shift_div_l; [done|]. rewrite Qmult_0_l.
    apply Qmult_le_0_compat; [done|done]. }
  destruct (np_max_scale (violin_y v) w my Hw Hmax) as (h & Hh & Hhw).
  fold half in Hh.
  destruct (np_max_pointwise half (map (fun x => x - wl_j) (zip_with Qplus y_grid half)) h)
    as (h' & Hh' & Heq); [|done|].
  { apply Forall2_same_length_lookup_2.
    - rewrite length_map, length_zip_with. lia.
    - intros k a b Ha Hb. rewrite map_lookup, lookup_zip_with in Hb.
      assert (Hg : y_grid !! k = Some wl_j).
      { unfold y_grid. apply lookup_replicate_2. apply lookup_lt_Some in Ha. lia. }
      rewrite Hg in Hb. cbn in Hb. rewrite Ha in Hb. cbn in Hb.
      injection Hb as <-. ring. }
  exists (zip_with Qminus y_grid half), (zip_with Qplus y_grid half).
  eexists. exists h'. split; [|split; [|split]].
  - unfold residual_violin. rewrite Hres. cbn [mbind option_bind].
    rewrite Hv. cbn [mbind option_bind]. rewrite Hdwl. cbn [mbind option_bind].
    rewrite Hmax. cbn [mbind option_bind]. rewrite Hwl. cbn [mbind option_bind].
    fold w. fold half. fold y_grid. rewrite Lg, Lh, Nat.eqb_refl. done.
  - done.
  - rewrite Heq, Hhw. unfold w. field.
    intros H0. rewrite H0 in Hmy. by apply Qlt_irrefl in Hmy.
  - rewrite (delta_wl_lookup wl delta j Hdelta), np_diff_lookup in Hdwl.
    replace (Nat.max j 1) with (S (j - 1)) by lia.
    replace (S (j - 1) - 1)%nat with (j - 1)%nat by lia.
    destruct (wl !! S (j - 1)) as [b|]; [|done].
    destruct (wl !! (j - 1)%nat) as [a|]; [|done].
    injection Hdwl as <-. by exists a, b.
Qed.

End ResidualViolinFacts.

(** The first band of the bands at 1000, 2000 and 2100 Angstrom, with the
    residuals 1 and 3. *)
Lemma residual_violin_witness :
  exists left right rest h,
    residual_violin uniform_violin [1000; 2000; 2100]%Q [1000; 1000; 100]%Q
      [[1; 3]; [2; 4]; [5; 6]]%Q 0
    = Some (FillBetweenx [1; 3]%Q left right :: rest) /\
    max_half_width 1000%Q (FillBetweenx [1; 3]%Q left right) = Some h /\
    (h == (4 # 10) * 1000)%Q.
Proof.
  eassert (Hv : uniform_violin [1; 3]%Q None = Some _) by reflexivity.
  match type of Hv with
  | _ = Some ?v =>
      destruct (residual_violin_half_width uniform_violin [1000; 2000; 2100]%Q
                  [1000; 1000; 100]%Q [[1; 3]; [2; 4]; [5; 6]]%Q 0 [1; 3]%Q v
                  1000%Q 1000%Q (1 / (3 - 1))%Q eq_refl Hv eq_refl)
        as (left & right & rest & h & Hart & Hh & Heq & _)
  end.
  - reflexivity.
  - reflexivity.
  - reflexivity.
  - reflexivity.
  - reflexivity.
  - discriminate.
  - exists left, right, rest, h. split; [exact Hart|]. split; [exact Hh | exact Heq].
Defined.

(** ** Matching the IDs of two catalogues (lines 129-197) *)

Lemma Sorted_le_lookup (a : list Z) :
  Sorted Z.le a ->
  forall i j y z, (i <= j)%nat -> a !! i = Some y -> a !! j = Some z -> (y <= z)%Z.
Proof.
  intros Hs. apply (Sorted_StronglySorted _) in Hs.
  induction Hs as [|x a Hs IH Hall]; intros i j y z Hij Hi Hj; [done|].
  destruct i as [|i], j as [|j]; simplify_eq/=; try lia.
  - apply (proj1 (Forall_forall _ _) Hall). by apply (list_elem_of_lookup_2 _ j).
  - apply (IH i j); [lia|done|done].
Qed.

Lemma half_between (lo hi : nat) :
  (lo < hi)%nat -> (lo <= (lo + hi) / 2)%nat /\ ((lo + hi) / 2 < hi)%nat.
Proof.
  intros H. pose proof (Nat.div_mod_eq (lo + hi) 2) as E.
  pose proof (Nat.mod_upper_bound (lo + hi) 2). lia.
Qed.

(** On a sorted array [bisect_left] returns, and returns the number of
    entries smaller than [x]: the entries before the position returned are
    smaller than [x], the others are not. *)
Lemma bisect_loop_spec (fuel : nat) (a : list Z) (x : Z) :
  Sorted Z.le a ->
  forall lo hi,
    (lo <= hi)%nat -> (hi <= length a)%nat -> (hi - lo <= fuel)%nat ->
    (forall j y, (j < lo)%nat -> a !! j = Some y -> (y < x)%Z) ->
    (forall j y, (hi <= j)%nat -> a !! j = Some y -> (x <= y)%Z) ->
    exists i, bisect_loop fuel a x lo hi = Some i /\ (i <= length a)%nat /\
      (forall j y, (j < i)%nat -> a !! j = Some y -> (y < x)%Z) /\
      (forall j y, (i <= j)%nat -> a !! j = Some y -> (x <= y)%Z).
Proof.
  intros Hs. pose proof (Sorted_le_lookup a Hs) as Hmono.
  induction fuel as [|fuel IH]; intros lo hi Hlh Hhi Hfuel Hlow Hhigh.
  - cbn [bisect_loop]. destruct (Nat.ltb_spec lo hi) as [Hlt|Hge]; [lia|].
    exists lo. split; [done|]. split; [lia|]. split; [done|].
    intros j y Hj. apply Hhigh. lia.
  - cbn [bisect_loop]. destruct (Nat.ltb_spec lo hi) as [Hlt|Hge].
    + destruct (half_between lo hi Hlt) as [H1 H2].
      destruct (lookup_lt_is_Some_2 a ((lo + hi) / 2)) as [a_mid Hmid]; [lia|].
      rewrite Hmid. cbn [mbind option_bind].
      destruct (Z.ltb_spec a_mid x) as [Hax|Hax].
      * apply IH; [lia|lia|lia| |done].
        intros j y Hj Hy.
        pose proof (Hmono j ((lo + hi) / 2)%nat y a_mid ltac:(lia) Hy Hmid) as Hle. lia.
      * apply IH; [lia|lia|lia|done|].
        intros j y Hj Hy.
        pose proof (Hmono ((lo + hi) / 2)%nat j a_mid y ltac:(lia) Hmid Hy) as Hle. lia.
    + exists lo. split; [done|]. split; [lia|]. split; [done|].
      intros j y Hj. apply Hhigh. lia.
Qed.

Lemma bisect_left_spec (a : list Z) (x : Z) :
  Sorted Z.le a ->
  exists i, bisect_left a x = Some i /\ (i <= length a)%nat /\
    (forall j y, (j < i)%nat -> a !! j = Some y -> (y < x)%Z) /\
    (forall j y, (i <= j)%nat -> a !! j = Some y -> (x <= y)%Z).
Proof.
  intros Hs. unfold bisect_left. apply bisect_loop_spec; try done; try lia.
  intros j y Hj Hy. apply lookup_lt_Some in Hy. lia.
Qed.

(** On any array, sorted or not, [bisect_left] returns a position of the
    array or its length. *)
Lemma bisect_loop_bounds (fuel : nat) (a : list Z) (x : Z) (lo hi i : nat) :
  (lo <= hi)%nat -> bisect_loop fuel a x lo hi = Some i -> (lo <= i <= hi)%nat.
Proof.
  revert lo hi. induction fuel as [|fuel IH]; intros lo hi Hlh H; cbn [bisect_loop] in H.
  - destruct (Nat.ltb_spec lo hi); [done|]. injection H as <-. lia.
  - destruct (Nat.ltb_spec lo hi) as [Hlt|Hge]; [|injection H as <-; lia].
    destruct (half_between lo hi Hlt) as [H1 H2].
    destruct (a !! ((lo + hi) / 2)%nat) as [a_mid|]; [|done]. cbn [mbind option_bind] in H.
    destruct (a_mid <? x)%Z; apply IH in H; lia.
Qed.

(** On any array, sorted or not, the loop of [bisect_left] ends within
    [length a] iterations. *)
Lemma bisect_loop_total (fuel : nat) (a : list Z) (x : Z) :
  forall lo hi,
    (lo <= hi)%nat -> (hi <= length a)%nat -> (hi - lo <= fuel)%nat ->
    exists i, bisect_loop fuel a x lo hi = Some i.
Proof.
  induction fuel as [|fuel IH]; intros lo hi Hlh Hhi Hfuel; cbn [bisect_loop].
  - destruct (Nat.ltb_spec lo hi) as [Hlt|Hge]; [lia|]. by exists lo.
  - destruct (Nat.ltb_spec lo hi) as [Hlt|Hge]; [|by exists lo].
    destruct (half_between lo hi Hlt) as [H1 H2].
    destruct (lookup_lt_is_Some_2 a ((lo + hi) / 2)) as [a_mid Hmid]; [lia|].
    rewrite Hmid. cbn [mbind option_bind].
    destruct (a_mid <? x)%Z; apply IH; lia.
Qed.

Lemma bisect_left_total (a : list Z) (x : Z) : exists i, bisect_left a x = Some i.
Proof. unfold bisect_left. apply bisect_loop_total; lia. Qed.

(** *** Soundness, whatever the sorting *)

Lemma match_step_sound (ID_long ID_short : list Z) (sort_long sort_short : list nat)
    (st st' : list Z * list Z) (i : nat) :
  Forall (matched_in ID_long ID_short) st.1 ->
  Forall (matched_in ID_short ID_long) st.2 ->
  match_step ID_long ID_short sort_long sort_short st i = Some st' ->
  Forall (matched_in ID_long ID_short) st'.1 /\
  Forall (matched_in ID_short ID_long) st'.2.
Proof.
  intros H1 H2 H. unfold match_step in H.
  destruct (take_at ID_long sort_long) as [sorted_long|]; [|done].
  cbn [mbind option_bind] in H.
  destruct (sort_short !! i) as [s|]; [|done]. cbn [mbind option_bind] in H.
  destruct (ID_short !! s) as [x|] eqn:Hx; [|done]. cbn [mbind option_bind] in H.
  destruct (bisect_left sorted_long x) as [i1|]; [|done]. cbn [mbind option_bind] in H.
  destruct (Nat.ltb i1 (length ID_long)); [|by injection H as <-].
  destruct (sort_long !! i1) as [l|]; [|done]. cbn [mbind option_bind] in H.
  destruct (ID_long !! l) as [y|] eqn:Hy; [|done]. cbn [mbind option_bind] in H.
  destruct (Z.eqb_spec y x) as [->|Hne]; [|by injection H as <-].
  injection H as <-. cbn [fst snd]. split.
  - apply Forall_insert; [done|]. right. exists l, x. split; [done|]. split; [done|].
    by apply (list_elem_of_lookup_2 _ s).
  - apply Forall_insert; [done|]. right. exists s, x. split; [done|]. split; [done|].
    by apply (list_elem_of_lookup_2 _ l).
Qed.

Lemma match_loop_sound (ID_long ID_short : list Z) (sort_long sort_short : list nat)
    (idx : list nat) :
  forall st st',
    Forall (matched_in ID_long ID_short) st.1 ->
    Forall (matched_in ID_short ID_long) st.2 ->
    match_loop ID_long ID_short sort_long sort_short idx st = Some st' ->
    Forall (matched_in ID_long ID_short) st'.1 /\
    Forall (matched_in ID_short ID_long) st'.2.
Proof.
  induction idx as [|i idx IH]; intros st st' H1 H2 H; cbn [match_loop] in H.
  - by injection H as <-.
  - destruct (match_step _ _ _ _ st i) as [st1|] eqn:E; [|done].
    cbn [mbind option_bind] in H.
    destruct (match_step_sound _ _ _ _ _ _ _ H1 H2 E) as [H1' H2'].
    by apply (IH st1 st').
Qed.

Lemma keep_matched_sound (a b : list Z) (vs : list Z) :
  Forall (matched_in a b) vs ->
  Forall (fun v => exists k x, v = Z.of_nat k /\ a !! k = Some x /\ x ∈ b)
    (keep_matched vs).
Proof.
  intros H. unfold keep_matched. apply Forall_forall. intros v Hv.
  apply list_elem_of_filter in Hv. destruct Hv as [Hpos Hv].
  destruct (proj1 (Forall_forall _ _) H v Hv) as [->|Hk]; [lia|done].
Qed.

Lemma matched_in_replicate (a b : list Z) (n : nat) :
  Forall (matched_in a b) (replicate n (-1)%Z).
Proof. apply Forall_replicate. by left. Qed.

Lemma take_at_valid (a : list Z) (idx : list nat) :
  valid_indices a idx -> exists sa, take_at a idx = Some sa.
Proof.
  intros [_ Hall]. unfold take_at.
  destruct (mapM (fun i => a !! i) idx) as [sa|] eqn:E; [by exists sa|].
  exfalso. apply mapM_None in E. apply Exists_exists in E.
  destruct E as (i & Hi & Hnone).
  pose proof (proj1 (Forall_forall _ _) Hall i Hi) as Hlt. simpl in Hlt.
  apply lookup_ge_None in Hnone. lia.
Qed.

Lemma valid_indices_seq (a : list Z) : valid_indices a (seq 0 (length a)).
Proof.
  split; [by rewrite length_seq|]. apply Forall_forall. intros i Hi.
  apply elem_of_seq in Hi. lia.
Qed.

Lemma match_step_total (ID_long ID_short : list Z) (sort_long sort_short : list nat)
    (st : list Z * list Z) (i : nat) :
  valid_indices ID_long sort_long -> valid_indices ID_short sort_short ->
  (i < length ID_short)%nat ->
  exists st', match_step ID_long ID_short sort_long sort_short st i = Some st'.
Proof.
  intros VL VS Hi. unfold match_step.
  destruct (take_at_valid _ _ VL) as [sorted_long ->]. cbn [mbind option_bind].
  destruct VL as [LL AL]. destruct VS as [LS AS].
  destruct (lookup_lt_is_Some_2 sort_short i) as [s Hs]; [lia|].
  rewrite Hs. cbn [mbind option_bind].
  pose proof (proj1 (Forall_forall _ _) AS s (list_elem_of_lookup_2 _ _ _ Hs)) as Hslt.
  simpl in Hslt.
  destruct (lookup_lt_is_Some_2 ID_short s) as [x Hx]; [done|].
  rewrite Hx. cbn [mbind option_bind].
  destruct (bisect_left_total sorted_long x) as [i1 ->]. cbn [mbind option_bind].
  destruct (Nat.ltb_spec i1 (length ID_long)) as [Hlt|Hge]; [|by eexists].
  destruct (lookup_lt_is_Some_2 sort_long i1) as [l Hl]; [lia|].
  rewrite Hl. cbn [mbind option_bind].
  pose proof (proj1 (Forall_forall _ _) AL l (list_elem_of_lookup_2 _ _ _ Hl)) as Hllt.
  simpl in Hllt.
  destruct (lookup_lt_is_Some_2 ID_long l) as [y Hy]; [done|].
  rewrite Hy. cbn [mbind option_bind].
  destruct (y =? x)%Z; by eexists.
Qed.

Lemma match_loop_total (ID_long ID_short : list Z) (sort_long sort_short : list nat)
    (idx : list nat) (st : list Z * list Z) :
  valid_indices ID_long sort_long -> valid_indices ID_short sort_short ->
  Forall (fun i => (i < length ID_short)%nat) idx ->
  exists st', match_loop ID_long ID_short sort_long sort_short idx st = Some st'.
Proof.
  intros VL VS Hidx. revert st.
  induction Hidx as [|i idx Hi _ IH]; intros st; cbn [match_loop]; [by eexists|].
  destruct (match_step_total _ _ _ _ st i VL VS Hi) as [st1 ->].
  cbn [mbind option_bind]. apply IH.
Qed.

(** X26.  Whether or not the lists are sorted as the caller says, and whatever
    order [argsort] puts the indices in, [match_ID] returns, every index
    returned for a list is an index of that list, and the ID found there
    occurs in the other list. *)
Theorem match_ID_indices_point_to_common_IDs (argsort : list Z -> list nat)
    (ID_list_1 ID_list_2 : list Z) (sorted : bool) :
  (sorted = false ->
   valid_indices ID_list_1 (argsort ID_list_1) /\
   valid_indices ID_list_2 (argsort ID_list_2)) ->
  exists indices_1 indices_2,
    match_ID argsort ID_list_1 ID_list_2 sorted = Some (indices_1, indices_2) /\
    Forall (fun v => exists k x, v = Z.of_nat k /\ ID_list_1 !! k = Some x /\
                                 x ∈ ID_list_2) indices_1 /\
    Forall (fun v => exists k x, v = Z.of_nat k /\ ID_list_2 !! k = Some x /\
                                 x ∈ ID_list_1) indices_2.
Proof.
  intros Hvalid.
  assert (V1 : valid_indices ID_list_1
                 (if negb sorted then argsort ID_list_1 else seq 0 (length ID_list_1))).
  { destruct sorted; [apply valid_indices_seq | by apply Hvalid]. }
  assert (V2 : valid_indices ID_list_2
                 (if negb sorted then argsort ID_list_2 else seq 0 (length ID_list_2))).
  { destruct sorted; [apply valid_indices_seq | by apply Hvalid]. }
  assert (Hseq : forall n, Forall (fun i => (i < n)%nat) (seq 0 n)).
  { intros n. apply Forall_forall. intros i Hi. apply elem_of_seq in Hi. lia. }
  unfold match_ID.
  destruct (Nat.leb (length ID_list_2) (length ID_list_1)).
  - destruct (match_loop_total ID_list_1 ID_list_2 _ _ (seq 0 (length ID_list_2))
                (replicate (length ID_list_1) (-1)%Z, replicate (length ID_list_2) (-1)%Z)
                V1 V2 (Hseq _)) as [st E].
    rewrite E. cbn [mbind option_bind]. eexists _, _. split; [done|].
    apply match_loop_sound in E; [|apply matched_in_replicate..].
    destruct E as [H1 H2]. split; by apply keep_matched_sound.
  - destruct (match_loop_total ID_list_2 ID_list_1 _ _ (seq 0 (length ID_list_1))
                (replicate (length ID_list_2) (-1)%Z, replicate (length ID_list_1) (-1)%Z)
                V2 V1 (Hseq _)) as [st E].
    rewrite E. cbn [mbind option_bind]. eexists _, _. split; [done|].
    apply match_loop_sound in E; [|apply matched_in_replicate..].
    destruct E as [H1 H2]. split; by apply keep_matched_sound.
Qed.

(** *** The matches of lists without repeated IDs *)

Lemma take_at_lookup (a : list Z) (idx : list nat) (sa : list Z) :
  take_at a idx = Some sa ->
  length sa = length idx /\
  forall k l y, idx !! k = Some l -> sa !! k = Some y -> a !! l = Some y.
Proof.
  unfold take_at. intros H. split; [symmetry; by apply length_mapM in H|].
  apply mapM_Some in H. intros k l y Hl Hy.
  destruct (Forall2_lookup_l _ _ _ _ _ H Hl) as (y' & Hy' & Hal). congruence.
Qed.

Lemma take_at_seq (a : list Z) : take_at a (seq 0 (length a)) = Some a.
Proof.
  unfold take_at. apply mapM_Some. apply Forall2_same_length_lookup. split.
  - by rewrite length_seq.
  - intros i k x Hk Hx. apply lookup_seq in Hk. destruct Hk as [-> _]. done.
Qed.

Lemma sorting_indices_seq (a : list Z) :
  Sorted Z.le a -> sorting_indices a (seq 0 (length a)).
Proof.
  intros Hs. split; [by rewrite length_seq|]. split; [apply NoDup_seq|].
  exists a. split; [apply take_at_seq | done].
Qed.

(** The sorted array holds the IDs of the list and, when the list has no
    repeated ID, has none either. *)
Lemma sorting_indices_elem_of (a : list Z) (idx : list nat) (sa : list Z) :
  length idx = length a -> NoDup idx -> take_at a idx = Some sa ->
  (forall x, x ∈ sa <-> x ∈ a) /\ (NoDup a -> NoDup sa).
Proof.
  intros HL Hnd Hsa. destruct (take_at_lookup _ _ _ Hsa) as [HLsa Hlook].
  assert (Hperm : idx ≡ₚ seq 0 (length a)).
  { apply submseteq_length_Permutation; [|rewrite length_seq; lia].
    apply NoDup_submseteq; [done|]. intros l Hl. apply elem_of_seq.
    apply list_elem_of_lookup in Hl. destruct Hl as [k Hk].
    destruct (lookup_lt_is_Some_2 sa k) as [y Hy];
      [rewrite HLsa; by apply lookup_lt_Some in Hk|].
    specialize (Hlook k l y Hk Hy). apply lookup_lt_Some in Hlook. lia. }
  split.
  - intros x. split.
    + intros Hx. apply list_elem_of_lookup in Hx. destruct Hx as [k Hk].
      destruct (lookup_lt_is_Some_2 idx k) as [l Hl];
        [rewrite <- HLsa; by apply lookup_lt_Some in Hk|].
      apply (list_elem_of_lookup_2 _ l). by apply (Hlook k l x).
    + intros Hx. apply list_elem_of_lookup in Hx. destruct Hx as [l Hl].
      assert (Hin : l ∈ idx).
      { rewrite Hperm. apply elem_of_seq. apply lookup_lt_Some in Hl. lia. }
      apply list_elem_of_lookup in Hin. destruct Hin as [k Hk].
      destruct (lookup_lt_is_Some_2 sa k) as [y Hy];
        [rewrite HLsa; by apply lookup_lt_Some in Hk|].
      pose proof (Hlook k l y Hk Hy). apply (list_elem_of_lookup_2 _ k). congruence.
  - intros Ha. apply NoDup_alt. intros i j x Hi Hj.
    destruct (lookup_lt_is_Some_2 idx i) as [li Hli];
      [rewrite <- HLsa; by apply lookup_lt_Some in Hi|].
    destruct (lookup_lt_is_Some_2 idx j) as [lj Hlj];
      [rewrite <- HLsa; by apply lookup_lt_Some in Hj|].
    pose proof (Hlook i li x Hli Hi) as H1. pose proof (Hlook j lj x Hlj Hj) as H2.
    assert (li = lj) by (by apply (NoDup_lookup a li lj x)). subst lj.
    by apply (NoDup_lookup idx i j li).
Qed.

Section Matching.

Variables ID_long ID_short : list Z.
Variables sort_long sort_short : list nat.
Variables sorted_long sorted_short : list Z.

Hypothesis long_indices : take_at ID_long sort_long = Some sorted_long.
Hypothesis short_indices : take_at ID_short sort_short = Some sorted_short.
Hypothesis long_length : length sort_long = length ID_long.
Hypothesis short_length : length sort_short = length ID_short.
Hypothesis long_sorted : Sorted Z.le sorted_long.
Hypothesis long_NoDup : NoDup sorted_long.

Lemma match_step_found (st : list Z * list Z) (i s k l : nat) (x : Z) :
  sort_short !! i = Some s -> sorted_short !! i = Some x ->
  sorted_long !! k = Some x -> sort_long !! k = Some l ->
  match_step ID_long ID_short sort_long sort_short st i
  = Some (<[k:=Z.of_nat l]> st.1, <[i:=Z.of_nat s]> st.2).
Proof.
  intros Hs Hx Hk Hl. unfold match_step. rewrite long_indices, Hs.
  cbn [mbind option_bind].
  destruct (take_at_lookup _ _ _ short_indices) as [_ HS].
  destruct (take_at_lookup _ _ _ long_indices) as [HLen HL].
  rewrite (HS i s x Hs Hx). cbn [mbind option_bind].
  destruct (bisect_left_spec sorted_long x long_sorted) as (i1 & -> & Hi1 & Hlow & Hhigh).
  cbn [mbind option_bind].
  assert (Hik : (i1 <= k)%nat).
  { destruct (decide (i1 <= k)%nat) as [|Hn]; [done|].
    pose proof (Hlow k x ltac:(lia) Hk). lia. }
  assert (Hklt : (k < length sorted_long)%nat) by (by apply lookup_lt_Some in Hk).
  destruct (lookup_lt_is_Some_2 sorted_long i1) as [y1 Hy1]; [lia|].
  pose proof (Hhigh i1 y1 ltac:(lia) Hy1) as Hge.
  pose proof (Sorted_le_lookup _ long_sorted i1 k y1 x Hik Hy1 Hk) as Hle.
  assert (y1 = x) by lia. subst y1.
  assert (i1 = k) by (by apply (NoDup_lookup sorted_long i1 k x)). subst i1.
  assert (Hlt : Nat.ltb k (length ID_long) = true) by (apply Nat.ltb_lt; lia).
  rewrite Hlt, Hl. cbn [mbind option_bind]. rewrite (HL k l x Hl Hk).
  cbn [mbind option_bind]. by rewrite Z.eqb_refl.
Qed.

Lemma match_step_not_found (st : list Z * list Z) (i s : nat) (x : Z) :
  sort_short !! i = Some s -> sorted_short !! i = Some x ->
  x ∉ sorted_long ->
  match_step ID_long ID_short sort_long sort_short st i = Some st.
Proof.
  intros Hs Hx Hnot. unfold match_step. rewrite long_indices, Hs.
  cbn [mbind option_bind].
  destruct (take_at_lookup _ _ _ short_indices) as [_ HS].
  destruct (take_at_lookup _ _ _ long_indices) as [HLen HL].
  rewrite (HS i s x Hs Hx). cbn [mbind option_bind].
  destruct (bisect_left_spec sorted_long x long_sorted) as (i1 & -> & Hi1 & _).
  cbn [mbind option_bind].
  destruct (Nat.ltb_spec i1 (length ID_long)) as [Hlt|Hge]; [|done].
  destruct (lookup_lt_is_Some_2 sort_long i1) as [l Hl]; [lia|].
  destruct (lookup_lt_is_Some_2 sorted_long i1) as [y Hy]; [lia|].
  rewrite Hl. cbn [mbind option_bind]. rewrite (HL i1 l y Hl Hy).
  cbn [mbind option_bind].
  destruct (Z.eqb_spec y x) as [->|Hne]; [|done].
  exfalso. apply Hnot. by apply (list_elem_of_lookup_2 _ i1).
Qed.

Lemma matched_after_step (m : nat) (st : list Z * list Z) :
  (m < length sorted_short)%nat -> matched_after sort_long sort_short sorted_long sorted_short m st ->
  exists st', match_step ID_long ID_short sort_long sort_short st m = Some st' /\
              matched_after sort_long sort_short sorted_long sorted_short (S m) st'.
Proof.
  intros Hm (L1 & L2 & H1 & H2).
  destruct (take_at_lookup _ _ _ short_indices) as [HLenS _].
  destruct (take_at_lookup _ _ _ long_indices) as [HLenL _].
  destruct (lookup_lt_is_Some_2 sorted_short m) as [x Hx]; [done|].
  destruct (lookup_lt_is_Some_2 sort_short m) as [s Hs]; [lia|].
  assert (Htake : take (S m) sorted_short = take m sorted_short ++ [x]).
  { by apply take_S_r. }
  destruct (decide (x ∈ sorted_long)) as [Hin|Hnot].
  - apply list_elem_of_lookup in Hin. destruct Hin as [k Hk].
    destruct (lookup_lt_is_Some_2 sort_long k) as [l Hl];
      [rewrite <- HLenL; by apply lookup_lt_Some in Hk|].
    eexists. split; [by apply (match_step_found st m s k l x)|].
    unfold matched_after. cbn [fst snd]. split; [by rewrite length_insert|].
    split; [by rewrite length_insert|]. split.
    + intros k' y l' Hk' Hl'. rewrite Htake.
      destruct (decide (k' = k)) as [->|Hne].
      * assert (y = x) by congruence. assert (l' = l) by congruence. subst y l'.
        rewrite list_lookup_insert_eq by (apply lookup_lt_Some in Hk; lia).
        rewrite decide_True; [done|]. apply elem_of_app. right. apply list_elem_of_here.
      * rewrite list_lookup_insert_ne by done. rewrite (H1 k' y l' Hk' Hl').
        assert (y <> x).
        { intros ->. apply Hne. by apply (NoDup_lookup sorted_long k' k x). }
        f_equal. destruct (decide (y ∈ take m sorted_short)) as [Hy|Hy].
        -- rewrite decide_True; [done|]. apply elem_of_app. by left.
        -- rewrite decide_False; [done|]. intros Hy'. apply elem_of_app in Hy'.
           destruct Hy' as [Hy'|Hy']; [done|].
           apply list_elem_of_singleton in Hy'. done.
    + intros i x' s' Hi Hs'. destruct (decide (i = m)) as [->|Hne].
      * assert (x' = x) by congruence. assert (s' = s) by congruence. subst x' s'.
        rewrite list_lookup_insert_eq by lia.
        rewrite decide_True; [done|]. split; [lia|].
        by apply (list_elem_of_lookup_2 _ k).
      * rewrite list_lookup_insert_ne by done. rewrite (H2 i x' s' Hi Hs').
        f_equal. destruct (decide ((i < m)%nat /\ x' ∈ sorted_long)) as [Hy|Hy].
        -- rewrite decide_True; [done|]. destruct Hy. split; [lia|done].
        -- rewrite decide_False; [done|]. intros [Hlt Hin]. apply Hy. split; [lia|done].
  - exists st. split; [by apply (match_step_not_found st m s x)|].
    split; [done|]. split; [done|]. split.
    + intros k y l Hk Hl. rewrite (H1 k y l Hk Hl), Htake. f_equal.
      assert (y <> x).
      { intros ->. apply Hnot. by apply (list_elem_of_lookup_2 _ k). }
      destruct (decide (y ∈ take m sorted_short)) as [Hy|Hy].
      * rewrite decide_True; [done|]. apply elem_of_app. by left.
      * rewrite decide_False; [done|]. intros Hy'. apply elem_of_app in Hy'.
        destruct Hy' as [Hy'|Hy']; [done|].
        apply list_elem_of_singleton in Hy'. done.
    + intros i x' s' Hi Hs'. rewrite (H2 i x' s' Hi Hs'). f_equal.
      destruct (decide ((i < m)%nat /\ x' ∈ sorted_long)) as [Hy|Hy].
      * rewrite decide_True; [done|]. destruct Hy. split; [lia|done].
      * rewrite decide_False; [done|]. intros [Hlt Hin]. apply Hy. split; [|done].
        destruct (decide (i = m)) as [->|Hne]; [|lia].
        assert (x' = x) by congruence. subst x'. done.
Qed.

Lemma matched_after_loop (n m : nat) (st : list Z * list Z) :
  (m + n = length sorted_short)%nat -> matched_after sort_long sort_short sorted_long sorted_short m st ->
  exists st', match_loop ID_long ID_short sort_long sort_short (seq m n) st = Some st' /\
              matched_after sort_long sort_short sorted_long sorted_short (length sorted_short) st'.
Proof.
  revert m st. induction n as [|n IH]; intros m st Hmn Hst.
  - exists st. split; [done|]. by replace (length sorted_short) with m by lia.
  - cbn [seq match_loop].
    destruct (matched_after_step m st ltac:(lia) Hst) as (st1 & -> & Hst1).
    cbn [mbind option_bind]. apply IH; [lia|done].
Qed.

Lemma matched_after_init :
  matched_after sort_long sort_short sorted_long sorted_short 0 (replicate (length ID_long) (-1)%Z,
                   replicate (length ID_short) (-1)%Z).
Proof.
  destruct (take_at_lookup _ _ _ short_indices) as [HLenS HS].
  destruct (take_at_lookup _ _ _ long_indices) as [HLenL _].
  unfold matched_after. cbn [fst snd]. rewrite !length_replicate.
  split; [lia|]. split; [lia|]. split.
  - intros k y l Hk Hl. rewrite take_0.
    rewrite decide_False by (by intros ?%elem_of_nil).
    apply lookup_replicate_2. apply lookup_lt_Some in Hl. lia.
  - intros i x s Hi Hs. rewrite decide_False by (intros [? _]; lia).
    apply lookup_replicate_2. apply lookup_lt_Some in Hs. lia.
Qed.

(** The index arrays when the loop is over. *)
Lemma match_loop_result :
  exists st,
    match_loop ID_long ID_short sort_long sort_short (seq 0 (length ID_short))
      (replicate (length ID_long) (-1)%Z, replicate (length ID_short) (-1)%Z) = Some st /\
    st.1 = zip_with (fun l y => if decide (y ∈ sorted_short) then Z.of_nat l else (-1)%Z)
             sort_long sorted_long /\
    st.2 = zip_with (fun s x => if decide (x ∈ sorted_long) then Z.of_nat s else (-1)%Z)
             sort_short sorted_short.
Proof.
  destruct (take_at_lookup _ _ _ short_indices) as [HLenS HS].
  destruct (take_at_lookup _ _ _ long_indices) as [HLenL _].
  destruct (matched_after_loop (length ID_short) 0 _ ltac:(lia) matched_after_init)
    as (st & Hst & L1 & L2 & H1 & H2).
  exists st. split; [done|]. split.
  - apply list_eq. intros k. rewrite lookup_zip_with.
    destruct (sort_long !! k) as [l|] eqn:Hl; cbn [mbind option_bind].
    + destruct (lookup_lt_is_Some_2 sorted_long k) as [y Hy];
        [rewrite HLenL; by apply lookup_lt_Some in Hl|].
      rewrite Hy. cbn [mbind option_bind]. rewrite (H1 k y l Hy Hl).
      by rewrite take_ge by lia.
    + apply lookup_ge_None. apply lookup_ge_None in Hl. lia.
  - apply list_eq. intros i. rewrite lookup_zip_with.
    destruct (sort_short !! i) as [s|] eqn:Hs; cbn [mbind option_bind].
    + destruct (lookup_lt_is_Some_2 sorted_short i) as [x Hx];
        [rewrite HLenS; by apply lookup_lt_Some in Hs|].
      rewrite Hx. cbn [mbind option_bind]. rewrite (H2 i x s Hx Hs).
      f_equal. apply lookup_lt_Some in Hx.
      destruct (decide (x ∈ sorted_long)) as [Hin|Hnot].
      * by rewrite decide_True by (split; [lia|done]).
      * by rewrite decide_False by (by intros [_ ?]).
    + apply lookup_ge_None. apply lookup_ge_None in Hs. lia.
Qed.

End Matching.

Lemma keep_matched_zip (a : list Z) (P : Z -> Prop) `{forall y, Decision (P y)}
    (idx : list nat) (sa : list Z) :
  Forall2 (fun l y => a !! l = Some y) idx sa ->
  selects a
    (keep_matched (zip_with (fun l y => if decide (P y) then Z.of_nat l else (-1)%Z) idx sa))
    (filter P sa).
Proof.
  unfold selects, keep_matched.
  induction 1 as [|l y idx sa Hl _ IH]; [constructor|].
  cbn [zip_with]. destruct (decide (P y)) as [Hy|Hy].
  - rewrite filter_cons_True by lia. rewrite (filter_cons_True P) by done.
    constructor; [|done]. split; [lia|]. by rewrite Nat2Z.id.
  - rewrite filter_cons_False by lia. by rewrite (filter_cons_False P) by done.
Qed.

Lemma StronglySorted_filter {A} (R : relation A) (P : A -> Prop)
    `{forall x, Decision (P x)} (l : list A) :
  StronglySorted R l -> StronglySorted R (filter P l).
Proof.
  induction 1 as [|x l Hs IH Hall]; [constructor|].
  rewrite filter_cons. destruct (decide (P x)); [|done].
  constructor; [done|]. apply Forall_forall. intros y Hy.
  apply list_elem_of_filter in Hy. destruct Hy as [_ Hy].
  by apply (proj1 (Forall_forall _ _) Hall).
Qed.

Lemma strictly_sorted (a : list Z) :
  Sorted Z.le a -> NoDup a -> StronglySorted Z.lt a.
Proof.
  intros Hs. apply (Sorted_StronglySorted _) in Hs.
  induction Hs as [|x a Hs IH Hall]; intros Hnd; [constructor|].
  apply NoDup_cons in Hnd. destruct Hnd as [Hx Hnd].
  constructor; [by apply IH|]. apply Forall_forall. intros y Hy.
  pose proof (proj1 (Forall_forall _ _) Hall y Hy) as Hle.
  assert (x <> y) by (by intros ->). lia.
Qed.

(** The core of [match_ID]: on lists without repeated IDs and with index
    arrays that sort them, the loop returns, and the two index arrays
    filtered select the same IDs in both lists: the common ones, in
    ascending order. *)
Lemma match_loop_selects_common (ID_long ID_short : list Z)
    (sort_long sort_short : list nat) :
  NoDup ID_long -> NoDup ID_short ->
  sorting_indices ID_long sort_long -> sorting_indices ID_short sort_short ->
  exists st common,
    match_loop ID_long ID_short sort_long sort_short (seq 0 (length ID_short))
      (replicate (length ID_long) (-1)%Z, replicate (length ID_short) (-1)%Z) = Some st /\
    selects ID_long (keep_matched st.1) common /\
    selects ID_short (keep_matched st.2) common /\
    StronglySorted Z.lt common /\
    forall x, x ∈ common <-> x ∈ ID_long /\ x ∈ ID_short.
Proof.
  intros NL NS (LL & NpL & sL & HsL & SL) (LS & NpS & sS & HsS & SS).
  destruct (sorting_indices_elem_of _ _ _ LL NpL HsL) as [EL NDL].
  destruct (sorting_indices_elem_of _ _ _ LS NpS HsS) as [ES NDS].
  specialize (NDL NL). specialize (NDS NS).
  destruct (match_loop_result ID_long ID_short sort_long sort_short sL sS
              HsL HsS LL LS SL NDL) as (st & Hst & E1 & E2).
  exists st, (filter (fun y => y ∈ sS) sL). split; [done|].
  assert (Hsame : filter (fun x => x ∈ sL) sS = filter (fun y => y ∈ sS) sL).
  { apply (Sorted_unique Z.le).
    - apply StronglySorted_Sorted, StronglySorted_filter.
      by apply (Sorted_StronglySorted _).
    - apply StronglySorted_Sorted, StronglySorted_filter.
      by apply (Sorted_StronglySorted _).
    - apply NoDup_Permutation; [by apply NoDup_filter..|].
      intros x. rewrite !list_elem_of_filter. tauto. }
  split; [|split; [|split]].
  - rewrite E1. apply keep_matched_zip. by apply mapM_Some.
  - rewrite E2, <- Hsame. apply keep_matched_zip. by apply mapM_Some.
  - apply strictly_sorted; [|by apply NoDup_filter].
    apply StronglySorted_Sorted, StronglySorted_filter.
    by apply (Sorted_StronglySorted _).
  - intros x. rewrite list_elem_of_filter, EL, ES. tauto.
Qed.

(** X27.  The contract of [match_ID].  For two lists without repeated IDs, with
    an [argsort] that sorts them (or, when the caller says the lists are
    sorted, lists that are), the function returns, and the two index
    arrays select the same IDs in the two lists, position by position:
    every ID that is in both lists, once, in ascending order. *)
Theorem match_ID_selects_the_common_IDs (argsort : list Z -> list nat)
    (ID_list_1 ID_list_2 : list Z) (sorted : bool) :
  NoDup ID_list_1 -> NoDup ID_list_2 ->
  sorting_indices ID_list_1
    (if sorted then seq 0 (length ID_list_1) else argsort ID_list_1) ->
  sorting_indices ID_list_2
    (if sorted then seq 0 (length ID_list_2) else argsort ID_list_2) ->
  exists indices_1 indices_2 common,
    match_ID argsort ID_list_1 ID_list_2 sorted = Some (indices_1, indices_2) /\
    selects ID_list_1 indices_1 common /\
    selects ID_list_2 indices_2 common /\
    StronglySorted Z.lt common /\
    forall x, x ∈ common <-> x ∈ ID_list_1 /\ x ∈ ID_list_2.
Proof.
  intros N1 N2 S1 S2. unfold match_ID.
  destruct (Nat.leb (length ID_list_2) (length ID_list_1)).
  - destruct (match_loop_selects_common ID_list_1 ID_list_2
                (if negb sorted then argsort ID_list_1 else seq 0 (length ID_list_1))
                (if negb sorted then argsort ID_list_2 else seq 0 (length ID_list_2)))
      as (st & common & -> & H1 & H2 & H3 & H4); [done|done|by destruct sorted..|].
    cbn [mbind option_bind]. by exists (keep_matched st.1), (keep_matched st.2), common.
  - destruct (match_loop_selects_common ID_list_2 ID_list_1
                (if negb sorted then argsort ID_list_2 else seq 0 (length ID_list_2))
                (if negb sorted then argsort ID_list_1 else seq 0 (length ID_list_1)))
      as (st & common & -> & H1 & H2 & H3 & H4); [done|done|by destruct sorted..|].
    cbn [mbind option_bind]. exists (keep_matched st.2), (keep_matched st.1), common.
    split; [done|]. split; [done|]. split; [done|]. split; [done|].
    intros x. rewrite H4. tauto.
Qed.

(** ** The further statements on the example inputs *)


(** No file [7_BANGS_marginal_SED_phot.pdf] is in the way. *)
Lemma prepare_plot_saving_keeps_witness :
  plot_files (prepare_plot_saving "-20261104-120000" "7_BANGS_marginal_SED_phot.pdf"
                false world_with_plots) = plot_files world_with_plots /\
  plot_dir_exists (prepare_plot_saving "-20261104-120000" "7_BANGS_marginal_SED_phot.pdf"
                     false world_with_plots) = true.
Proof.
  apply (prepare_plot_saving_keeps_files "-20261104-120000"
           "7_BANGS_marginal_SED_phot.pdf" false world_with_plots).
  left. vm_compute. reflexivity.
Defined.

(** Replotting the replicated data of the object 42, then asking again. *)
Lemma plot_replicated_data_twice_witness :
  exists w',
    plot_replicated_data "-20261104-120000" (fun _ => Some old_figure) "42" true
      world_with_plots = Some w' /\
    plot_replicated_data "-20261104-120500" (fun _ => None) "42" false w'
    = Some (log_line "The plot already exists. Exiting the function." w').
Proof.
  eassert (H : plot_replicated_data "-20261104-120000" (fun _ => Some old_figure) "42"
                 true world_with_plots = Some _) by reflexivity.
  eexists. split; [exact H|].
  apply (plot_replicated_data_twice "-20261104-120000" "-20261104-120500"
           (fun _ => Some old_figure) (fun _ => None) "42" true world_with_plots _ H).
Defined.

(** The same for the marginal plot of the object 42. *)
Lemma plot_marginal_twice_witness :
  exists w',
    plot_marginal "-20261104-120000" approx_sqrt approx_pow10 uniform_violin results_42
      catalogue_a three_filters "42" true false world_with_plots = Some w' /\
    plot_marginal "-20261104-120500" approx_sqrt approx_pow10 (fun _ _ => None) ∅
      catalogue_b three_filters "42" false false w'
    = Some (log_line "The plot already exists. Exiting the function." w').
Proof.
  eassert (H : plot_marginal "-20261104-120000" approx_sqrt approx_pow10 uniform_violin
                 results_42 catalogue_a three_filters "42" true false world_with_plots
               = Some _) by (vm_compute; reflexivity).
  eexists. split; [exact H|].
  apply (plot_marginal_twice "-20261104-120000" "-20261104-120500"
           approx_sqrt approx_pow10 approx_sqrt approx_pow10
           uniform_violin (fun _ _ => None) results_42 ∅
           catalogue_a catalogue_b three_filters three_filters "42" true
           world_with_plots _ H).
Defined.

(** Showing the marginal plot of the object 42 leaves the files alone. *)
Lemma plot_marginal_show_witness :
  exists w',
    plot_marginal "-20261104-120000" approx_sqrt approx_pow10 uniform_violin results_42
      catalogue_a three_filters "42" false true world_with_plots = Some w' /\
    plot_files w' = plot_files world_with_plots /\
    logged w' = logged world_with_plots /\
    length (shown w') = 1%nat.
Proof.
  eassert (H : plot_marginal "-20261104-120000" approx_sqrt approx_pow10 uniform_violin
                 results_42 catalogue_a three_filters "42" false true world_with_plots
               = Some _) by (vm_compute; reflexivity).
  eexists. split; [exact H|].
  destruct (plot_marginal_show_writes_nothing "-20261104-120000" approx_sqrt
              approx_pow10 uniform_violin results_42 catalogue_a three_filters "42"
              false world_with_plots _ H)
    as (Hfiles & _ & Hlog & obs & fit & fig & _ & _ & _ & Hshown).
  split; [exact Hfiles|]. split; [exact Hlog|]. rewrite Hshown. reflexivity.
Defined.

(** Replotting the replicated data of the object 42 keeps the old plot
    under the stamped name. *)
Lemma replot_keeps_previous_plot_witness :
  exists w',
    plot_replicated_data "-20261104-120000" (fun _ => Some old_figure) "42" true
      world_with_plots = Some w' /\
    plot_files w' !! replicated_plot_name "42" = Some old_figure /\
    plot_files w' !! "42_BANGS_replic_data_phot-20261104-120000.pdf"%string
    = Some old_figure.
Proof.
  destruct (replot_keeps_previous_plot "-20261104-120000" (fun _ => Some old_figure)
              "42" world_with_plots old_figure old_figure)
    as (w' & Hw' & Hnew & Hold & _).
  - vm_compute. reflexivity.
  - reflexivity.
  - discriminate.
  - exists w'. split; [exact Hw'|]. split; [exact Hnew | exact Hold].
Defined.

Lemma two_bands_reordered_wf : wf_input two_bands_reordered.
Proof. split; cbn; repeat constructor. Qed.

(** The p-values of [two_bands_one_masked]. *)
Lemma p_values_in_unit_interval_witness :
  exists s,
    result (posterior_predictive_checks two_bands_one_masked) = Some s /\
    length (stat_p_value_bands s) = n_bands two_bands_one_masked /\
    Forall (fun p => 0 <= p /\ p <= 1)%Q (stat_p_value_bands s) /\
    (0 <= stat_p_value s /\ stat_p_value s <= 1)%Q.
Proof.
  apply (p_values_in_unit_interval two_bands_one_masked two_bands_one_masked_wf).
Defined.

(** A table without draws. *)
Lemma no_draws_witness :
  result (posterior_predictive_checks one_band_no_draw) = None.
Proof. apply (no_draws_raises one_band_no_draw). reflexivity. Defined.

(** One error for two bands. *)
Lemma band_count_mismatch_witness :
  result (posterior_predictive_checks (with_errors [1%Q] two_bands_one_masked)) = None.
Proof.
  apply (band_count_mismatch_raises (with_errors [1%Q] two_bands_one_masked)).
  right. cbn. discriminate.
Defined.

(** [one_band_ties] has no masked band, and no denominator that is not
    positive. *)
Lemma denominators_witness :
  Forall (fun q => 0 < q)%Q (log (posterior_predictive_checks one_band_ties)).
Proof.
  apply (denominators_positive_iff_no_masked_band one_band_ties one_band_ties_wf).
  repeat constructor.
Defined.

(** A masked band put between the two bands of [two_bands_one_masked]. *)
Lemma add_masked_band_witness :
  exists ps,
    result (p_value_bands two_bands_one_masked) = Some ps /\
    result (p_value_bands
              (add_band 1 7%Q 0%Q [1; 2; 3; 4]%Q [0; 0; 0; 0]%Q two_bands_one_masked))
    = Some (insert_at 1 0%Q ps).
Proof.
  apply (p_value_bands_add_masked_band 1 7%Q 0%Q [1; 2; 3; 4]%Q [0; 0; 0; 0]%Q
           two_bands_one_masked two_bands_one_masked_wf).
  - cbn. lia.
  - reflexivity.
  - reflexivity.
  - reflexivity.
Defined.

(** An error of 5 instead of 1 in the first band. *)
Lemma ignore_error_size_witness :
  result (p_value_bands (with_errors [5; 0]%Q two_bands_one_masked))
  = result (p_value_bands two_bands_one_masked).
Proof.
  apply (p_value_bands_ignore_error_size two_bands_one_masked [5; 0]%Q
           two_bands_one_masked_wf).
  cbn. repeat constructor; intros H; try reflexivity; discriminate H.
Defined.

(** The first two draws of [two_bands_one_masked] exchanged. *)
Lemma ignore_draw_order_witness :
  result (p_value_bands two_bands_reordered)
  = result (p_value_bands two_bands_one_masked).
Proof.
  apply (p_value_bands_ignore_draw_order two_bands_one_masked two_bands_reordered
           two_bands_one_masked_wf two_bands_reordered_wf);
    try reflexivity.
  intros [|[|j]] field noiseless field' noiseless' H1 H2 H3 H4; simplify_eq/=.
  - apply perm_swap.
  - apply perm_swap.
Defined.

(** A single filter: no marginal plot. *)
Lemma needs_two_filters_witness :
  marginal_figure uniform_violin single_filter [100]%Q [1]%Q
    [[1 # 10 ^ 32; 3 # 10 ^ 32]%Q] [1; 1]%Q = None.
Proof.
  apply (marginal_figure_needs_two_filters uniform_violin single_filter).
  cbn. lia.
Defined.

(** The second band has no posterior sample. *)
Lemma empty_sample_witness :
  marginal_figure uniform_violin three_filters bright_obs_flux bright_obs_flux_err
    [[1 # 10 ^ 32; 3 # 10 ^ 32]; []; [5 # 10 ^ 32; 5 # 10 ^ 32]]%Q [1; 1]%Q = None.
Proof.
  apply (marginal_figure_empty_sample_raises uniform_violin three_filters).
  apply list_elem_of_further, list_elem_of_here.
Defined.

(** The third of the bands at 1000, 2000 and 2100 Angstrom, which is 100
    Angstrom from the second, gets the spacing of the first two. *)
Lemma band_dwl_witness :
  band_dwl [1000; 1000; 100]%Q 2 = Some (2000 - 1000)%Q.
Proof.
  destruct (band_dwl_is_spacing_of_previous_bands (wl_eff three_filters)
              [1000; 1000; 100]%Q 2 eq_refl) as (_ & H & _).
  destruct H as (a & b & Ha & Hb & Hd); [lia | cbn; lia |].
  cbn in Ha, Hb. injection Ha as <-. injection Hb as <-. exact Hd.
Defined.

(** The limits of the y-axis for [three_band_fit] and the bright
    observation: the lower end of the error bar of the second band, 3 - 1,
    is on the axis. *)
Lemma y_limits_cover_witness :
  exists st lo hi,
    marginal_loop uniform_violin [1; 1]%Q 0 three_band_fit
      (marginal_init (length three_band_fit)) = Some st /\
    y_limits bright_obs_flux bright_obs_flux_err st = Some (lo, hi) /\
    (lo <= hi)%Q /\ (lo <= 3 - 1)%Q.
Proof.
  eassert (Hst : marginal_loop uniform_violin [1; 1]%Q 0 three_band_fit
                   (marginal_init (length three_band_fit)) = Some _)
    by (vm_compute; reflexivity).
  match type of Hst with
  | _ = Some ?st =>
      eassert (Hlim : y_limits bright_obs_flux bright_obs_flux_err st = Some (_, _))
        by (vm_compute; reflexivity);
      destruct (y_limits_cover_model_and_lower_error_bars uniform_violin [1; 1]%Q
                  three_band_fit st bright_obs_flux bright_obs_flux_err _ _ Hst Hlim)
        as (Hord & _ & Hobs)
  end.
  eexists _, _, _. split; [exact Hst|]. split; [exact Hlim|]. split; [exact Hord|].
  apply (Hobs 1%nat 3%Q 1%Q); reflexivity.
Defined.

(** The object 7 is not in the catalogue. *)
Lemma extract_fluxes_missing_witness :
  extract_fluxes approx_sqrt catalogue_a three_filters "7" 1 = None.
Proof.
  apply (extract_fluxes_missing_raises approx_sqrt catalogue_a three_filters "7" 1).
  left. vm_compute. reflexivity.
Defined.

Lemma approx_sqrt_positive (x : Q) : (0 < x)%Q -> (0 < approx_sqrt x)%Q.
Proof.
  intros Hx. unfold approx_sqrt.
  assert (Hstep : forall y, (0 < y)%Q -> (0 < Qred ((y + x / y) / 2))%Q).
  { intros y Hy. rewrite Qred_correct.
    assert (0 < x / y)%Q by (apply Qlt_shift_div_l; [done|]; by rewrite Qmult_0_l).
    apply Qlt_shift_div_l; [reflexivity|]. rewrite Qmult_0_l.
    apply (Qlt_trans _ y); [done|]. rewrite <- (Qplus_0_r y) at 1.
    by apply Qplus_lt_r. }
  do 4 apply Hstep. reflexivity.
Qed.

(** The first band of the object 42, with flux 100 and error 1, is used. *)
Lemma band_used_witness :
  exists obs errs,
    observed_photometry approx_sqrt approx_pow10 catalogue_a three_filters "42"
    = Some (obs, errs) /\
    (0%nat ∈ where_positive errs <-> (0 < 100 /\ 0 < 1)%Q).
Proof.
  eassert (Hobs : observed_photometry approx_sqrt approx_pow10 catalogue_a
                    three_filters "42" = Some (_, _)) by (vm_compute; reflexivity).
  eexists _, _. split; [exact Hobs|].
  match type of Hobs with
  | _ = Some (?obs, ?errs) =>
      apply (band_used_iff_flux_and_error_positive approx_sqrt approx_pow10 catalogue_a
               three_filters "42" obs errs (<["aper_corr"%string := 0%Q]> row_42) 0
               "F1" "E1" 100%Q 1%Q approx_sqrt_positive)
  end; try reflexivity; try exact Hobs.
  - cbn. lia.
  - discriminate.
Defined.





(** Two lists with repeated IDs. *)
Lemma match_ID_sound_witness :
  exists indices_1 indices_2,
    match_ID insertion_argsort [5; 7; 5; 9]%Z [5; 5; 7]%Z false
    = Some (indices_1, indices_2) /\
    Forall (fun v => exists k x, v = Z.of_nat k /\ [5; 7; 5; 9]%Z !! k = Some x /\
                                 x ∈ [5; 5; 7]%Z) indices_1 /\
    Forall (fun v => exists k x, v = Z.of_nat k /\ [5; 5; 7]%Z !! k = Some x /\
                                 x ∈ [5; 7; 5; 9]%Z) indices_2.
Proof.
  apply (match_ID_indices_point_to_common_IDs insertion_argsort [5; 7; 5; 9]%Z
           [5; 5; 7]%Z false).
  intros _. split; (split; [reflexivity|]); repeat constructor; cbn; lia.
Defined.

Lemma catalogue_IDs_1_sorting :
  sorting_indices catalogue_IDs_1 (insertion_argsort catalogue_IDs_1).
Proof.
  split; [reflexivity|]. split.
  - apply (bool_decide_unpack _). vm_compute. exact I.
  - exists [10; 20; 30; 40]%Z. split; [reflexivity|]. repeat constructor; lia.
Qed.

Lemma catalogue_IDs_2_sorting :
  sorting_indices catalogue_IDs_2 (insertion_argsort catalogue_IDs_2).
Proof.
  split; [reflexivity|]. split.
  - apply (bool_decide_unpack _). vm_compute. exact I.
  - exists [20; 30; 50]%Z. split; [reflexivity|]. repeat constructor; lia.
Qed.

(** The IDs 20 and 30 are found in both example lists. *)
Lemma match_ID_witness :
  exists indices_1 indices_2 common,
    match_ID insertion_argsort catalogue_IDs_1 catalogue_IDs_2 false
    = Some (indices_1, indices_2) /\
    selects catalogue_IDs_1 indices_1 common /\
    selects catalogue_IDs_2 indices_2 common /\
    StronglySorted Z.lt common /\
    forall x, x ∈ common <-> x ∈ catalogue_IDs_1 /\ x ∈ catalogue_IDs_2.
Proof.
  apply (match_ID_selects_the_common_IDs insertion_argsort catalogue_IDs_1
           catalogue_IDs_2 false).
  - apply (bool_decide_unpack _). vm_compute. exact I.
  - apply (bool_decide_unpack _). vm_compute. exact I.
  - exact catalogue_IDs_1_sorting.
  - exact catalogue_IDs_2_sorting.
Defined.
